(** * A shallow embedding of the WebAssembly toy VM
      (wasm-vm-01.js and wasm-vm-02/wasm-vm.js)

    The program is JavaScript.  Its numbers are IEEE-754 binary64 values, its
    stacks are arrays that grow at the end, its errors are exceptions that
    leave every mutation made so far in place, and its instructions are
    closures applied to whatever object is passed as [vm].  The embedding keeps
    each of these: numbers are [spec_float] at precision 53, arrays are lists
    in index order, methods are state transformers that return an outcome
    together with the state reached, and instructions are evaluated through a
    class of receivers whose optional members are the methods a receiver
    object may or may not define. *)

From Stdlib Require Import ZArith List String Bool Lia SpecFloat DecimalString.
Import ListNotations.
Local Open Scope string_scope.
Local Open Scope list_scope.
Local Open Scope Z_scope.

(** ** JavaScript numbers *)

Module Number.

Definition number := spec_float.

Definition prec : Z := 53.
Definition emax : Z := 1024.

(** The number denoted by an integer literal. *)
Definition of_Z (z : Z) : number := binary_normalize prec emax z 0 false.

Definition NaN : number := S754_nan.
Definition Infinity : number := S754_infinity false.
Definition neg_Infinity : number := S754_infinity true.

Definition add : number -> number -> number := SFadd prec emax.
Definition sub : number -> number -> number := SFsub prec emax.
Definition mul : number -> number -> number := SFmul prec emax.
Definition div : number -> number -> number := SFdiv prec emax.

(** [Math.trunc]: drops the fractional digits and keeps the sign, also of a
    zero result; NaN and the infinities are returned unchanged. *)
Definition trunc (x : number) : number :=
  match x with
  | S754_finite s m e =>
      if 0 <=? e then x
      else binary_normalize prec emax (cond_Zopp s (Z.shiftr (Zpos m) (- e))) 0 s
  | _ => x
  end.

(** [x === y], [x < y] and [x <= y] on numbers. *)
Definition eqb : number -> number -> bool := SFeqb.
Definition ltb : number -> number -> bool := SFltb.
Definition leb : number -> number -> bool := SFleb.

(** The integer a number stands for, when it is finite and integral; both
    zeros stand for 0. *)
Definition to_Z (x : number) : option Z :=
  match x with
  | S754_zero _ => Some 0
  | S754_finite s m e =>
      if 0 <=? e then Some (cond_Zopp s (Zpos m * 2 ^ e))
      else if Zpos m mod 2 ^ (- e) =? 0
           then Some (cond_Zopp s (Zpos m / 2 ^ (- e)))
           else None
  | _ => None
  end.

End Number.

Import Number.

(** The contents of the [value] field of an [I32] object: the program stores
    numbers there, and [new I32()] leaves it [undefined]. *)
Inductive prim : Type :=
| undefined
| Num (x : number).

Definition ToNumber (p : prim) : number :=
  match p with
  | undefined => NaN
  | Num x => x
  end.

(** [a === b] *)
Definition strict_eq (a b : prim) : bool :=
  match a, b with
  | undefined, undefined => true
  | Num x, Num y => Number.eqb x y
  | _, _ => false
  end.

(** [a > b], as used by the loop test of [Instance.step]. *)
Definition js_gt (a b : prim) : bool := Number.ltb (ToNumber b) (ToNumber a).

(** ** Values held by stacks, locals and globals *)

(** The constructors the program passes around as type tags. *)
Inductive Class : Type := I32_class.

Definition Class_name (C : Class) : string :=
  match C with I32_class => "I32" end.

(** A slot holds an [I32] object, or [undefined] once a pop of an empty array
    has been stored somewhere. *)
Inductive Value : Type :=
| VUndefined
| I32 (value : prim).

Definition i32 (value : prim) : Value := I32 value.

(** [new T()] *)
Definition new (T : Class) : Value :=
  match T with I32_class => I32 undefined end.

Definition instanceof (v : Value) (C : Class) : bool :=
  match v, C with
  | I32 _, I32_class => true
  | VUndefined, _ => false
  end.

(** Template-literal rendering of a value. *)
Definition Value_to_string (v : Value) : string :=
  match v with
  | VUndefined => "undefined"
  | I32 _ => "[object Object]"
  end.

Definition Z_to_string (z : Z) : string := NilZero.string_of_int (Z.to_int z).

(** ** Exceptions and the method monad *)

Inductive exn : Type :=
| Error (message : string)
    (* [throw new Error(message)] in the program text *)
| TypeError_property_of_undefined (property : string)
    (* the runtime's error for reading [property] of [undefined] *)
| TypeError_not_a_function (callee : string).
    (* the runtime's error for calling a member that is [undefined] *)

Inductive outcome (A : Type) : Type :=
| Return (a : A)
| Throw (e : exn)
| OutOfFuel.

Arguments Return {A} a.
Arguments Throw {A} e.
Arguments OutOfFuel {A}.

(** A method of an object of class [S]: it returns the state the object is
    left in, also when it throws. *)
Definition M (S A : Type) : Type := S -> S * outcome A.

Definition ret {S A} (a : A) : M S A := fun s => (s, Return a).

Definition throw {S A} (e : exn) : M S A := fun s => (s, Throw e).

Definition bind {S A B} (m : M S A) (k : A -> M S B) : M S B :=
  fun s =>
    match m s with
    | (s', Return a) => k a s'
    | (s', Throw e) => (s', Throw e)
    | (s', OutOfFuel) => (s', OutOfFuel)
    end.

Definition get {S} : M S S := fun s => (s, Return s).

Definition modify {S} (f : S -> S) : M S unit := fun s => (f s, Return tt).

Declare Scope method_scope.
Delimit Scope method_scope with method.
Notation "x <- m ;; k" := (bind m (fun x => k))
  (at level 61, m at next level, right associativity) : method_scope.
Notation "m ;;; k" := (bind m (fun _ => k))
  (at level 61, right associativity) : method_scope.
Local Open Scope method_scope.

(** Calling a member that the receiver may not define. *)
Definition member {S A} (name : string) (m : option (M S A)) : M S A :=
  match m with
  | Some f => f
  | None => throw (TypeError_not_a_function name)
  end.

(** ** Arrays *)

(** [xs.pop()] and [xs.at(-1)]: the last element, [None] for [undefined]. *)
Fixpoint array_pop {A} (xs : list A) : option A * list A :=
  match xs with
  | [] => (None, [])
  | [x] => (Some x, [])
  | x :: rest => let '(last, init) := array_pop rest in (last, x :: init)
  end.

Definition array_at_last {A} (xs : list A) : option A := fst (array_pop xs).

(** [xs[i]] for an integer [i]. *)
Definition array_get {A} (xs : list A) (i : Z) : option A :=
  if i <? 0 then None else nth_error xs (Z.to_nat i).

(** [xs[i] = v] for an integer [i] within the array. *)
Fixpoint list_set {A} (xs : list A) (n : nat) (v : A) : list A :=
  match xs, n with
  | [], _ => []
  | _ :: rest, O => v :: rest
  | x :: rest, S n' => x :: list_set rest n' v
  end.

Definition array_set {A} (xs : list A) (i : Z) (v : A) : list A :=
  if i <? 0 then xs else list_set xs (Z.to_nat i) v.

Definition len {A} (xs : list A) : Z := Z.of_nat (List.length xs).

(** Runs a method of the last element of an array field; [prop] is the member
    whose read fails when the array is empty. *)
Definition on_last {S B A} (proj : S -> list B) (upd : list B -> S -> S)
    (prop : string) (m : M B A) : M S A :=
  fun s =>
    match array_pop (proj s) with
    | (None, _) => (s, Throw (TypeError_property_of_undefined prop))
    | (Some b, init) =>
        let '(b', r) := m b in (upd (init ++ [b']) s, r)
    end.

(** ** class Stack *)

Record Stack : Type := { items : list Value }.

Module StackM.

Definition push (value : Value) : M Stack unit :=
  fun s => ({| items := items s ++ [value] |}, Return tt).

Definition pop : M Stack Value :=
  fun s =>
    match array_pop (items s) with
    | (Some v, init) => ({| items := init |}, Return v)
    | (None, init) => ({| items := init |}, Return VUndefined)
    end.

Definition peek : M Stack Value :=
  fun s =>
    match array_at_last (items s) with
    | Some v => (s, Return v)
    | None => (s, Return VUndefined)
    end.

Definition topIsOfType (C : Class) : M Stack bool :=
  v <- peek;; ret (instanceof v C).

Definition assertTopIsOfType (C : Class) : M Stack unit :=
  ok <- topIsOfType C;;
  if negb ok then
    v <- peek;;
    throw (Error ("Expected " ++ Class_name C ++ " on top of stack, got "
                    ++ Value_to_string v)%string)
  else ret tt.

Definition popType (T : Class) : M Stack Value :=
  assertTopIsOfType T;;; pop.

Definition popI32 : M Stack Value := popType I32_class.

End StackM.

(** ** Instructions *)

(** One constructor per instruction object or instruction factory of the two
    source files; an immediate is the argument the factory closes over. *)
Inductive Instruction : Type :=
| nop
| i32_const (value : number)
| drop
| i32_add | i32_sub | i32_mul | i32_div_s
| i32_eq | i32_ne | i32_lt_s | i32_gt_s | i32_le_s | i32_ge_s
| local_get (index : Z) | local_set (index : Z) | local_tee (index : Z)
| block | end_ | br (labelidx : Z) | br_if (labelidx : Z) | loop | if_ | else_
| call (index : Z)
| global_get (index : Z) | global_set (index : Z).

Definition opcode (i : Instruction) : Z :=
  match i with
  | nop => 0x01 | block => 0x02 | loop => 0x03 | if_ => 0x04 | else_ => 0x05
  | end_ => 0x0b | br _ => 0x0c | br_if _ => 0x0d | call _ => 0x10
  | drop => 0x1a
  | local_get _ => 0x20 | local_set _ => 0x21 | local_tee _ => 0x22
  | global_get _ => 0x23 | global_set _ => 0x24
  | i32_const _ => 0x41
  | i32_eq => 0x46 | i32_ne => 0x47 | i32_lt_s => 0x48 | i32_gt_s => 0x4a
  | i32_le_s => 0x4c | i32_ge_s => 0x4e
  | i32_add => 0x6a | i32_sub => 0x6b | i32_mul => 0x6c | i32_div_s => 0x6d
  end.

Definition name (i : Instruction) : string :=
  match i with
  | nop => "nop" | block => "block" | loop => "loop" | if_ => "if"
  | else_ => "else" | end_ => "end" | br _ => "br" | br_if _ => "br_if"
  | call _ => "call" | drop => "drop"
  | local_get _ => "local.get" | local_set _ => "local.set"
  | local_tee _ => "local.tee"
  | global_get _ => "global.get" | global_set _ => "global.set"
  | i32_const _ => "i32.const"
  | i32_eq => "i32.eq" | i32_ne => "i32.ne" | i32_lt_s => "i32.lt_s"
  | i32_gt_s => "i32.gt_s" | i32_le_s => "i32.le_s" | i32_ge_s => "i32.ge_s"
  | i32_add => "i32.add" | i32_sub => "i32.sub" | i32_mul => "i32.mul"
  | i32_div_s => "i32.div_s"
  end.

(** ** class BlockFrame extends Stack *)

Record BlockFrame : Type := {
  super : Stack;                 (* the inherited [items] *)
  type : list (list Class);      (* [[]] or [[params, results]] *)
  breakTargetPc : Z
}.

Definition new_BlockFrame (type : list (list Class)) (breakTargetPc : Z) : BlockFrame :=
  {| super := {| items := [] |}; type := type; breakTargetPc := breakTargetPc |}.

(** An inherited [Stack] method called on a block frame. *)
Definition inherited {A} (m : M Stack A) : M BlockFrame A :=
  fun b =>
    let '(s', r) := m (super b) in
    ({| super := s'; type := type b; breakTargetPc := breakTargetPc b |}, r).

(** The block frames do not define [size]; neither does [Stack]. *)
Definition size (b : BlockFrame) : prim := undefined.

(** ** The receivers of [eval] *)

Record lens (S A : Type) : Type := {
  view : S -> A;
  over : (A -> A) -> S -> S
}.
Arguments view {S A} _ _.
Arguments over {S A} _ _ _.

(** The members of a receiver that keeps its own stack of block frames under a
    numeric [pc]; in this program that is a call frame. *)
Record BlockStack (V : Type) : Type := {
  bs_pushFrame : BlockFrame -> M V unit;
  bs_popFrame : M V (option BlockFrame);
  bs_pc : V -> Z
}.
Arguments bs_pushFrame {V} _ _ _.
Arguments bs_popFrame {V} _ _.
Arguments bs_pc {V} _ _.

(** What the instructions ask of the object they are evaluated on.  The
    operand-stack methods are defined by every receiver; an optional member is
    [None] on a receiver whose class does not define it. *)
Class Runtime (V : Type) : Type := {
  vm_push : Value -> M V unit;
  vm_pop : M V Value;
  vm_peek : M V Value;
  vm_popI32 : M V Value;
  vm_blocks : option (BlockStack V);
  vm_findMatchingEndPc : option (M V Z);
  vm_findMatchingElsePc : option (M V Z);
  vm_breakToLabel : option (Z -> M V unit);
  vm_callFunction : option (Z -> M V unit);
  vm_set_pc : Z -> V -> V;                       (* [vm.pc = ...] *)
  vm_locals : option (lens V (list Value));      (* [vm.locals] *)
  vm_globals : option (lens V (list Value))      (* [vm.globals] *)
}.

Section Eval.

Context {V : Type} `{Runtime V}.

(** [c.value] *)
Definition value_of (c : Value) : M V prim :=
  match c with
  | I32 v => ret v
  | VUndefined => throw (TypeError_property_of_undefined "value")
  end.

Definition binop (fn : prim -> prim -> prim) : M V unit :=
  c2 <- vm_popI32;;
  c1 <- vm_popI32;;
  v1 <- value_of c1;;
  v2 <- value_of c2;;
  vm_push (i32 (fn v1 v2)).

Definition relop (fn : prim -> prim -> bool) : M V unit :=
  binop (fun c1 c2 => if fn c1 c2 then Num (of_Z 1) else Num (of_Z 0)).

Definition assertLocalIndexInRange (locals : option (lens V (list Value)))
    (index : Z) : M V unit :=
  if index <? 0 then throw (Error ("Invalid local index: " ++ Z_to_string index)%string)
  else match locals with
       | None => throw (TypeError_property_of_undefined "length")
       | Some l =>
           s <- get;;
           if index >=? len (view l s)
           then throw (Error ("Invalid local index: " ++ Z_to_string index)%string)
           else ret tt
       end.

Definition assertGlobalIndexInRange (globals : option (lens V (list Value)))
    (index : Z) : M V unit :=
  if index <? 0 then throw (Error ("Invalid global index: " ++ Z_to_string index)%string)
  else match globals with
       | None => throw (TypeError_property_of_undefined "length")
       | Some l =>
           s <- get;;
           if index >=? len (view l s)
           then throw (Error ("Invalid global index: " ++ Z_to_string index)%string)
           else ret tt
       end.

(** [arr[index]] where [arr] is a property of the receiver. *)
Definition read_slot (arr : option (lens V (list Value))) (index : Z) : M V Value :=
  match arr with
  | None => throw (TypeError_property_of_undefined (Z_to_string index))
  | Some l =>
      s <- get;;
      match array_get (view l s) index with
      | Some v => ret v
      | None => ret VUndefined
      end
  end.

(** [arr[index] = value] *)
Definition write_slot (arr : option (lens V (list Value))) (index : Z)
    (value : Value) : M V unit :=
  match arr with
  | None => throw (TypeError_property_of_undefined (Z_to_string index))
  | Some l => modify (over l (fun xs => array_set xs index value))
  end.

(** An object is never [===] to a number: [condValue !== 0] on the result
    of [popI32]. *)
Definition object_strict_ne_number (c : Value) (n : number) : bool :=
  match c with
  | I32 _ => true
  | VUndefined => true
  end.

Definition blocks_member {A} (name : string) (f : BlockStack V -> M V A) : M V A :=
  match vm_blocks with
  | Some b => f b
  | None => throw (TypeError_not_a_function name)
  end.

(** The [evalFn] closure of each instruction, applied to the receiver. *)
Definition evalFn (i : Instruction) : M V unit :=
  match i with
  | nop => ret tt
  | i32_const imm => vm_push (i32 (Num imm))
  | drop => _ <- vm_pop;; ret tt
  | i32_add =>
      c2 <- vm_popI32;;
      c1 <- vm_popI32;;
      v1 <- value_of c1;;
      v2 <- value_of c2;;
      vm_push (i32 (Num (add (ToNumber v1) (ToNumber v2))))
  | i32_sub => binop (fun c1 c2 => Num (sub (ToNumber c1) (ToNumber c2)))
  | i32_mul => binop (fun c1 c2 => Num (mul (ToNumber c1) (ToNumber c2)))
  | i32_div_s => binop (fun c1 c2 => Num (trunc (div (ToNumber c1) (ToNumber c2))))
  | i32_eq => relop (fun c1 c2 => strict_eq c1 c2)
  | i32_ne => relop (fun c1 c2 => negb (strict_eq c1 c2))
  | i32_lt_s => relop (fun c1 c2 => Number.ltb (ToNumber c1) (ToNumber c2))
  | i32_gt_s => relop (fun c1 c2 => Number.ltb (ToNumber c2) (ToNumber c1))
  | i32_le_s => relop (fun c1 c2 => Number.leb (ToNumber c1) (ToNumber c2))
  | i32_ge_s => relop (fun c1 c2 => Number.leb (ToNumber c2) (ToNumber c1))
  | local_get index =>
      assertLocalIndexInRange vm_locals index;;;
      value <- read_slot vm_locals index;;
      vm_push value
  | local_set index =>
      assertLocalIndexInRange vm_locals index;;;
      value <- vm_pop;;
      write_slot vm_locals index value
  | local_tee index =>
      assertLocalIndexInRange vm_locals index;;;
      value <- vm_peek;;
      write_slot vm_locals index value
  | block =>
      breakTargetPc <- member "findMatchingEndPc" vm_findMatchingEndPc;;
      blocks_member "pushFrame" (fun b => bs_pushFrame b (new_BlockFrame [] breakTargetPc))
  | end_ => blocks_member "popFrame" (fun b => _ <- bs_popFrame b;; ret tt)
  | br labelidx =>
      match vm_breakToLabel with
      | Some breakToLabel => breakToLabel labelidx
      | None => throw (TypeError_not_a_function "breakToLabel")
      end
  | br_if labelidx =>
      condValue <- vm_popI32;;
      if object_strict_ne_number condValue (of_Z 0) then
        match vm_breakToLabel with
        | Some breakToLabel => breakToLabel labelidx
        | None => throw (TypeError_not_a_function "breakToLabel")
        end
      else ret tt
  | loop =>
      blocks_member "pushFrame"
        (fun b => s <- get;; bs_pushFrame b (new_BlockFrame [] (bs_pc b s - 1)))
  | if_ =>
      c <- vm_popI32;;
      condValue <- value_of c;;
      if negb (strict_eq condValue (Num (of_Z 0))) then
        breakTargetPc <- member "findMatchingEndPc" vm_findMatchingEndPc;;
        blocks_member "pushFrame" (fun b => bs_pushFrame b (new_BlockFrame [] breakTargetPc))
      else
        elsePc <- member "findMatchingElsePc" vm_findMatchingElsePc;;
        modify (vm_set_pc elsePc);;;
        breakTargetPc <- member "findMatchingEndPc" vm_findMatchingEndPc;;
        blocks_member "pushFrame" (fun b => bs_pushFrame b (new_BlockFrame [] breakTargetPc))
  | else_ =>
      blocks_member "popFrame"
        (fun b =>
           frame <- bs_popFrame b;;
           match frame with
           | Some f => modify (vm_set_pc (breakTargetPc f))
           | None => throw (TypeError_property_of_undefined "breakTargetPc")
           end)
  | call index =>
      match vm_callFunction with
      | Some callFunction => callFunction index
      | None => throw (TypeError_not_a_function "callFunction")
      end
  | global_get index =>
      assertLocalIndexInRange vm_globals index;;;
      value <- read_slot vm_globals index;;
      vm_push value
  | global_set index =>
      assertGlobalIndexInRange vm_globals index;;;
      value <- vm_pop;;
      write_slot vm_globals index value
  end.

End Eval.

(** [instruction.eval(vm)] where [instruction] was read from an array. *)
Definition eval {V} `{Runtime V} (instruction : option Instruction) : M V unit :=
  match instruction with
  | Some i => evalFn i
  | None => throw (TypeError_property_of_undefined "eval")
  end.

(** ** class VM (wasm-vm-01.js) *)

Module VM.

Record t : Type := {
  stack : Stack;
  instructions : list Instruction;
  pc : Z
}.

Definition new_VM (instructions : list Instruction) : t :=
  {| stack := {| items := [] |}; instructions := instructions; pc := 0 |}.

Definition on_stack {A} (m : M Stack A) : M t A :=
  fun vm =>
    let '(s', r) := m (stack vm) in
    ({| stack := s'; instructions := instructions vm; pc := pc vm |}, r).

Definition set_pc (p : Z) (vm : t) : t :=
  {| stack := stack vm; instructions := instructions vm; pc := p |}.

Definition push (value : Value) : M t unit := on_stack (StackM.push value).
Definition pop : M t Value := on_stack StackM.pop.
Definition peek : M t Value := on_stack StackM.peek.
Definition popI32 : M t Value := on_stack StackM.popI32.
Definition popType (T : Class) : M t Value := on_stack (StackM.popType T).

#[global] Instance runtime : Runtime t := {|
  vm_push := push;
  vm_pop := pop;
  vm_peek := peek;
  vm_popI32 := popI32;
  vm_blocks := None;
  vm_findMatchingEndPc := None;
  vm_findMatchingElsePc := None;
  vm_breakToLabel := None;
  vm_callFunction := None;
  vm_set_pc := set_pc;
  vm_locals := None;
  vm_globals := None
|}.

Definition step : M t unit :=
  vm <- get;;
  eval (array_get (instructions vm) (pc vm));;;
  modify (fun vm => set_pc (pc vm + 1) vm).

Fixpoint steps (count : nat) : M t unit :=
  match count with
  | O => ret tt
  | S n => step;;; steps n
  end.

End VM.

(** ** class VMLocals extends VM (wasm-vm-02/wasm-vm.js) *)

Module VMLocals.

Record t : Type := {
  vm : VM.t;                     (* the inherited fields *)
  locals : list Value
}.

Definition new_VMLocals (instructions : list Instruction) (locals : list Value) : t :=
  {| vm := VM.new_VM instructions; locals := locals |}.

(** An inherited [VM] method. *)
Definition inherited {A} (m : M VM.t A) : M t A :=
  fun this =>
    let '(vm', r) := m (vm this) in ({| vm := vm'; locals := locals this |}, r).

Definition set_pc (p : Z) (this : t) : t :=
  {| vm := VM.set_pc p (vm this); locals := locals this |}.

Definition over_locals (g : list Value -> list Value) (this : t) : t :=
  {| vm := vm this; locals := g (locals this) |}.

#[global] Instance runtime : Runtime t := {|
  vm_push := fun value => inherited (VM.push value);
  vm_pop := inherited VM.pop;
  vm_peek := inherited VM.peek;
  vm_popI32 := inherited VM.popI32;
  vm_blocks := None;
  vm_findMatchingEndPc := None;
  vm_findMatchingElsePc := None;
  vm_breakToLabel := None;
  vm_callFunction := None;
  vm_set_pc := set_pc;
  vm_locals := Some {| view := locals; over := over_locals |};
  vm_globals := None
|}.

(** The inherited [step], run on a [VMLocals] object. *)
Definition step : M t unit :=
  this <- get;;
  eval (array_get (VM.instructions (vm this)) (VM.pc (vm this)));;;
  modify (fun this => set_pc (VM.pc (vm this) + 1) this).

Fixpoint steps (count : nat) : M t unit :=
  match count with
  | O => ret tt
  | S n => step;;; steps n
  end.

End VMLocals.

(** ** class CallFrame (wasm-vm-02/wasm-vm.js) *)

Module CallFrame.

Record t : Type := {
  blocks : list BlockFrame;
  instructions : list Instruction;
  locals : list Value;
  pc : Z
}.

Definition set_blocks (bs : list BlockFrame) (f : t) : t :=
  {| blocks := bs; instructions := instructions f; locals := locals f; pc := pc f |}.

Definition set_pc (p : Z) (f : t) : t :=
  {| blocks := blocks f; instructions := instructions f; locals := locals f; pc := p |}.

Definition over_locals (g : list Value -> list Value) (f : t) : t :=
  {| blocks := blocks f; instructions := instructions f; locals := g (locals f);
     pc := pc f |}.

Definition pushFrame (frame : BlockFrame) : M t unit :=
  modify (fun f => set_blocks (blocks f ++ [frame]) f).

Definition new_CallFrame (instructions : list Instruction) (locals : list Value)
    (rootBlockType : list (list Class)) : t :=
  {| blocks := [new_BlockFrame rootBlockType (len instructions - 1)];
     instructions := instructions;
     locals := locals;
     pc := 0 |}.

Definition currentBlock (f : t) : option BlockFrame := array_at_last (blocks f).

Definition popFrame : M t (option BlockFrame) :=
  fun f =>
    let '(last, init) := array_pop (blocks f) in
    (set_blocks init f, Return last).

(** The scanning loop shared by [findMatchingEndPc] and
    [findMatchingElsePc]: [closes] and [opens] tell which names decrement and
    increment [remainingBlocks].  Every iteration reads one more instruction,
    so the loop body runs at most once per instruction and once more for the
    read that fails. *)
Fixpoint scan (closes opens : string -> bool) (instructions : list Instruction)
    (fuel : nat) (remainingBlocks pc : Z) : outcome Z :=
  match fuel with
  | O => OutOfFuel
  | S fuel' =>
      if remainingBlocks >? 0 then
        let pc := pc + 1 in
        match array_get instructions pc with
        | None => Throw (TypeError_property_of_undefined "name")
        | Some i =>
            if closes (name i) then
              scan closes opens instructions fuel' (remainingBlocks - 1) pc
            else if opens (name i) then
              scan closes opens instructions fuel' (remainingBlocks + 1) pc
            else
              scan closes opens instructions fuel' remainingBlocks pc
        end
      else Return pc
  end.

Definition scan_fuel (instructions : list Instruction) : nat :=
  S (S (List.length instructions)).

Definition findMatchingEndPc : M t Z :=
  fun f =>
    (f, scan (fun n => String.eqb n "end")
             (fun n => String.eqb n "block" || String.eqb n "loop" || String.eqb n "if")
             (instructions f) (scan_fuel (instructions f)) 1 (pc f)).

Definition findMatchingElsePc : M t Z :=
  fun f =>
    (f, scan (fun n => String.eqb n "else")
             (fun n => String.eqb n "if")
             (instructions f) (scan_fuel (instructions f)) 1 (pc f)).

(** The [while (blocksToPop > 0)] loop of [breakToLabel]; [blocksToPop] is
    an integer, so the body runs [Z.to_nat blocksToPop] times. *)
Fixpoint pop_more (blocksToPop : nat) (blockFrame : option BlockFrame)
    : M t (option BlockFrame) :=
  match blocksToPop with
  | O => ret blockFrame
  | S n => blockFrame <- popFrame;; pop_more n blockFrame
  end.

Definition breakToLabel (labelidx : Z) : M t unit :=
  blockFrame <- popFrame;;
  blockFrame <- pop_more (Z.to_nat labelidx) blockFrame;;
  match blockFrame with
  | Some b => modify (set_pc (breakTargetPc b))
  | None => throw (TypeError_property_of_undefined "breakTargetPc")
  end.

Definition on_currentBlock {A} (prop : string) (m : M Stack A) : M t A :=
  on_last blocks set_blocks prop (inherited m).

Definition push (value : Value) : M t unit :=
  on_currentBlock "push" (StackM.push value).
Definition pop : M t Value := on_currentBlock "pop" StackM.pop.
Definition peek : M t Value := on_currentBlock "peek" StackM.peek.
Definition popI32 : M t Value := on_currentBlock "popI32" StackM.popI32.
Definition popType (T : Class) : M t Value :=
  on_currentBlock "popType" (StackM.popType T).

#[global] Instance runtime : Runtime t := {|
  vm_push := push;
  vm_pop := pop;
  vm_peek := peek;
  vm_popI32 := popI32;
  vm_blocks := Some {| bs_pushFrame := pushFrame; bs_popFrame := popFrame; bs_pc := pc |};
  vm_findMatchingEndPc := Some findMatchingEndPc;
  vm_findMatchingElsePc := Some findMatchingElsePc;
  vm_breakToLabel := Some breakToLabel;
  vm_callFunction := None;
  vm_set_pc := set_pc;
  vm_locals := Some {| view := locals; over := over_locals |};
  vm_globals := None
|}.

Definition step : M t unit :=
  f <- get;;
  eval (array_get (instructions f) (pc f));;;
  modify (fun f => set_pc (pc f + 1) f).

Definition finished (f : t) : bool := pc f =? len (instructions f).

(** [run], with a bound on the number of iterations of its loop. *)
Fixpoint run (fuel : nat) : M t unit :=
  match fuel with
  | O => fun f => (f, OutOfFuel)
  | S n => f <- get;; if negb (finished f) then step;;; run n else ret tt
  end.

(** [n] calls of [step] in a row, stopping at the first that throws. *)
Fixpoint steps (n : nat) : M t unit :=
  match n with
  | O => ret tt
  | S n' => step;;; steps n'
  end.

End CallFrame.

(** ** class Func *)

Record Func : Type := {
  instructions : list Instruction;
  locals : list Class;
  args : list Class;
  returns : list Class
}.

Definition new_Func (args returns locals : list Class)
    (instructions : list Instruction) : Func :=
  {| instructions := instructions; locals := locals; args := args; returns := returns |}.

(** ** class Instance *)

Module Instance.

Record t : Type := {
  callStack : list CallFrame.t;
  functions : list Func;
  globals : list Value;
  pc : option Z
    (* not set by the constructor: the property exists once an [if]
       evaluated on the instance has assigned [vm.pc] *)
}.

Definition new_Instance : t :=
  {| callStack := []; functions := []; globals := []; pc := None |}.

Definition set_callStack (cs : list CallFrame.t) (i : t) : t :=
  {| callStack := cs; functions := functions i; globals := globals i; pc := pc i |}.

Definition set_pc (p : Z) (i : t) : t :=
  {| callStack := callStack i; functions := functions i; globals := globals i;
     pc := Some p |}.

Definition over_globals (g : list Value -> list Value) (i : t) : t :=
  {| callStack := callStack i; functions := functions i; globals := g (globals i);
     pc := pc i |}.

Definition currentFrame (i : t) : option CallFrame.t := array_at_last (callStack i).

Definition addFunction (func : Func) : M t Z :=
  fun i =>
    ({| callStack := callStack i; functions := functions i ++ [func];
        globals := globals i; pc := pc i |},
     Return (len (functions i))).

(** A method call on [this.currentFrame]. *)
Definition on_currentFrame {A} (prop : string) (m : M CallFrame.t A) : M t A :=
  on_last callStack set_callStack prop m.

(** The [for] loop of [callFunction]: [callingFrame] is the frame on top of
    the call stack, [calledFrame] is not on the call stack yet. *)
Fixpoint pass_arguments (n : nat) (calledFrame : CallFrame.t) : M t CallFrame.t :=
  match n with
  | O => ret calledFrame
  | S n' =>
      value <- on_currentFrame "pop" CallFrame.pop;;
      match CallFrame.push value calledFrame with
      | (calledFrame', Return _) => pass_arguments n' calledFrame'
      | (_, Throw e) => throw e
      | (_, OutOfFuel) => fun i => (i, OutOfFuel)
      end
  end.

Definition callFunction (index : Z) : M t unit :=
  i <- get;;
  match array_get (functions i) index with
  | None => throw (TypeError_property_of_undefined "instructions")
  | Some fn =>
      let calledFrame :=
        CallFrame.new_CallFrame (instructions fn) (map new (locals fn))
                                [args fn; returns fn] in
      calledFrame <- pass_arguments (List.length (args fn)) calledFrame;;
      modify (fun i => set_callStack (callStack i ++ [calledFrame]) i)
  end.

(** The [while (frame.currentBlock.size > 0)] loop of [step]; [frame] has
    been popped from the call stack.  Nothing in the loop changes what its
    test reads, so the number of iterations is bounded by [fuel]. *)
Fixpoint transfer (fuel : nat) (frame : CallFrame.t) : M t unit :=
  match fuel with
  | O => fun i => (i, OutOfFuel)
  | S fuel' =>
      match CallFrame.currentBlock frame with
      | None => throw (TypeError_property_of_undefined "size")
      | Some b =>
          if js_gt (size b) (Num (of_Z 0)) then
            match CallFrame.pop frame with
            | (frame', Return value) =>
                on_currentFrame "push" (CallFrame.push value);;;
                transfer fuel' frame'
            | (_, Throw e) => throw e
            | (_, OutOfFuel) => fun i => (i, OutOfFuel)
            end
          else ret tt
      end
  end.

Definition push (value : Value) : M t unit :=
  on_currentFrame "push" (CallFrame.push value).
Definition pop : M t Value := on_currentFrame "pop" CallFrame.pop.
Definition peek : M t Value := on_currentFrame "peek" CallFrame.peek.
Definition popI32 : M t Value := on_currentFrame "popI32" CallFrame.popI32.
Definition popType (T : Class) : M t Value :=
  on_currentFrame "popType" (CallFrame.popType T).
Definition findMatchingEndPc : M t Z :=
  on_currentFrame "findMatchingEndPc" CallFrame.findMatchingEndPc.
Definition findMatchingElsePc : M t Z :=
  on_currentFrame "findMatchingElsePc" CallFrame.findMatchingElsePc.
Definition breakToLabel (labelidx : Z) : M t unit :=
  on_currentFrame "breakToLabel" (CallFrame.breakToLabel labelidx).

#[global] Instance runtime : Runtime t := {|
  vm_push := push;
  vm_pop := pop;
  vm_peek := peek;
  vm_popI32 := popI32;
  vm_blocks := None;
  vm_findMatchingEndPc := Some findMatchingEndPc;
  vm_findMatchingElsePc := Some findMatchingElsePc;
  vm_breakToLabel := Some breakToLabel;
  vm_callFunction := Some callFunction;
  vm_set_pc := set_pc;
  vm_locals := None;
  vm_globals := Some {| view := globals; over := over_globals |}
|}.

(** [currentFrame.pc += 1] on the frame object that was on top of the call
    stack before [eval]: [eval] only ever appends to the call stack, so the
    object is still the one at its old index [k]. *)
Fixpoint advance (k : nat) (cs : list CallFrame.t) : list CallFrame.t :=
  match cs, k with
  | [], _ => []
  | f :: rest, O => CallFrame.set_pc (CallFrame.pc f + 1) f :: rest
  | f :: rest, S k' => f :: advance k' rest
  end.

(** [this.callStack.pop()] *)
Definition callStack_pop : M t (option CallFrame.t) :=
  fun i =>
    let '(last, init) := array_pop (callStack i) in
    (set_callStack init i, Return last).

Definition step (fuel : nat) : M t unit :=
  i <- get;;
  match currentFrame i with
  | None => throw (TypeError_property_of_undefined "instructions")
  | Some currentFrame0 =>
      let k := Nat.pred (List.length (callStack i)) in
      eval (array_get (CallFrame.instructions currentFrame0)
                      (CallFrame.pc currentFrame0));;;
      modify (fun i => set_callStack (advance k (callStack i)) i);;;
      i <- get;;
      match currentFrame i with
      | None => throw (TypeError_property_of_undefined "finished")
      | Some newCurrentFrame =>
          if CallFrame.finished newCurrentFrame then
            frame <- callStack_pop;;
            i <- get;;
            if len (callStack i) >? 0 then
              match frame with
              | Some frame => transfer fuel frame
              | None => throw (TypeError_property_of_undefined "currentBlock")
              end
            else ret tt
          else ret tt
      end
  end.

(** [n] calls of [step] in a row, stopping at the first that does not
    return. *)
Fixpoint steps (fuel : nat) (n : nat) : M t unit :=
  match n with
  | O => ret tt
  | S n' => step fuel;;; steps fuel n'
  end.

End Instance.

(** ** Reading states the way the tests of the program do *)

(** [xs.map(f)] for an [f] that may throw: [None] when some call throws. *)
Fixpoint map_or_throw {A B} (f : A -> option B) (xs : list A) : option (list B) :=
  match xs with
  | [] => Some []
  | x :: rest =>
      match f x, map_or_throw f rest with
      | Some y, Some ys => Some (y :: ys)
      | _, _ => None
      end
  end.

(** [v.value], which throws on [undefined]. *)
Definition value_field (v : Value) : option prim :=
  match v with
  | I32 value => Some value
  | VUndefined => None
  end.

Definition callFrameToData (callFrame : CallFrame.t) : option (list (list prim)) :=
  map_or_throw (fun block => map_or_throw value_field (items (super block)))
               (CallFrame.blocks callFrame).

Definition instanceToData (instance : Instance.t) : option (list (list (list prim))) :=
  map_or_throw callFrameToData (Instance.callStack instance).

Definition int (z : Z) : prim := Num (of_Z z).

(** The signed 32-bit integer congruent to [z] modulo 2^32: what wrap-around
    arithmetic on 32 bits would produce for the mathematical result [z]. *)
Definition wrap32 (z : Z) : Z := (z + 2 ^ 31) mod 2 ^ 32 - 2 ^ 31.

Definition is_int32 (z : Z) : Prop := - 2 ^ 31 <= z < 2 ^ 31.

(** ** Vocabulary of the statements *)

(** The same VM with other contents of its operand stack. *)
Definition VM_with_items (vm : VM.t) (xs : list Value) : VM.t :=
  {| VM.stack := {| items := xs |};
     VM.instructions := VM.instructions vm;
     VM.pc := VM.pc vm |}.

(** The operators the source passes to [binop], and the sum [i32.add] computes
    in its own closure. *)
Definition js_add (c1 c2 : prim) : prim := Num (add (ToNumber c1) (ToNumber c2)).
Definition js_sub (c1 c2 : prim) : prim := Num (sub (ToNumber c1) (ToNumber c2)).
Definition js_mul (c1 c2 : prim) : prim := Num (mul (ToNumber c1) (ToNumber c2)).
Definition js_div_trunc (c1 c2 : prim) : prim :=
  Num (trunc (div (ToNumber c1) (ToNumber c2))).
Definition js_bool (b : bool) : prim := if b then Num (of_Z 1) else Num (of_Z 0).

(** [checkBinop] of wasm-vm-01.js: the assertion it makes. *)
Definition checkBinop (c1 c2 : Z) (instruction : Instruction) (expected : Z) : Prop :=
  items (VM.stack
           (fst (VM.steps 3 (VM.new_VM [i32_const (of_Z c1); i32_const (of_Z c2);
                                        instruction]))))
  = [i32 (int expected)].

(** The program of the tests on [if]. *)
Definition if_else_program (condition : Z) : list Instruction :=
  [ i32_const (of_Z condition); if_; i32_const (of_Z 10); drop; else_;
    i32_const (of_Z 20); drop; end_ ].

(** What [Math.trunc(c1 / c2)] is when [c2] is a zero of sign [s]. *)
Definition quotient_by_zero (c1 : number) (s : bool) : number :=
  match c1 with
  | S754_nan | S754_zero _ => NaN
  | S754_infinity sx | S754_finite sx _ _ => S754_infinity (xorb sx s)
  end.

(** The same block frame with other contents of its operand stack. *)
Definition BlockFrame_with_items (b : BlockFrame) (xs : list Value) : BlockFrame :=
  {| super := {| items := xs |}; type := type b; breakTargetPc := breakTargetPc b |}.

(** The program of the test 'br_if works', with the condition [0]. *)
Definition br_if_zero_program : list Instruction :=
  [ i32_const (of_Z 5); block; i32_const (of_Z 0); br_if 0;
    i32_const (of_Z 10); drop; end_; i32_const (of_Z 20); drop; drop ].

(** The functions of the test 'call fn returns instruction'. *)
Definition fn1 : Func :=
  new_Func [] [] [] [i32_const (of_Z 10); call 1].
Definition fn2 : Func :=
  new_Func [I32_class] [I32_class] [] [i32_const (of_Z 5); i32_add].

Definition instance_with (fns : list Func) (gs : list Value) : Instance.t :=
  {| Instance.callStack := []; Instance.functions := fns;
     Instance.globals := gs; Instance.pc := None |}.

(** The binary instructions with the operator each applies to its operands:
    the arrow function handed to [binop] or [relop], and for [i32.add] the
    sum written in its closure. *)
Definition binary_operations : list (Instruction * (prim -> prim -> prim)) :=
  [ (i32_add, js_add);
    (i32_sub, js_sub);
    (i32_mul, js_mul);
    (i32_div_s, js_div_trunc);
    (i32_eq, fun c1 c2 => js_bool (strict_eq c1 c2));
    (i32_ne, fun c1 c2 => js_bool (negb (strict_eq c1 c2)));
    (i32_lt_s, fun c1 c2 => js_bool (Number.ltb (ToNumber c1) (ToNumber c2)));
    (i32_gt_s, fun c1 c2 => js_bool (Number.ltb (ToNumber c2) (ToNumber c1)));
    (i32_le_s, fun c1 c2 => js_bool (Number.leb (ToNumber c1) (ToNumber c2)));
    (i32_ge_s, fun c1 c2 => js_bool (Number.leb (ToNumber c2) (ToNumber c1))) ].

(** ** Binary64 representations of integers *)

(** The number of binary digits of a mantissa, the mantissa shifted left, and
    the normal float of sign [s] and magnitude [v] for [v] below 2^53. *)
Definition digits (m : positive) : Z := Zpos (digits2_pos m).
Definition shl (m : positive) (k : Z) : positive :=
  match k with Zpos p => Pos.iter xO m p | _ => m end.
Definition canonical (s : bool) (v : positive) : number :=
  S754_finite s (shl v (prec - digits v)) (digits v - prec).

(** [v] is an [I32] object whose number is the integer [z]. *)
Definition holds_integer (v : Value) (z : Z) : Prop :=
  exists r, v = I32 (Num r) /\ to_Z r = Some z.

(** ** [run] and the bare stack (wasm-vm-01.js) *)

(** A [Stack] as the receiver of [eval], as in the first tests of
    wasm-vm-01.js.  It has the operand-stack methods and none of the optional
    members.  No instruction gets as far as assigning [pc] on a stack: [if]
    and [else] fail before, on the missing [findMatchingEndPc],
    [findMatchingElsePc] and [popFrame]. *)
Definition Stack_runtime : Runtime Stack := {|
  vm_push := StackM.push;
  vm_pop := StackM.pop;
  vm_peek := StackM.peek;
  vm_popI32 := StackM.popI32;
  vm_blocks := None;
  vm_findMatchingEndPc := None;
  vm_findMatchingElsePc := None;
  vm_breakToLabel := None;
  vm_callFunction := None;
  vm_set_pc := fun _ s => s;
  vm_locals := None;
  vm_globals := None
|}.

(** [run(vm, instructions)]: every instruction in turn is evaluated on [vm],
    up to the first that throws. *)
Fixpoint run {V} `{Runtime V} (instructions : list Instruction) : M V unit :=
  match instructions with
  | [] => ret tt
  | instr :: rest => evalFn instr;;; run rest
  end.

(** ** Vocabulary of the further properties *)

(** Kinds of instructions.  The straight-line ones work on the operand stack
    and the locals only; the stack-only ones are those of wasm-vm-01.js; the
    structural ones open, split or close a block; the last kind calls a
    member that call frames have and instances lack. *)
Definition straight_line (i : Instruction) : bool :=
  match i with
  | nop | i32_const _ | drop
  | i32_add | i32_sub | i32_mul | i32_div_s
  | i32_eq | i32_ne | i32_lt_s | i32_gt_s | i32_le_s | i32_ge_s
  | local_get _ | local_set _ | local_tee _ => true
  | _ => false
  end.

Definition stack_only (i : Instruction) : bool :=
  match i with
  | nop | i32_const _ | drop
  | i32_add | i32_sub | i32_mul | i32_div_s
  | i32_eq | i32_ne | i32_lt_s | i32_gt_s | i32_le_s | i32_ge_s => true
  | _ => false
  end.

Definition structural (i : Instruction) : bool :=
  match i with
  | block | loop | if_ | else_ | end_ => true
  | _ => false
  end.

Definition needs_frame_members (i : Instruction) : bool :=
  match i with
  | block | loop | if_ | else_ | end_
  | local_get _ | local_set _ | local_tee _ => true
  | _ => false
  end.

(** A method keeps [P]: the state it leaves satisfies [P] if the state it
    started from did, whether it returns or throws. *)
Definition preserves {S A} (P : S -> Prop) (m : M S A) : Prop :=
  forall s, P s -> P (fst (m s)).

(** A method whose loops all come to an end. *)
Definition terminates {S A} (m : M S A) : Prop := forall s, snd (m s) <> OutOfFuel.

Definition always_throws {S A} (m : M S A) : Prop :=
  forall s, exists e, snd (m s) = Throw e.

(** The frame runs [prog] at [p], and its current block is one pushed on top
    of the block frames [bs], with break target [tgt]. *)
Definition inside (bs : list BlockFrame) (tgt : Z) (prog : list Instruction) (p : Z)
    (g : CallFrame.t) : Prop :=
  CallFrame.instructions g = prog /\ CallFrame.pc g = p
  /\ exists top, CallFrame.blocks g = bs ++ [top] /\ breakTargetPc top = tgt.

(** What execution does not touch: the program of a frame and the number of
    its locals; the functions of an instance and the number of its globals. *)
Definition same_program (prog : list Instruction) (n : Z) (g : CallFrame.t) : Prop :=
  CallFrame.instructions g = prog /\ len (CallFrame.locals g) = n.

Definition same_functions (fns : list Func) (n : Z) (i : Instance.t) : Prop :=
  Instance.functions i = fns /\ len (Instance.globals i) = n.

(** The method [onInstance] of an instance does what [onFrame] does to the
    frame on top of the call stack, above the frames [frames]. *)
Definition on_top_frame {A} (frames : list CallFrame.t)
    (onInstance : M Instance.t A) (onFrame : M CallFrame.t A) : Prop :=
  forall inst f,
    Instance.callStack inst = frames ++ [f] ->
    onInstance inst
    = let '(f', r) := onFrame f in (Instance.set_callStack (frames ++ [f']) inst, r).

(** The method [onVM] of a VM does what [onStack] does to its stack. *)
Definition on_VM_stack {A} (onVM : M VM.t A) (onStack : M Stack A) : Prop :=
  forall vm, onVM vm = VM.on_stack onStack vm.

(** * Properties *)

(** ** The tests of the two source files, run on the embedding *)

Example test_VM_executes_two_const_and_an_add :
  map (fun n => items (VM.stack (fst (VM.steps n
         (VM.new_VM [i32_const (of_Z 42); i32_const (of_Z 23); i32_add])))))
      [1; 2; 3]%nat
  = [ [i32 (int 42)]; [i32 (int 42); i32 (int 23)]; [i32 (int (42 + 23))] ].
Proof. reflexivity. Qed.

Example test_binops :
  checkBinop 42 23 i32_sub (42 - 23)
  /\ checkBinop 42 23 i32_mul (42 * 23)
  /\ checkBinop 42 23 i32_div_s 1
  /\ checkBinop 42 23 i32_eq 0 /\ checkBinop 23 23 i32_eq 1
  /\ checkBinop 42 23 i32_ne 1 /\ checkBinop 23 23 i32_ne 0
  /\ checkBinop 24 23 i32_lt_s 0 /\ checkBinop 23 23 i32_lt_s 0
  /\ checkBinop 23 24 i32_lt_s 1
  /\ checkBinop 24 23 i32_gt_s 1 /\ checkBinop 23 23 i32_gt_s 0
  /\ checkBinop 23 24 i32_gt_s 0
  /\ checkBinop 24 23 i32_le_s 0 /\ checkBinop 23 23 i32_le_s 1
  /\ checkBinop 23 24 i32_le_s 1
  /\ checkBinop 24 23 i32_ge_s 1 /\ checkBinop 23 23 i32_ge_s 1
  /\ checkBinop 23 24 i32_ge_s 0.
Proof. repeat split. Qed.

Example test_complex_expression :
  map (fun n => items (VM.stack (fst (VM.steps n
         (VM.new_VM [ i32_const (of_Z 3); i32_const (of_Z 2); i32_mul;
                      i32_const (of_Z 4); i32_add; i32_const (of_Z 10); i32_eq ])))))
      [3; 5; 7]%nat
  = [ [i32 (int 6)]; [i32 (int 10)]; [i32 (int 1)] ].
Proof. reflexivity. Qed.

Example test_local_get_set_tee :
  VMLocals.steps 1 (VMLocals.new_VMLocals [local_get 0] [i32 (int 100)])
  = ({| VMLocals.vm := {| VM.stack := {| items := [i32 (int 100)] |};
                          VM.instructions := [local_get 0]; VM.pc := 1 |};
        VMLocals.locals := [i32 (int 100)] |}, Return tt)
  /\ VMLocals.steps 2 (VMLocals.new_VMLocals [i32_const (of_Z 42); local_set 0] [i32 (int 0)])
     = ({| VMLocals.vm := {| VM.stack := {| items := [] |};
                             VM.instructions := [i32_const (of_Z 42); local_set 0];
                             VM.pc := 2 |};
           VMLocals.locals := [i32 (int 42)] |}, Return tt)
  /\ VMLocals.steps 2 (VMLocals.new_VMLocals [i32_const (of_Z 42); local_tee 0] [i32 (int 0)])
     = ({| VMLocals.vm := {| VM.stack := {| items := [i32 (int 42)] |};
                             VM.instructions := [i32_const (of_Z 42); local_tee 0];
                             VM.pc := 2 |};
           VMLocals.locals := [i32 (int 42)] |}, Return tt).
Proof. repeat split. Qed.

Example test_block_stacks :
  map (fun n => callFrameToData (fst (CallFrame.steps n
         (CallFrame.new_CallFrame
            [ i32_const (of_Z 5); block; i32_const (of_Z 10); drop; end_;
              i32_const (of_Z 20); drop; drop ] [] []))))
      [1; 2; 3; 4; 5; 6; 7; 8]%nat
  = [ Some [[int 5]]; Some [[int 5]; []]; Some [[int 5]; [int 10]];
      Some [[int 5]; []]; Some [[int 5]]; Some [[int 5; int 20]];
      Some [[int 5]]; Some [[]] ].
Proof. reflexivity. Qed.

Example test_br :
  map (fun n => callFrameToData (fst (CallFrame.steps n
         (CallFrame.new_CallFrame
            [ i32_const (of_Z 5); block; br 0; i32_const (of_Z 10); drop; end_;
              i32_const (of_Z 20); drop; drop ] [] []))))
      [1; 2; 3; 4; 5; 6]%nat
  = [ Some [[int 5]]; Some [[int 5]; []]; Some [[int 5]]; Some [[int 5; int 20]];
      Some [[int 5]]; Some [[]] ].
Proof. reflexivity. Qed.

Example test_br_if :
  map (fun n => callFrameToData (fst (CallFrame.steps n
         (CallFrame.new_CallFrame
            [ i32_const (of_Z 5); block; i32_const (of_Z 1); br_if 0;
              i32_const (of_Z 10); drop; end_; i32_const (of_Z 20); drop; drop ]
            [] []))))
      [1; 2; 3; 4; 5; 6; 7]%nat
  = [ Some [[int 5]]; Some [[int 5]; []]; Some [[int 5]; [int 1]]; Some [[int 5]];
      Some [[int 5; int 20]]; Some [[int 5]]; Some [[]] ].
Proof. reflexivity. Qed.

Example test_loop_breaks_to_the_top :
  map (fun n => CallFrame.pc (fst (CallFrame.steps n
         (CallFrame.new_CallFrame [nop; loop; br 0; end_] [] []))))
      [2; 3]%nat
  = [2; 1].
Proof. reflexivity. Qed.

Example test_if_else :
  (let f := fst (CallFrame.steps 2 (CallFrame.new_CallFrame (if_else_program 0) [] [])) in
   CallFrame.pc f = 5 /\ callFrameToData f = Some [[]; []])
  /\ (let f := fst (CallFrame.steps 2 (CallFrame.new_CallFrame (if_else_program 1) [] [])) in
      CallFrame.pc f = 2 /\ callFrameToData f = Some [[]; []])
  /\ (let f := fst (CallFrame.steps 5 (CallFrame.new_CallFrame (if_else_program 1) [] [])) in
      CallFrame.pc f = 8 /\ callFrameToData f = Some [[]]).
Proof. cbv zeta. repeat split. Qed.

Example test_single_function_instance :
  map (fun n => instanceToData (fst
         (bind (Instance.callFunction 0) (fun _ => Instance.steps 1 n)
               (instance_with [new_Func [] [] [] [nop]] []))))
      [0; 1]%nat
  = [ Some [[[]]]; Some [] ].
Proof. reflexivity. Qed.

Example test_call_instruction :
  map (fun n => instanceToData (fst
         (bind (Instance.callFunction 0) (fun _ => Instance.steps 1 n)
               (instance_with [ new_Func [] [] [] [call 1];
                                new_Func [] [] [] [nop] ] []))))
      [0; 1; 2]%nat
  = [ Some [[[]]]; Some [[[]]; [[]]]; Some [[[]]] ].
Proof. reflexivity. Qed.

Example test_global_get_set :
  Instance.peek (fst
    (bind (Instance.callFunction 0) (fun _ => Instance.steps 1 1)
          (instance_with [new_Func [] [] [] [global_get 0; nop]] [i32 (int 100)])))
  = (fst (bind (Instance.callFunction 0) (fun _ => Instance.steps 1 1)
            (instance_with [new_Func [] [] [] [global_get 0; nop]] [i32 (int 100)])),
     Return (i32 (int 100)))
  /\ Instance.globals (fst
       (bind (Instance.callFunction 0) (fun _ => Instance.steps 1 2)
             (instance_with [new_Func [] [] [] [i32_const (of_Z 42); global_set 0]]
                            [i32 (int 0)])))
     = [i32 (int 42)].
Proof. split; reflexivity. Qed.

(** ** Arrays and the operand stack *)

Lemma array_pop_snoc {A} (xs : list A) (x : A) :
  array_pop (xs ++ [x]) = (Some x, xs).
Proof.
  induction xs as [|y ys IH]; [reflexivity|].
  change ((y :: ys) ++ [x]) with (y :: (ys ++ [x])).
  cbn [array_pop]. rewrite IH.
  destruct (ys ++ [x]) eqn:E; [destruct ys; discriminate|reflexivity].
Qed.

Lemma array_pop_None {A} (xs : list A) :
  fst (array_pop xs) = None -> xs = [].
Proof.
  destruct xs as [|x xs] using rev_ind; [reflexivity|].
  rewrite array_pop_snoc. discriminate.
Qed.

Lemma Stack_push_spec (xs : list Value) (v : Value) :
  StackM.push v {| items := xs |} = ({| items := xs ++ [v] |}, Return tt).
Proof. reflexivity. Qed.

Lemma Stack_pop_snoc (xs : list Value) (v : Value) :
  StackM.pop {| items := xs ++ [v] |} = ({| items := xs |}, Return v).
Proof. unfold StackM.pop; cbn [items]. now rewrite array_pop_snoc. Qed.

Lemma Stack_peek_snoc (xs : list Value) (v : Value) :
  StackM.peek {| items := xs ++ [v] |} = ({| items := xs ++ [v] |}, Return v).
Proof. unfold StackM.peek, array_at_last; cbn [items]. now rewrite array_pop_snoc. Qed.

Lemma Stack_popI32_snoc (xs : list Value) (c : prim) :
  StackM.popI32 {| items := xs ++ [I32 c] |} = ({| items := xs |}, Return (I32 c)).
Proof.
  unfold StackM.popI32, StackM.popType, StackM.assertTopIsOfType, StackM.topIsOfType, bind.
  rewrite Stack_peek_snoc. cbn. now rewrite Stack_pop_snoc.
Qed.

(** A typed pop of an empty stack does fail: the type assertion sees
    [undefined] on top. *)
Lemma Stack_popI32_empty :
  StackM.popI32 {| items := [] |}
  = ({| items := [] |}, Throw (Error "Expected I32 on top of stack, got undefined")).
Proof. reflexivity. Qed.

(** ** C4: pop and peek on an empty stack *)

(** C4, as stated, fails: on the empty stack [pop()] and [peek()] return
    normally, with [undefined], and so do not throw anything. *)
Lemma C4_pop_peek_empty_do_not_fail :
  snd (StackM.pop {| items := [] |}) = Return VUndefined
  /\ snd (StackM.peek {| items := [] |}) = Return VUndefined
  /\ ~ (exists e, snd (StackM.pop {| items := [] |}) = Throw e)
  /\ ~ (exists e, snd (StackM.peek {| items := [] |}) = Throw e).
Proof.
  repeat split; try reflexivity; intros [e He]; discriminate He.
Qed.

(** C4, amended: for every operand stack that is empty, [pop()] and [peek()]
    do not fail; each returns [undefined] and leaves the stack empty. *)
Theorem C4_pop_peek_empty_return_undefined (s : Stack) :
  items s = [] ->
  StackM.pop s = ({| items := [] |}, Return VUndefined)
  /\ StackM.peek s = (s, Return VUndefined).
Proof.
  intros E. destruct s as [xs]. cbn in E. subst xs. split; reflexivity.
Qed.

Lemma C4_pop_peek_empty_witness :
  StackM.pop {| items := [] |} = ({| items := [] |}, Return VUndefined)
  /\ StackM.peek {| items := [] |} = ({| items := [] |}, Return VUndefined).
Proof.
  apply (C4_pop_peek_empty_return_undefined {| items := [] |}). reflexivity.
Defined.

(** ** Binary operations on the VM of wasm-vm-01.js *)

Lemma VM_popI32_snoc (vm : VM.t) (xs : list Value) (c : prim) :
  items (VM.stack vm) = xs ++ [I32 c] ->
  VM.popI32 vm = (VM_with_items vm xs, Return (I32 c)).
Proof.
  intros E. destruct vm as [[its] prog k]. cbn in E. subst its.
  unfold VM.popI32, VM.on_stack. cbn [VM.stack].
  now rewrite Stack_popI32_snoc.
Qed.

Lemma VM_binop_spec (fn : prim -> prim -> prim) (vm : VM.t)
    (rest : list Value) (c1 c2 : prim) :
  items (VM.stack vm) = rest ++ [I32 c1; I32 c2] ->
  binop fn vm = (VM_with_items vm (rest ++ [I32 (fn c1 c2)]), Return tt).
Proof.
  intros E. unfold binop, bind. cbn [vm_popI32 vm_push VM.runtime].
  rewrite (VM_popI32_snoc vm (rest ++ [I32 c1]) c2)
    by (rewrite E, <- app_assoc; reflexivity).
  rewrite (VM_popI32_snoc _ rest c1) by reflexivity.
  reflexivity.
Qed.

Lemma binary_operations_eval (i : Instruction) (fn : prim -> prim -> prim) :
  In (i, fn) binary_operations ->
  forall (V : Type) (R : Runtime V), @evalFn V R i = @binop V R fn.
Proof.
  unfold binary_operations. cbn [In].
  intros Hin V R.
  repeat (destruct Hin as [Hin|Hin];
          [injection Hin as <- <-; reflexivity|]).
  contradiction.
Qed.

(** ** C10: operand order of the binary operations *)

(** C10: for each binary instruction, with [c1] second from the top and [c2]
    on top of the operand stack, evaluation pops [c2] first, then [c1], and
    leaves [op(c1, c2)] in their place; [i32.sub] and [i32.div_s] are in the
    list with the operators [c1 - c2] and [trunc (c1 / c2)]. *)
Theorem C10_binop_operand_order (i : Instruction) (fn : prim -> prim -> prim)
    (vm : VM.t) (rest : list Value) (c1 c2 : prim) :
  In (i, fn) binary_operations ->
  items (VM.stack vm) = rest ++ [I32 c1; I32 c2] ->
  VM.popI32 vm = (VM_with_items vm (rest ++ [I32 c1]), Return (I32 c2))
  /\ VM.popI32 (VM_with_items vm (rest ++ [I32 c1]))
     = (VM_with_items vm rest, Return (I32 c1))
  /\ evalFn i vm = (VM_with_items vm (rest ++ [I32 (fn c1 c2)]), Return tt).
Proof.
  intros Hin E. repeat split.
  - apply VM_popI32_snoc. rewrite E, <- app_assoc. reflexivity.
  - apply (VM_popI32_snoc (VM_with_items vm (rest ++ [I32 c1]))). reflexivity.
  - rewrite (binary_operations_eval i fn Hin). now apply VM_binop_spec.
Qed.

Lemma C10_binop_operand_order_witness :
  evalFn i32_sub (VM_with_items (VM.new_VM [i32_sub]) [I32 (int 42); I32 (int 23)])
  = (VM_with_items (VM.new_VM [i32_sub]) [I32 (int 19)], Return tt)
  /\ evalFn i32_div_s (VM_with_items (VM.new_VM [i32_div_s]) [I32 (int 42); I32 (int 23)])
     = (VM_with_items (VM.new_VM [i32_div_s]) [I32 (int 1)], Return tt).
Proof.
  split.
  - apply (C10_binop_operand_order i32_sub js_sub
             (VM_with_items (VM.new_VM [i32_sub]) [I32 (int 42); I32 (int 23)])
             [] (int 42) (int 23)).
    + cbn. tauto.
    + reflexivity.
  - apply (C10_binop_operand_order i32_div_s js_div_trunc
             (VM_with_items (VM.new_VM [i32_div_s]) [I32 (int 42); I32 (int 23)])
             [] (int 42) (int 23)).
    + cbn. tauto.
    + reflexivity.
Defined.

(** ** C8: division by zero *)

Lemma div_by_zero (c1 : number) (s : bool) :
  trunc (div c1 (S754_zero s)) = quotient_by_zero c1 s.
Proof. destruct c1; reflexivity. Qed.

(** C8, as stated, fails: [1 / 0] evaluated by [i32.div_s] returns normally
    and leaves the number [Infinity] on the stack. *)
Lemma C8_div_s_by_zero_pushes_Infinity :
  VM.steps 3 (VM.new_VM [i32_const (of_Z 1); i32_const (of_Z 0); i32_div_s])
  = ({| VM.stack := {| items := [I32 (Num Infinity)] |};
        VM.instructions := [i32_const (of_Z 1); i32_const (of_Z 0); i32_div_s];
        VM.pc := 3 |},
     Return tt).
Proof. reflexivity. Qed.

(** C8, amended: with a zero divisor on top of the stack and a number below
    it, [i32.div_s] does not fail; it pops both and pushes an [I32] holding
    [NaN] when the dividend is a zero or NaN, and otherwise the infinity whose
    sign is the product of the signs of the dividend and of the zero. *)
Theorem C8_div_s_by_zero_pushes_infinity_or_NaN (vm : VM.t) (rest : list Value)
    (c1 : number) (s : bool) :
  items (VM.stack vm) = rest ++ [I32 (Num c1); I32 (Num (S754_zero s))] ->
  evalFn i32_div_s vm
  = (VM_with_items vm (rest ++ [I32 (Num (quotient_by_zero c1 s))]), Return tt).
Proof.
  intros E. change (@evalFn VM.t _ i32_div_s) with (@binop VM.t _ js_div_trunc).
  rewrite (VM_binop_spec js_div_trunc vm rest _ _ E).
  unfold js_div_trunc. cbn [ToNumber]. now rewrite div_by_zero.
Qed.

Lemma C8_div_s_by_zero_witness :
  evalFn i32_div_s (VM_with_items (VM.new_VM []) [I32 (int (-7)); I32 (int 0)])
  = (VM_with_items (VM.new_VM []) [I32 (Num neg_Infinity)], Return tt).
Proof.
  apply (C8_div_s_by_zero_pushes_infinity_or_NaN
           (VM_with_items (VM.new_VM []) [I32 (int (-7)); I32 (int 0)])
           [] (of_Z (-7)) false).
  reflexivity.
Defined.

(** ** Call frames *)

Lemma CallFrame_step_at (f : CallFrame.t) (i : Instruction) :
  array_get (CallFrame.instructions f) (CallFrame.pc f) = Some i ->
  CallFrame.step f
  = bind (evalFn i) (fun _ => modify (fun f => CallFrame.set_pc (CallFrame.pc f + 1) f)) f.
Proof. intros E. unfold CallFrame.step, bind at 1, get. now rewrite E. Qed.

(** [br_if] never falls through: once the condition has been popped, the
    branch is taken whatever the condition holds. *)
Lemma br_if_always_branches (labelidx : Z) (f : CallFrame.t) :
  evalFn (br_if labelidx) f
  = bind CallFrame.popI32 (fun _ => CallFrame.breakToLabel labelidx) f.
Proof.
  cbn [evalFn vm_popI32 vm_breakToLabel CallFrame.runtime]. unfold bind.
  destruct (CallFrame.popI32 f) as [f' [[|c]| |]]; reflexivity.
Qed.

(** ** C3: br_if with a zero condition *)

(** C3 fails on the code.  In the program of the test 'br_if works' with the
    condition changed to [0], the fourth step executes [br_if(0)] on the
    stacks [[5], [0]]: a fall-through would leave two block frames and pc 4,
    but the block frame is popped and pc is set past the [end] at 6. *)
Theorem C3_br_if_branches_on_zero :
  let before := fst (CallFrame.steps 3 (CallFrame.new_CallFrame br_if_zero_program [] [])) in
  let after := fst (CallFrame.steps 4 (CallFrame.new_CallFrame br_if_zero_program [] [])) in
  callFrameToData before = Some [[int 5]; [int 0]]
  /\ CallFrame.pc before = 3
  /\ snd (CallFrame.steps 4 (CallFrame.new_CallFrame br_if_zero_program [] [])) = Return tt
  /\ callFrameToData after = Some [[int 5]]
  /\ CallFrame.pc after = 7.
Proof. cbv zeta. repeat split; reflexivity. Qed.

(** ** C9: loop; br(0); end *)

Lemma CallFrame_step_loop (f : CallFrame.t) :
  array_get (CallFrame.instructions f) (CallFrame.pc f) = Some loop ->
  CallFrame.step f
  = (CallFrame.set_pc (CallFrame.pc f + 1)
       (CallFrame.set_blocks
          (CallFrame.blocks f ++ [new_BlockFrame [] (CallFrame.pc f - 1)]) f),
     Return tt).
Proof. intros E. rewrite (CallFrame_step_at f loop E). reflexivity. Qed.

Lemma CallFrame_step_br_0 (f : CallFrame.t) (bs : list BlockFrame) (b : BlockFrame) :
  array_get (CallFrame.instructions f) (CallFrame.pc f) = Some (br 0) ->
  CallFrame.blocks f = bs ++ [b] ->
  CallFrame.step f
  = (CallFrame.set_pc (breakTargetPc b + 1) (CallFrame.set_blocks bs f), Return tt).
Proof.
  intros E Hb. rewrite (CallFrame_step_at f (br 0) E).
  cbn [evalFn vm_breakToLabel CallFrame.runtime].
  unfold bind, CallFrame.breakToLabel, bind, CallFrame.popFrame.
  rewrite Hb, array_pop_snoc. reflexivity.
Qed.

(** The two steps through [loop] and [br(0)] lead back to the state they
    started from. *)
Lemma loop_br_0_round_trip (f : CallFrame.t) :
  array_get (CallFrame.instructions f) (CallFrame.pc f) = Some loop ->
  array_get (CallFrame.instructions f) (CallFrame.pc f + 1) = Some (br 0) ->
  forall (k : M CallFrame.t unit),
    bind CallFrame.step (fun _ => bind CallFrame.step (fun _ => k)) f = k f.
Proof.
  intros Hloop Hbr k. unfold bind at 1.
  rewrite (CallFrame_step_loop f Hloop). unfold bind at 1.
  rewrite (CallFrame_step_br_0
             (CallFrame.set_pc (CallFrame.pc f + 1)
                (CallFrame.set_blocks
                   (CallFrame.blocks f ++ [new_BlockFrame [] (CallFrame.pc f - 1)]) f))
             (CallFrame.blocks f)
             (new_BlockFrame [] (CallFrame.pc f - 1)) Hbr eq_refl).
  destruct f as [bs prog ls p]. cbn.
  unfold CallFrame.set_pc, CallFrame.set_blocks. cbn.
  now replace (p - 1 + 1) with p by lia.
Qed.

(** C9: in a call frame standing at a [loop] at position [p] that is followed
    by [br(0)] and [end], the step through [loop] leads to [p + 1] and the
    step that executes [br(0)] sets pc back to [p] and restores the state; so
    every number of steps returns, pc alternates between [p] and [p + 1], and
    the [end] at [p + 2] is never reached. *)
Theorem C9_loop_br_0_never_advances (f : CallFrame.t) (p : Z) :
  CallFrame.pc f = p ->
  array_get (CallFrame.instructions f) p = Some loop ->
  array_get (CallFrame.instructions f) (p + 1) = Some (br 0) ->
  array_get (CallFrame.instructions f) (p + 2) = Some end_ ->
  forall n : nat,
    CallFrame.steps (2 * n) f = (f, Return tt)
    /\ CallFrame.steps (2 * n + 1) f
       = (CallFrame.set_pc (p + 1)
            (CallFrame.set_blocks
               (CallFrame.blocks f ++ [new_BlockFrame [] (p - 1)]) f),
          Return tt)
    /\ CallFrame.pc (fst (CallFrame.steps n f)) <> p + 2
    /\ snd (CallFrame.steps n f) = Return tt.
Proof.
  intros Hp Hloop Hbr _. subst p.
  assert (even : forall n, CallFrame.steps (2 * n) f = (f, Return tt)).
  { induction n as [|n IH]; [reflexivity|].
    replace (2 * S n)%nat with (S (S (2 * n))) by lia.
    cbn [CallFrame.steps]. now rewrite loop_br_0_round_trip. }
  assert (odd : forall n, CallFrame.steps (2 * n + 1) f
                 = (CallFrame.set_pc (CallFrame.pc f + 1)
                      (CallFrame.set_blocks
                         (CallFrame.blocks f
                            ++ [new_BlockFrame [] (CallFrame.pc f - 1)]) f),
                    Return tt)).
  { induction n as [|n IH].
    - cbn [Nat.mul Nat.add CallFrame.steps]. unfold bind.
      now rewrite (CallFrame_step_loop f Hloop).
    - replace (2 * S n + 1)%nat with (S (S (2 * n + 1))) by lia.
      cbn [CallFrame.steps]. now rewrite loop_br_0_round_trip. }
  intros n. repeat split; [apply even | apply odd | |].
  - destruct (Nat.Even_or_Odd n) as [[m ->]|[m ->]].
    + rewrite even. cbn. lia.
    + rewrite odd. cbn. lia.
  - destruct (Nat.Even_or_Odd n) as [[m ->]|[m ->]].
    + now rewrite even.
    + now rewrite odd.
Qed.

Lemma C9_loop_br_0_witness :
  CallFrame.steps 4 (CallFrame.set_pc 1 (CallFrame.new_CallFrame [nop; loop; br 0; end_] [] []))
  = (CallFrame.set_pc 1 (CallFrame.new_CallFrame [nop; loop; br 0; end_] [] []), Return tt).
Proof.
  apply (C9_loop_br_0_never_advances
           (CallFrame.set_pc 1 (CallFrame.new_CallFrame [nop; loop; br 0; end_] [] []))
           1 eq_refl eq_refl eq_refl eq_refl 2%nat).
Defined.

(** ** Indices out of range *)

Lemma array_get_out_of_range {A} (xs : list A) (i : Z) :
  i < 0 \/ len xs <= i -> array_get xs i = None.
Proof.
  unfold array_get, len. intros [Hneg|Hge].
  - now apply Z.ltb_lt in Hneg as ->.
  - destruct (i <? 0); [reflexivity|]. apply nth_error_None. lia.
Qed.

Lemma array_get_in_range {A} (xs : list A) (i : Z) :
  0 <= i < len xs -> exists x, array_get xs i = Some x.
Proof.
  unfold array_get, len. intros [H0 Hlt].
  destruct (i <? 0) eqn:E; [apply Z.ltb_lt in E; lia|].
  destruct (nth_error xs (Z.to_nat i)) as [x|] eqn:En; [now exists x|].
  apply nth_error_None in En. lia.
Qed.

(** ** C6: calling a function that is not registered *)

(** C6, as stated, fails: the call of index 0 on an instance without
    functions is ended by the runtime's TypeError for reading [instructions]
    of [undefined], not by an error the program throws. *)
Lemma C6_no_invalid_function_index_error :
  Instance.callFunction 0 Instance.new_Instance
  = (Instance.new_Instance, Throw (TypeError_property_of_undefined "instructions"))
  /\ ~ (exists message,
          snd (Instance.callFunction 0 Instance.new_Instance) = Throw (Error message)).
Proof.
  split; [reflexivity|]. intros [message H]. discriminate H.
Qed.

(** C6, amended: for every index that is negative or not below the number of
    registered functions, [callFunction(index)] fails before it changes
    anything, with the TypeError the runtime raises when [instructions] is
    read from the missing function. *)
Theorem C6_callFunction_out_of_range (inst : Instance.t) (index : Z) :
  index < 0 \/ len (Instance.functions inst) <= index ->
  Instance.callFunction index inst
  = (inst, Throw (TypeError_property_of_undefined "instructions")).
Proof.
  intros H. unfold Instance.callFunction, bind, get.
  now rewrite (array_get_out_of_range _ _ H).
Qed.

Lemma C6_callFunction_out_of_range_witness :
  Instance.callFunction 2 (instance_with [fn1; fn2] [])
  = (instance_with [fn1; fn2] [], Throw (TypeError_property_of_undefined "instructions")).
Proof.
  apply (C6_callFunction_out_of_range (instance_with [fn1; fn2] []) 2).
  right. cbn. lia.
Defined.

(** ** C7: local and global indices *)

Lemma assertLocalIndexInRange_out_of_range {V} `{Runtime V}
    (l : lens V (list Value)) (index : Z) (s : V) :
  index < 0 \/ len (view l s) <= index ->
  assertLocalIndexInRange (Some l) index s
  = (s, Throw (Error ("Invalid local index: " ++ Z_to_string index)%string)).
Proof.
  intros Hr. unfold assertLocalIndexInRange.
  destruct (index <? 0) eqn:E; [reflexivity|].
  apply Z.ltb_ge in E. destruct Hr as [Hr|Hr]; [lia|].
  unfold bind, get. apply Z.geb_le in Hr. now rewrite Hr.
Qed.




(** C7 fails on the code for [global.get]: its closure checks the index with
    [assertLocalIndexInRange], so for every index outside
    [0 <= index < len(globals)] the error it throws is the invalid-local-index
    error, where [global.set] throws the invalid-global-index error. *)
Theorem C7_global_get_reports_local_index (inst : Instance.t) (index : Z) :
  index < 0 \/ len (Instance.globals inst) <= index ->
  evalFn (global_get index) inst
  = (inst, Throw (Error ("Invalid local index: " ++ Z_to_string index)%string))
  /\ evalFn (global_get index) inst
     <> (inst, Throw (Error ("Invalid global index: " ++ Z_to_string index)%string)).
Proof.
  intros Hr.
  assert (E : evalFn (global_get index) inst
              = (inst, Throw (Error ("Invalid local index: " ++ Z_to_string index)%string))).
  { cbn [evalFn vm_globals Instance.runtime]. unfold bind.
    now rewrite assertLocalIndexInRange_out_of_range by exact Hr. }
  split; [exact E|]. rewrite E. intros Heq. discriminate Heq.
Qed.

Lemma C7_global_get_witness :
  evalFn (global_get 3) (instance_with [] [I32 (int 100)])
  = (instance_with [] [I32 (int 100)], Throw (Error "Invalid local index: 3")).
Proof.
  apply (C7_global_get_reports_local_index (instance_with [] [I32 (int 100)]) 3).
  right. cbn. lia.
Defined.


(** ** What an instance does not offer to the instructions *)

(** An instance has no [locals]: evaluated on an instance, as [step] does, the
    local accesses fail on every index that is not negative when the length
    of [undefined] is read. *)
Lemma Instance_has_no_locals (inst : Instance.t) (index : Z) :
  0 <= index ->
  evalFn (local_get index) inst
  = (inst, Throw (TypeError_property_of_undefined "length"))
  /\ evalFn (local_set index) inst
     = (inst, Throw (TypeError_property_of_undefined "length"))
  /\ evalFn (local_tee index) inst
     = (inst, Throw (TypeError_property_of_undefined "length")).
Proof.
  intros H0. cbn [evalFn vm_locals Instance.runtime].
  unfold bind, assertLocalIndexInRange.
  assert (E : (index <? 0) = false) by (apply Z.ltb_ge; lia).
  rewrite E. repeat split.
Qed.

(** An instance has no [pushFrame] and no [popFrame]: [loop] and [end] fail
    on it. *)
Lemma Instance_has_no_block_frames (inst : Instance.t) :
  evalFn loop inst = (inst, Throw (TypeError_not_a_function "pushFrame"))
  /\ evalFn end_ inst = (inst, Throw (TypeError_not_a_function "popFrame")).
Proof. split; reflexivity. Qed.

(** ** The scans for the matching end and else *)

Lemma array_get_Some_range {A} (xs : list A) (i : Z) (x : A) :
  array_get xs i = Some x -> 0 <= i < len xs.
Proof.
  unfold array_get, len. destruct (i <? 0) eqn:E; [discriminate|].
  apply Z.ltb_ge in E. intros H.
  assert (Hn : nth_error xs (Z.to_nat i) <> None) by (rewrite H; discriminate).
  apply nth_error_Some in Hn. lia.
Qed.

(** The bound given to the scanning loop is never reached. *)
Lemma scan_total (closes opens : string -> bool) (prog : list Instruction) :
  forall (fuel : nat) (remainingBlocks pc : Z),
    (Z.to_nat (len prog - (pc + 1)) < fuel)%nat ->
    CallFrame.scan closes opens prog fuel remainingBlocks pc <> OutOfFuel.
Proof.
  induction fuel as [|fuel IH]; intros remainingBlocks pc Hfuel; [lia|].
  cbn [CallFrame.scan].
  destruct (remainingBlocks >? 0); [|discriminate].
  destruct (array_get prog (pc + 1)) as [i|] eqn:E; [|discriminate].
  apply array_get_Some_range in E.
  destruct (closes (name i)); [apply IH; lia|].
  destruct (opens (name i)); apply IH; lia.
Qed.

Lemma findMatching_total (f : CallFrame.t) :
  snd (CallFrame.findMatchingEndPc f) <> OutOfFuel
  /\ snd (CallFrame.findMatchingElsePc f) <> OutOfFuel.
Proof.
  unfold CallFrame.findMatchingEndPc, CallFrame.findMatchingElsePc, CallFrame.scan_fuel.
  cbn [snd].
  destruct (Z_lt_le_dec (CallFrame.pc f + 1) 0) as [Hneg|Hpos].
  - cbn [CallFrame.scan]. cbn [Z.gtb Z.compare].
    rewrite (array_get_out_of_range _ _ (or_introl Hneg)). split; discriminate.
  - split; apply scan_total; unfold len; lia.
Qed.

(** ** Calls without arguments *)

Lemma callFunction_without_arguments (inst : Instance.t) (index : Z) (fn : Func) :
  array_get (Instance.functions inst) index = Some fn ->
  args fn = [] ->
  Instance.callFunction index inst
  = (Instance.set_callStack
       (Instance.callStack inst
          ++ [CallFrame.new_CallFrame (instructions fn) (map new (locals fn))
                                      [[]; returns fn]]) inst,
     Return tt).
Proof.
  intros Hfn Hargs. unfold Instance.callFunction, bind at 1, get.
  rewrite Hfn, Hargs. reflexivity.
Qed.

(** ** C1: return values *)

(** The loop that is to move the return values never runs its body: the test
    [frame.currentBlock.size > 0] reads a property that block frames do not
    have, and [undefined > 0] is false. *)
Lemma transfer_moves_nothing (fuel : nat) (frame : CallFrame.t) (b : BlockFrame)
    (inst : Instance.t) :
  CallFrame.currentBlock frame = Some b ->
  Instance.transfer (S fuel) frame inst = (inst, Return tt).
Proof. intros E. cbn [Instance.transfer]. now rewrite E. Qed.

(** So one unit of fuel is enough for the loop to end, by returning or by the
    TypeError for a frame left without block frames. *)
Lemma transfer_total (fuel : nat) (frame : CallFrame.t) (inst : Instance.t) :
  Instance.transfer (S fuel) frame inst = (inst, Return tt)
  \/ Instance.transfer (S fuel) frame inst
     = (inst, Throw (TypeError_property_of_undefined "size")).
Proof.
  cbn [Instance.transfer].
  destruct (CallFrame.currentBlock frame); [left|right]; reflexivity.
Qed.

(** C1 fails on the code.  With [fn1 = [i32.const(10), call(1)]] and
    [fn2 = (args [I32]) [i32.const(5), i32.add]], after [callFunction(0)] and
    three steps the called frame holds [10, 5]; the fourth step computes 15
    there, finds the frame finished and pops it, and the caller's frame, now
    the only one, is left with the stack [[]], not [[15]].  This is so for
    every bound on the iterations of the transfer loop. *)
Theorem C1_return_value_is_not_transferred (fuel : nat) :
  let run n :=
    bind (Instance.callFunction 0) (fun _ => Instance.steps (S fuel) n)
         (instance_with [fn1; fn2] []) in
  snd (run 3%nat) = Return tt
  /\ instanceToData (fst (run 3%nat)) = Some [[[]]; [[int 10; int 5]]]
  /\ snd (run 4%nat) = Return tt
  /\ instanceToData (fst (run 4%nat)) = Some [[[]]]
  /\ instanceToData (fst (run 4%nat)) <> Some [[[int 15]]].
Proof.
  cbv zeta. repeat split; try reflexivity. intros H. discriminate H.
Qed.

(** ** C2: passing arguments *)

Lemma CallFrame_pop_snoc (f : CallFrame.t) (bs : list BlockFrame) (b : BlockFrame)
    (xs : list Value) (v : Value) :
  CallFrame.blocks f = bs ++ [b] ->
  items (super b) = xs ++ [v] ->
  CallFrame.pop f
  = (CallFrame.set_blocks (bs ++ [BlockFrame_with_items b xs]) f, Return v).
Proof.
  intros Hb Hi. unfold CallFrame.pop, CallFrame.on_currentBlock, on_last.
  rewrite Hb, array_pop_snoc. unfold inherited.
  destruct b as [[its] ty tg]. cbn in Hi. subst its. cbn [super].
  now rewrite Stack_pop_snoc.
Qed.

Lemma CallFrame_push_spec (f : CallFrame.t) (bs : list BlockFrame) (b : BlockFrame)
    (v : Value) :
  CallFrame.blocks f = bs ++ [b] ->
  CallFrame.push v f
  = (CallFrame.set_blocks
       (bs ++ [BlockFrame_with_items b (items (super b) ++ [v])]) f,
     Return tt).
Proof.
  intros Hb. unfold CallFrame.push, CallFrame.on_currentBlock, on_last.
  rewrite Hb, array_pop_snoc. reflexivity.
Qed.

Lemma CallFrame_popI32_snoc (f : CallFrame.t) (bs : list BlockFrame) (b : BlockFrame)
    (xs : list Value) (c : prim) :
  CallFrame.blocks f = bs ++ [b] ->
  items (super b) = xs ++ [I32 c] ->
  CallFrame.popI32 f
  = (CallFrame.set_blocks (bs ++ [BlockFrame_with_items b xs]) f, Return (I32 c)).
Proof.
  intros Hb Hi. unfold CallFrame.popI32, CallFrame.on_currentBlock, on_last.
  rewrite Hb, array_pop_snoc. unfold inherited.
  destruct b as [[its] ty tg]. cbn in Hi. subst its. cbn [super].
  now rewrite Stack_popI32_snoc.
Qed.

(** The operand order of C10 on a call frame, the receiver of the later
    tests: the operands are taken from, and the result is left on, the
    current block. *)
Lemma CallFrame_binop_spec (fn : prim -> prim -> prim) (f : CallFrame.t)
    (bs : list BlockFrame) (b : BlockFrame) (rest : list Value) (c1 c2 : prim) :
  CallFrame.blocks f = bs ++ [b] ->
  items (super b) = rest ++ [I32 c1; I32 c2] ->
  binop fn f
  = (CallFrame.set_blocks
       (bs ++ [BlockFrame_with_items b (rest ++ [I32 (fn c1 c2)])]) f,
     Return tt).
Proof.
  intros Hb Hi. unfold binop, bind. cbn [vm_popI32 vm_push CallFrame.runtime].
  erewrite CallFrame_popI32_snoc with (bs := bs) (xs := rest ++ [I32 c1]) (c := c2);
    [|exact Hb|rewrite Hi, <- app_assoc; reflexivity].
  erewrite CallFrame_popI32_snoc with (bs := bs) (xs := rest) (c := c1);
    [|reflexivity|reflexivity].
  cbn [value_of ret].
  erewrite CallFrame_push_spec with (bs := bs); [|reflexivity].
  reflexivity.
Qed.

Lemma pass_arguments_spec (frames : list CallFrame.t) (bs : list BlockFrame)
    (t0 : list (list Class)) (g0 : Z) (prog : list Instruction)
    (ls : list Value) (p : Z) (fns : list Func) (gs : list Value) (ipc : option Z)
    (t1 : list (list Class)) (g1 : Z) (prog1 : list Instruction) (ls1 : list Value)
    (p1 : Z) (rest : list Value) (vals : list Value) :
  forall called_items : list Value,
    Instance.pass_arguments (List.length vals)
      {| CallFrame.blocks :=
           [{| super := {| items := called_items |}; type := t1; breakTargetPc := g1 |}];
         CallFrame.instructions := prog1; CallFrame.locals := ls1; CallFrame.pc := p1 |}
      {| Instance.callStack :=
           frames ++
           [{| CallFrame.blocks :=
                 bs ++ [{| super := {| items := rest ++ vals |}; type := t0;
                           breakTargetPc := g0 |}];
               CallFrame.instructions := prog; CallFrame.locals := ls;
               CallFrame.pc := p |}];
         Instance.functions := fns; Instance.globals := gs; Instance.pc := ipc |}
    = ({| Instance.callStack :=
            frames ++
            [{| CallFrame.blocks :=
                  bs ++ [{| super := {| items := rest |}; type := t0;
                            breakTargetPc := g0 |}];
                CallFrame.instructions := prog; CallFrame.locals := ls;
                CallFrame.pc := p |}];
          Instance.functions := fns; Instance.globals := gs; Instance.pc := ipc |},
       Return
         {| CallFrame.blocks :=
              [{| super := {| items := called_items ++ rev vals |}; type := t1;
                  breakTargetPc := g1 |}];
            CallFrame.instructions := prog1; CallFrame.locals := ls1;
            CallFrame.pc := p1 |}).
Proof.
  induction vals as [|v vs IH] using rev_ind; intros called_items.
  - cbn. now rewrite !app_nil_r.
  - rewrite length_app, Nat.add_1_r. cbn [Instance.pass_arguments List.length].
    unfold bind at 1, Instance.on_currentFrame, on_last.
    cbn [Instance.callStack]. rewrite array_pop_snoc.
    erewrite CallFrame_pop_snoc with (bs := bs) (xs := rest ++ vs) (v := v);
      [|reflexivity|cbn; now rewrite app_assoc].
    erewrite CallFrame_push_spec with (bs := []); [|reflexivity].
    unfold Instance.set_callStack, CallFrame.set_blocks, BlockFrame_with_items.
    cbn [Instance.callStack Instance.functions Instance.globals Instance.pc
         CallFrame.blocks CallFrame.instructions CallFrame.locals CallFrame.pc
         type breakTargetPc super items app].
    rewrite IH. now rewrite rev_unit, <- app_assoc.
Qed.

(** C2, as stated, fails: called with the stack [1, 2] on a function of two
    parameters, [callFunction] leaves the locals of the called frame empty;
    the two values are on the operand stack of its root block, as [2, 1]. *)
Lemma C2_arguments_are_not_stored_in_locals :
  let caller :=
    {| CallFrame.blocks :=
         [BlockFrame_with_items (new_BlockFrame [] 0) [I32 (int 1); I32 (int 2)]];
       CallFrame.instructions := [call 0]; CallFrame.locals := [];
       CallFrame.pc := 0 |} in
  let inst :=
    {| Instance.callStack := [caller];
       Instance.functions := [new_Func [I32_class; I32_class] [] [] [nop]];
       Instance.globals := []; Instance.pc := None |} in
  exists called,
    snd (Instance.callFunction 0 inst) = Return tt
    /\ Instance.currentFrame (fst (Instance.callFunction 0 inst)) = Some called
    /\ CallFrame.locals called = []
    /\ array_get (CallFrame.locals called) 0 <> Some (I32 (int 1))
    /\ callFrameToData called = Some [[int 2; int 1]].
Proof.
  cbv zeta. eexists. repeat split; try reflexivity. cbn. discriminate.
Qed.

(** C2, amended: for every function with n declared parameters, when the
    current block of the calling frame holds at least n values,
    [callFunction(index)] pops the n topmost, the top first, and pushes each
    as it is popped onto the operand stack of the root block of the called
    frame, where they end up in reverse order; the locals of the called frame
    are one [new T()] for each declared local and hold no argument; the called
    frame starts at pc 0 and becomes the current frame. *)
Theorem C2_callFunction_passes_arguments_on_the_stack
    (frames : list CallFrame.t) (bs : list BlockFrame)
    (t0 : list (list Class)) (g0 : Z) (prog : list Instruction)
    (ls : list Value) (p : Z) (fns : list Func) (gs : list Value) (ipc : option Z)
    (rest vals : list Value) (index : Z) (fn : Func) :
  array_get fns index = Some fn ->
  List.length vals = List.length (args fn) ->
  Instance.callFunction index
    {| Instance.callStack :=
         frames ++
         [{| CallFrame.blocks :=
               bs ++ [{| super := {| items := rest ++ vals |}; type := t0;
                         breakTargetPc := g0 |}];
             CallFrame.instructions := prog; CallFrame.locals := ls;
             CallFrame.pc := p |}];
       Instance.functions := fns; Instance.globals := gs; Instance.pc := ipc |}
  = ({| Instance.callStack :=
          (frames ++
           [{| CallFrame.blocks :=
                 bs ++ [{| super := {| items := rest |}; type := t0;
                           breakTargetPc := g0 |}];
               CallFrame.instructions := prog; CallFrame.locals := ls;
               CallFrame.pc := p |}]) ++
          [{| CallFrame.blocks :=
                [{| super := {| items := rev vals |};
                    type := [args fn; returns fn];
                    breakTargetPc := len (instructions fn) - 1 |}];
              CallFrame.instructions := instructions fn;
              CallFrame.locals := map new (locals fn);
              CallFrame.pc := 0 |}];
        Instance.functions := fns; Instance.globals := gs; Instance.pc := ipc |},
     Return tt).
Proof.
  intros Hfn Hlen.
  unfold Instance.callFunction, bind at 1, get. cbn [Instance.functions].
  rewrite Hfn. unfold bind. rewrite <- Hlen.
  unfold CallFrame.new_CallFrame, new_BlockFrame.
  rewrite pass_arguments_spec. reflexivity.
Qed.

Lemma C2_callFunction_witness :
  instanceToData
    (fst (Instance.callFunction 1
            {| Instance.callStack :=
                 [] ++
                 [{| CallFrame.blocks :=
                       [] ++ [{| super := {| items := [I32 (int 7)] ++ [I32 (int 1); I32 (int 2)] |};
                                 type := []; breakTargetPc := 0 |}];
                     CallFrame.instructions := [call 1]; CallFrame.locals := [];
                     CallFrame.pc := 0 |}];
               Instance.functions := [fn1; new_Func [I32_class; I32_class] [] [I32_class] [nop]];
               Instance.globals := []; Instance.pc := None |}))
  = Some [[[int 7]]; [[int 2; int 1]]].
Proof.
  rewrite (C2_callFunction_passes_arguments_on_the_stack
             [] [] [] 0 [call 1] [] 0
             [fn1; new_Func [I32_class; I32_class] [] [I32_class] [nop]] [] None
             [I32 (int 7)] [I32 (int 1); I32 (int 2)] 1
             (new_Func [I32_class; I32_class] [] [I32_class] [nop])
             eq_refl eq_refl).
  reflexivity.
Defined.

(** ** Binary64 arithmetic on integers *)

(** The operators of the program work on binary64 numbers.  This part relates
    them to integer arithmetic, from the IEEE definitions of [SpecFloat]:
    an integer of magnitude below 2^53 has the float [canonical s v]; a
    mantissa whose discarded bits are all zero is rounded to itself
    ([round_aux_exact], [binary_round_exact]); hence sums, differences and
    products of integers are exact as long as they stay below 2^53
    ([add_of_Z], [sub_of_Z], [to_Z_mul_of_Z]).  For the division, the rounded
    quotient of two integers below 2^52 never reaches the next integer
    ([quotient_margin]), so that truncating it gives the integer quotient
    ([div_canonical], [to_Z_div_of_Z]). *)

Lemma digits_pos (m : positive) : 1 <= digits m.
Proof. unfold digits. lia. Qed.

Lemma digits_bounds (m : positive) :
  2 ^ (digits m - 1) <= Zpos m < 2 ^ digits m.
Proof.
  unfold digits. induction m as [m IH|m IH|]; cbn [digits2_pos].
  - rewrite Pos2Z.inj_succ.
    replace (Z.succ (Z.pos (digits2_pos m)) - 1) with (Z.succ (Z.pos (digits2_pos m) - 1)) by lia.
    rewrite !Z.pow_succ_r by lia. lia.
  - rewrite Pos2Z.inj_succ.
    replace (Z.succ (Z.pos (digits2_pos m)) - 1) with (Z.succ (Z.pos (digits2_pos m) - 1)) by lia.
    rewrite !Z.pow_succ_r by lia. lia.
  - cbn. lia.
Qed.

Lemma digits_unique (m : positive) (d : Z) :
  2 ^ (d - 1) <= Zpos m < 2 ^ d -> digits m = d.
Proof.
  intros [Hlo Hhi]. pose proof (digits_bounds m) as [Blo Bhi].
  pose proof (digits_pos m) as Hd.
  assert (Hd1 : 1 <= d).
  { destruct (Z_lt_le_dec d 1) as [Hlt|]; [|assumption].
    assert (2 ^ d <= 2 ^ 0) by (destruct (Z_lt_le_dec d 0); [rewrite Z.pow_neg_r by lia; lia|apply Z.pow_le_mono_r; lia]).
    cbn in *. lia. }
  destruct (Z.lt_trichotomy (digits m) d) as [Hlt|[Heq|Hgt]]; [|assumption|].
  - assert (2 ^ digits m <= 2 ^ (d - 1)) by (apply Z.pow_le_mono_r; lia). lia.
  - assert (2 ^ d <= 2 ^ (digits m - 1)) by (apply Z.pow_le_mono_r; lia). lia.
Qed.

Lemma shl_val (m : positive) (k : Z) :
  0 <= k -> Zpos (shl m k) = Zpos m * 2 ^ k.
Proof.
  intros Hk. destruct k as [|p|p]; [cbn; lia| |lia].
  unfold shl.
  rewrite (Pos.iter_swap_gen _ _ Zpos xO (Z.mul 2)) by reflexivity.
  change (Pos.iter (Z.mul 2) (Zpos m) p) with (Z.shiftl (Zpos m) (Zpos p)).
  now rewrite Z.shiftl_mul_pow2 by lia.
Qed.

Lemma digits_shl (m : positive) (k : Z) :
  0 <= k -> digits (shl m k) = digits m + k.
Proof.
  intros Hk. apply digits_unique. rewrite shl_val by assumption.
  pose proof (digits_bounds m) as [Blo Bhi]. pose proof (digits_pos m).
  replace (digits m + k - 1) with ((digits m - 1) + k) by lia.
  rewrite !Z.pow_add_r by lia.
  assert (0 < 2 ^ k) by (apply Z.pow_pos_nonneg; lia). nia.
Qed.

Lemma iter_pos_iter {A} (f : A -> A) (n : positive) (x : A) :
  iter_pos f n x = Pos.iter f x n.
Proof.
  revert x. induction n as [n IH|n IH|]; intros x; cbn [iter_pos Pos.iter].
  - now rewrite !IH, <- !Pos.iter_swap.
  - now rewrite !IH.
  - reflexivity.
Qed.

Lemma shr_exact (m : positive) (n : positive) :
  iter_pos shr_1 n {| shr_m := Zpos (Pos.iter xO m n); shr_r := false; shr_s := false |}
  = {| shr_m := Zpos m; shr_r := false; shr_s := false |}.
Proof.
  rewrite iter_pos_iter. revert m. induction n as [|n IH] using Pos.peano_ind; intros m.
  - reflexivity.
  - rewrite Pos.iter_succ, Pos.iter_succ_r, IH. reflexivity.
Qed.

Lemma round_aux_exact (s : bool) (m0 : positive) (e n : Z) :
  digits m0 = prec -> 0 <= n -> -1074 <= e + n <= 971 ->
  binary_round_aux prec emax s (Zpos (shl m0 n)) e loc_Exact = S754_finite s m0 (e + n).
Proof.
  intros Hd Hn He.
  unfold binary_round_aux, shr_fexp.
  change (Zdigits2 (Z.pos (shl m0 n))) with (digits (shl m0 n)).
  rewrite digits_shl, Hd by assumption.
  assert (Hf : fexp prec emax (prec + n + e) - e = n).
  { unfold fexp, emin, prec, emax. lia. }
  rewrite Hf. cbn [shr_record_of_loc].
  assert (Hshr : shr {| shr_m := Zpos (shl m0 n); shr_r := false; shr_s := false |} e n
                 = ({| shr_m := Zpos m0; shr_r := false; shr_s := false |}, e + n)).
  { destruct n as [|p|p]; [cbn; now rewrite Z.add_0_r| |lia].
    unfold shr, shl. now rewrite shr_exact. }
  rewrite Hshr. cbn [shr_m loc_of_shr_record round_nearest_even].
  change (Zdigits2 (Z.pos m0)) with (digits m0). rewrite Hd.
  assert (Hf2 : fexp prec emax (prec + (e + n)) - (e + n) = 0).
  { unfold fexp, emin, prec, emax. lia. }
  rewrite Hf2. cbn [shr shr_m].
  assert (Hle : (e + n <=? emax - prec) = true) by (apply Z.leb_le; unfold emax, prec; lia).
  now rewrite Hle.
Qed.

Lemma shl_0 (m : positive) : shl m 0 = m.
Proof. reflexivity. Qed.

Lemma shl_shl (m : positive) (a b : Z) :
  0 <= a -> 0 <= b -> shl (shl m a) b = shl m (a + b).
Proof.
  intros Ha Hb. apply Pos2Z.inj. rewrite !shl_val, Z.pow_add_r by lia. ring.
Qed.

Lemma shl_align_spec (m : positive) (e e' : Z) :
  shl_align m e e' = if e' <? e then (shl m (e - e'), e') else (m, e).
Proof.
  unfold shl_align. destruct (e' - e) as [|d|d] eqn:Hd.
  - assert (H : (e' <? e) = false) by (apply Z.ltb_ge; lia). now rewrite H.
  - assert (H : (e' <? e) = false) by (apply Z.ltb_ge; lia). now rewrite H.
  - assert (H : (e' <? e) = true) by (apply Z.ltb_lt; lia). rewrite H.
    replace (e - e') with (Zpos d) by lia. reflexivity.
Qed.

Lemma binary_round_exact (s : bool) (v : positive) (j : Z) :
  0 <= j -> digits v <= prec ->
  binary_round prec emax s (shl v j) (- j) = canonical s v.
Proof.
  intros Hj Hd. pose proof (digits_pos v) as Hd1.
  unfold binary_round.
  change (Z.pos (digits2_pos (shl v j))) with (digits (shl v j)).
  rewrite digits_shl by assumption.
  assert (Hf : fexp prec emax (digits v + j + - j) = digits v - prec).
  { unfold fexp, emin, prec, emax in *. lia. }
  rewrite Hf, shl_align_spec.
  destruct (digits v - prec <? - j) eqn:Hc.
  - apply Z.ltb_lt in Hc.
    rewrite shl_shl by (unfold prec in *; lia).
    replace (j + (- j - (digits v - prec))) with (prec - digits v) by lia.
    rewrite <- (shl_0 (shl v (prec - digits v))) at 1.
    rewrite round_aux_exact.
    + unfold canonical. f_equal. lia.
    + rewrite digits_shl by lia. lia.
    + lia.
    + unfold prec in *. lia.
  - apply Z.ltb_ge in Hc.
    replace (shl v j) with (shl (shl v (prec - digits v)) (j - (prec - digits v)))
      by (rewrite shl_shl by lia; f_equal; lia).
    rewrite round_aux_exact.
    + unfold canonical. f_equal. lia.
    + rewrite digits_shl by lia. lia.
    + lia.
    + unfold prec in *. lia.
Qed.

Lemma of_Z_pos (v : positive) :
  digits v <= prec -> of_Z (Zpos v) = canonical false v.
Proof.
  intros Hd. unfold of_Z, binary_normalize.
  rewrite <- (shl_0 v) at 1. now apply (binary_round_exact false v 0).
Qed.

Lemma of_Z_neg (v : positive) :
  digits v <= prec -> of_Z (Zneg v) = canonical true v.
Proof.
  intros Hd. unfold of_Z, binary_normalize.
  rewrite <- (shl_0 v) at 1. now apply (binary_round_exact true v 0).
Qed.

Lemma of_Z_signed (s : bool) (v : positive) :
  digits v <= prec -> of_Z (cond_Zopp s (Zpos v)) = canonical s v.
Proof. destruct s; cbn [cond_Zopp Z.opp]; [apply of_Z_neg|apply of_Z_pos]. Qed.

Lemma normalize_exact (S : Z) (j : Z) (sz : bool) :
  0 <= j -> Z.abs S < 2 ^ prec -> S <> 0 ->
  binary_normalize prec emax (S * 2 ^ j) (- j) sz = of_Z S.
Proof.
  intros Hj HS Hnz.
  destruct S as [|v|v]; [contradiction| |].
  - assert (Hd : digits v <= prec).
    { pose proof (digits_bounds v) as [Hlo _].
      destruct (Z_le_gt_dec (digits v) prec); [assumption|].
      assert (2 ^ prec <= 2 ^ (digits v - 1)) by (apply Z.pow_le_mono_r; unfold prec in *; lia).
      cbn [Z.abs] in HS. lia. }
    rewrite <- shl_val by assumption. cbn [binary_normalize].
    rewrite binary_round_exact by assumption. now rewrite of_Z_pos.
  - assert (Hd : digits v <= prec).
    { pose proof (digits_bounds v) as [Hlo _].
      destruct (Z_le_gt_dec (digits v) prec); [assumption|].
      assert (2 ^ prec <= 2 ^ (digits v - 1)) by (apply Z.pow_le_mono_r; unfold prec in *; lia).
      cbn [Z.abs Z.opp] in HS. lia. }
    change (Z.neg v) with (- Z.pos v). rewrite Z.mul_opp_l, <- shl_val by assumption.
    cbn [binary_normalize Z.opp].
    rewrite binary_round_exact by assumption. now rewrite of_Z_neg.
Qed.

Lemma digits_le (v : positive) (k : Z) :
  0 <= k -> Zpos v < 2 ^ k -> digits v <= k.
Proof.
  intros Hk Hv. pose proof (digits_bounds v) as [Hlo _].
  destruct (Z_le_gt_dec (digits v) k); [assumption|].
  assert (2 ^ k <= 2 ^ (digits v - 1)) by (apply Z.pow_le_mono_r; lia). lia.
Qed.

Lemma lt_pow_digits (v : positive) (k : Z) :
  digits v <= k -> Zpos v < 2 ^ k.
Proof.
  intros Hd. pose proof (digits_bounds v) as [_ Hhi]. pose proof (digits_pos v).
  assert (2 ^ digits v <= 2 ^ k) by (apply Z.pow_le_mono_r; lia). lia.
Qed.

Lemma fst_shl_align_canonical (A : positive) (ez : Z) :
  digits A <= prec -> ez <= digits A - prec ->
  fst (shl_align (shl A (prec - digits A)) (digits A - prec) ez) = shl A (- ez).
Proof.
  intros Hd He. rewrite shl_align_spec.
  destruct (ez <? digits A - prec) eqn:Hc; cbn [fst].
  - rewrite shl_shl by lia. f_equal. lia.
  - apply Z.ltb_ge in Hc. f_equal. lia.
Qed.

Lemma cond_Zopp_mul (s : bool) (x y : Z) : cond_Zopp s x * y = cond_Zopp s (x * y).
Proof. destruct s; cbn [cond_Zopp]; ring. Qed.

Lemma abs_cond_Zopp (s : bool) (x : Z) : Z.abs (cond_Zopp s x) = Z.abs x.
Proof. destruct s; cbn [cond_Zopp]; lia. Qed.

Lemma add_canonical (sa sb : bool) (A B : positive) :
  digits A < prec -> digits B < prec ->
  add (canonical sa A) (canonical sb B)
  = of_Z (cond_Zopp sa (Zpos A) + cond_Zopp sb (Zpos B)).
Proof.
  intros HA HB. unfold add, canonical. cbn [SFadd].
  set (ez := Z.min (digits A - prec) (digits B - prec)).
  rewrite !fst_shl_align_canonical by lia.
  rewrite !shl_val by lia.
  rewrite <- !cond_Zopp_mul, <- Z.mul_add_distr_r.
  pose proof (lt_pow_digits A (prec - 1) ltac:(lia)) as HAv.
  pose proof (lt_pow_digits B (prec - 1) ltac:(lia)) as HBv.
  set (S := cond_Zopp sa (Z.pos A) + cond_Zopp sb (Z.pos B)).
  assert (HS : Z.abs S < 2 ^ prec).
  { subst S. pose proof (abs_cond_Zopp sa (Zpos A)). pose proof (abs_cond_Zopp sb (Zpos B)).
    change (2 ^ prec) with (2 * 2 ^ (prec - 1)). lia. }
  destruct (Z.eq_dec S 0) as [H0|Hnz].
  - rewrite H0. reflexivity.
  - replace ez with (- - ez) at 2 by lia. apply normalize_exact; lia.
Qed.

Lemma sub_canonical (sa sb : bool) (A B : positive) :
  digits A < prec -> digits B < prec ->
  sub (canonical sa A) (canonical sb B)
  = of_Z (cond_Zopp sa (Zpos A) - cond_Zopp sb (Zpos B)).
Proof.
  intros HA HB. unfold sub, canonical. cbn [SFsub].
  set (ez := Z.min (digits A - prec) (digits B - prec)).
  rewrite !fst_shl_align_canonical by lia.
  rewrite !shl_val by lia.
  rewrite <- !cond_Zopp_mul, <- Z.mul_sub_distr_r.
  pose proof (lt_pow_digits A (prec - 1) ltac:(lia)) as HAv.
  pose proof (lt_pow_digits B (prec - 1) ltac:(lia)) as HBv.
  set (S := cond_Zopp sa (Z.pos A) - cond_Zopp sb (Z.pos B)).
  assert (HS : Z.abs S < 2 ^ prec).
  { subst S. pose proof (abs_cond_Zopp sa (Zpos A)). pose proof (abs_cond_Zopp sb (Zpos B)).
    change (2 ^ prec) with (2 * 2 ^ (prec - 1)). lia. }
  destruct (Z.eq_dec S 0) as [H0|Hnz].
  - rewrite H0. reflexivity.
  - replace ez with (- - ez) at 2 by lia. apply normalize_exact; lia.
Qed.

(** Every non-zero integer of magnitude below 2^52 is a canonical float. *)
Lemma of_Z_canonical (z : Z) :
  z <> 0 -> Z.abs z < 2 ^ (prec - 1) ->
  exists s v, z = cond_Zopp s (Zpos v) /\ digits v < prec /\ of_Z z = canonical s v.
Proof.
  intros Hnz Hz. destruct z as [|v|v]; [contradiction| |].
  - exists false, v. cbn [Z.abs] in Hz.
    pose proof (digits_le v (prec - 1) ltac:(unfold prec; lia) Hz).
    repeat split; [lia|]. apply of_Z_pos. lia.
  - exists true, v. cbn [Z.abs] in Hz.
    pose proof (digits_le v (prec - 1) ltac:(unfold prec; lia) Hz).
    repeat split; [lia|]. apply of_Z_neg. lia.
Qed.

Lemma add_of_Z (a b : Z) :
  Z.abs a < 2 ^ (prec - 1) -> Z.abs b < 2 ^ (prec - 1) ->
  add (of_Z a) (of_Z b) = of_Z (a + b).
Proof.
  intros Ha Hb.
  destruct (Z.eq_dec a 0) as [->|Hna]; destruct (Z.eq_dec b 0) as [->|Hnb].
  - reflexivity.
  - destruct (of_Z_canonical b Hnb Hb) as (s & v & -> & _ & E).
    rewrite Z.add_0_l, E. reflexivity.
  - destruct (of_Z_canonical a Hna Ha) as (s & v & -> & _ & E).
    rewrite Z.add_0_r, E. reflexivity.
  - destruct (of_Z_canonical a Hna Ha) as (sa & A & -> & HA & Ea).
    destruct (of_Z_canonical b Hnb Hb) as (sb & B & -> & HB & Eb).
    rewrite Ea, Eb. now apply add_canonical.
Qed.

Lemma sub_of_Z (a b : Z) :
  Z.abs a < 2 ^ (prec - 1) -> Z.abs b < 2 ^ (prec - 1) ->
  sub (of_Z a) (of_Z b) = of_Z (a - b).
Proof.
  intros Ha Hb.
  destruct (Z.eq_dec a 0) as [->|Hna]; destruct (Z.eq_dec b 0) as [->|Hnb].
  - reflexivity.
  - destruct (of_Z_canonical b Hnb Hb) as (s & v & -> & Hv & E). rewrite E.
    rewrite Z.sub_0_l.
    replace (- cond_Zopp s (Z.pos v)) with (cond_Zopp (negb s) (Zpos v)) by (destruct s; reflexivity).
    rewrite of_Z_signed by lia. reflexivity.
  - destruct (of_Z_canonical a Hna Ha) as (s & v & -> & _ & E).
    rewrite Z.sub_0_r, E. reflexivity.
  - destruct (of_Z_canonical a Hna Ha) as (sa & A & -> & HA & Ea).
    destruct (of_Z_canonical b Hnb Hb) as (sb & B & -> & HB & Eb).
    rewrite Ea, Eb. now apply sub_canonical.
Qed.

Lemma to_Z_canonical (s : bool) (v : positive) :
  digits v <= prec -> to_Z (canonical s v) = Some (cond_Zopp s (Zpos v)).
Proof.
  intros Hd. unfold canonical, to_Z.
  destruct (0 <=? digits v - prec) eqn:Hc.
  - apply Z.leb_le in Hc. replace (prec - digits v) with 0 by lia.
    replace (digits v - prec) with 0 by lia. rewrite shl_0, Z.pow_0_r, Z.mul_1_r.
    reflexivity.
  - apply Z.leb_gt in Hc. rewrite shl_val by lia.
    replace (- (digits v - prec)) with (prec - digits v) by lia.
    assert (Hp : 0 < 2 ^ (prec - digits v)) by (apply Z.pow_pos_nonneg; lia).
    rewrite Z.mod_mul by lia. cbn [Z.eqb]. rewrite Z.div_mul by lia. reflexivity.
Qed.

Lemma to_Z_of_Z (z : Z) : Z.abs z < 2 ^ prec -> to_Z (of_Z z) = Some z.
Proof.
  intros Hz. destruct z as [|v|v]; [reflexivity| |]; cbn [Z.abs] in Hz.
  - assert (Hd : digits v <= prec) by (apply digits_le; [unfold prec; lia|assumption]).
    now rewrite of_Z_pos, to_Z_canonical.
  - assert (Hd : digits v <= prec) by (apply digits_le; [unfold prec; lia|assumption]).
    now rewrite of_Z_neg, to_Z_canonical.
Qed.

Lemma digits_mul_lower (A B : positive) :
  digits A + digits B - 1 <= digits (A * B).
Proof.
  pose proof (digits_bounds A) as [HA _]. pose proof (digits_bounds B) as [HB _].
  pose proof (digits_bounds (A * B)) as [_ HAB].
  pose proof (digits_pos A). pose proof (digits_pos B). pose proof (digits_pos (A * B)).
  rewrite Pos2Z.inj_mul in HAB.
  assert (H2 : 2 ^ (digits A - 1 + (digits B - 1)) < 2 ^ digits (A * B)).
  { rewrite Z.pow_add_r by lia.
    assert (0 < 2 ^ (digits A - 1)) by (apply Z.pow_pos_nonneg; lia).
    assert (0 < 2 ^ (digits B - 1)) by (apply Z.pow_pos_nonneg; lia). nia. }
  apply Z.pow_lt_mono_r_iff in H2; lia.
Qed.

Lemma digits_mul_factor (A B : positive) : digits A <= digits (A * B).
Proof. pose proof (digits_mul_lower A B). pose proof (digits_pos B). lia. Qed.

Lemma mul_canonical (sa sb : bool) (A B : positive) :
  digits (A * B) <= prec ->
  mul (canonical sa A) (canonical sb B) = canonical (xorb sa sb) (A * B).
Proof.
  intros Hd. pose proof (digits_mul_lower A B) as Hlo.
  pose proof (digits_pos A). pose proof (digits_pos B).
  unfold mul, canonical. cbn [SFmul].
  replace (shl A (prec - digits A) * shl B (prec - digits B))%positive
    with (shl (shl (A * B) (prec - digits (A * B)))
              (prec + digits (A * B) - digits A - digits B)).
  - rewrite round_aux_exact.
    + f_equal. lia.
    + rewrite digits_shl by lia. lia.
    + lia.
    + unfold prec in *. lia.
  - apply Pos2Z.inj. rewrite shl_shl by lia.
    rewrite Pos2Z.inj_mul, !shl_val by lia. rewrite Pos2Z.inj_mul.
    replace (prec - digits (A * B) + (prec + digits (A * B) - digits A - digits B))
      with ((prec - digits A) + (prec - digits B)) by lia.
    rewrite Z.pow_add_r by lia. ring.
Qed.

Lemma to_Z_mul_of_Z (a b : Z) :
  Z.abs a < 2 ^ (prec - 1) -> Z.abs b < 2 ^ (prec - 1) -> Z.abs (a * b) < 2 ^ prec ->
  to_Z (mul (of_Z a) (of_Z b)) = Some (a * b).
Proof.
  intros Ha Hb Hab.
  destruct (Z.eq_dec a 0) as [->|Hna]; destruct (Z.eq_dec b 0) as [->|Hnb].
  - reflexivity.
  - destruct (of_Z_canonical b Hnb Hb) as (s & v & -> & _ & E). rewrite E. reflexivity.
  - destruct (of_Z_canonical a Hna Ha) as (s & v & -> & _ & E). rewrite E, Z.mul_0_r.
    reflexivity.
  - destruct (of_Z_canonical a Hna Ha) as (sa & A & -> & HA & Ea).
    destruct (of_Z_canonical b Hnb Hb) as (sb & B & -> & HB & Eb).
    rewrite Ea, Eb.
    assert (Hprod : cond_Zopp sa (Z.pos A) * cond_Zopp sb (Z.pos B)
                    = cond_Zopp (xorb sa sb) (Zpos (A * B))).
    { rewrite Pos2Z.inj_mul. destruct sa, sb; cbn [cond_Zopp xorb]; ring. }
    rewrite Hprod in *. rewrite abs_cond_Zopp in Hab. cbn [Z.abs] in Hab.
    assert (Hd : digits (A * B) <= prec) by (apply digits_le; [unfold prec; lia|assumption]).
    rewrite mul_canonical by assumption. now apply to_Z_canonical.
Qed.

Lemma round_aux_after_shift (s : bool) (mx ex : Z) (lx : location)
    (mrs : shr_record) (e1 : Z) (m1 : positive) :
  shr_fexp prec emax mx ex lx = (mrs, e1) ->
  round_nearest_even (shr_m mrs) (loc_of_shr_record mrs) = Zpos m1 ->
  2 ^ (prec - 1) <= Zpos m1 <= 2 ^ prec ->
  -1074 <= e1 <= 970 ->
  exists mf ef,
    binary_round_aux prec emax s mx ex lx = S754_finite s mf ef
    /\ digits mf = prec /\ e1 <= ef /\ Zpos mf * 2 ^ (ef - e1) = Zpos m1.
Proof.
  intros Hshr Hrne Hm He.
  unfold binary_round_aux. rewrite Hshr, Hrne.
  destruct (Z_lt_le_dec (Zpos m1) (2 ^ prec)) as [Hlt|Hge].
  - assert (Hd : digits m1 = prec) by (apply digits_unique; lia).
    exists m1, e1. unfold shr_fexp.
    change (Zdigits2 (Z.pos m1)) with (digits m1). rewrite Hd.
    assert (Hf : fexp prec emax (prec + e1) - e1 = 0)
      by (unfold fexp, emin, prec, emax; lia).
    rewrite Hf. cbn [shr shr_record_of_loc shr_m].
    assert (Hle : (e1 <=? emax - prec) = true) by (apply Z.leb_le; unfold emax, prec; lia).
    rewrite Hle. repeat split; try lia.
    rewrite Z.sub_diag, Z.pow_0_r. lia.
  - assert (Em : m1 = 9007199254740992%positive) by (apply Pos2Z.inj; change (2 ^ prec) with 9007199254740992 in *; lia).
    subst m1. exists 4503599627370496%positive, (e1 + 1). unfold shr_fexp.
    change (Zdigits2 9007199254740992) with 54.
    assert (Hf : fexp prec emax (54 + e1) - e1 = 1)
      by (unfold fexp, emin, prec, emax; lia).
    rewrite Hf. cbn [shr shr_record_of_loc shr_m iter_pos shr_1 orb].
    assert (Hle : (e1 + 1 <=? emax - prec) = true) by (apply Z.leb_le; unfold emax, prec; lia).
    rewrite Hle. repeat split; try lia.
    replace (e1 + 1 - e1) with 1 by lia. reflexivity.
Qed.

Lemma binary_round_integer (s : bool) (v : positive) :
  digits v <= prec -> binary_round prec emax s v 0 = canonical s v.
Proof. intros Hd. exact (binary_round_exact s v 0 (Z.le_refl 0) Hd). Qed.

Lemma trunc_finite (s : bool) (mf : positive) (ef : Z) :
  digits mf <= prec -> ef <= 0 ->
  to_Z (trunc (S754_finite s mf ef)) = Some (cond_Zopp s (Zpos mf / 2 ^ (- ef))).
Proof.
  intros Hd He. unfold trunc.
  destruct (0 <=? ef) eqn:Hc.
  - apply Z.leb_le in Hc. assert (ef = 0) by lia. subst ef.
    cbn [to_Z Z.leb Z.compare Z.opp]. rewrite Z.pow_0_r, Z.mul_1_r, Z.div_1_r. reflexivity.
  - rewrite Z.shiftr_div_pow2 by lia.
    assert (Hp : 0 < 2 ^ (- ef)) by (apply Z.pow_pos_nonneg; lia).
    pose proof (lt_pow_digits mf prec Hd) as Hmf.
    assert (Ht0 : 0 <= Zpos mf / 2 ^ (- ef)) by (apply Z.div_pos; lia).
    assert (Ht1 : Zpos mf / 2 ^ (- ef) <= Zpos mf)
      by (apply Z.div_le_upper_bound; [lia|nia]).
    destruct (Zpos mf / 2 ^ (- ef)) as [|v|v]; [destruct s; reflexivity| |lia].
    assert (Hv : digits v <= prec) by (apply digits_le; [unfold prec; lia|lia]).
    destruct s; cbn [cond_Zopp Z.opp binary_normalize].
    + rewrite binary_round_integer by assumption. now rewrite to_Z_canonical.
    + rewrite binary_round_integer by assumption. now rewrite to_Z_canonical.
Qed.

Lemma div_eucl_div_mod (a b : Z) : Z.div_eucl a b = (a / b, a mod b).
Proof. unfold Z.div, Z.modulo. now destruct (Z.div_eucl a b). Qed.

Lemma div_core_canonical (mx my : positive) (ex ey : Z) :
  digits mx = prec -> digits my = prec -> -1021 <= ex - ey ->
  SFdiv_core_binary prec emax (Zpos mx) ex (Zpos my) ey
  = (Zpos mx * 2 ^ prec / Zpos my, ex - ey - prec,
     new_location (Zpos my) ((Zpos mx * 2 ^ prec) mod Zpos my)).
Proof.
  intros Hx Hy He. unfold SFdiv_core_binary.
  change (Zdigits2 (Z.pos mx)) with (digits mx).
  change (Zdigits2 (Z.pos my)) with (digits my).
  rewrite Hx, Hy.
  assert (Hmin : Z.min (fexp prec emax (prec + ex - (prec + ey))) (ex - ey) = ex - ey - prec)
    by (unfold fexp, emin, prec, emax; lia).
  rewrite Hmin.
  replace (ex - ey - (ex - ey - prec)) with 53 by (unfold prec; lia).
  cbv iota. rewrite Z.shiftl_mul_pow2 by lia. change 53 with prec.
  now rewrite div_eucl_div_mod.
Qed.

Lemma rne_bounds (m : Z) (l : location) :
  m <= round_nearest_even m l <= m + 1.
Proof. destruct l as [|[| |]]; cbn; try destruct (Z.even m); lia. Qed.

Lemma shr_m_of_loc (m : Z) (l : location) : shr_m (shr_record_of_loc m l) = m.
Proof. destruct l as [|[| |]]; reflexivity. Qed.

Lemma shr_m_shr_1 (p : positive) (r s : bool) :
  shr_m (shr_1 {| shr_m := Zpos p; shr_r := r; shr_s := s |}) = Zpos p / 2.
Proof.
  destruct p as [p|p|]; cbn [shr_1 shr_m].
  - apply Z.div_unique with (r := 1); lia.
  - apply Z.div_unique with (r := 0); lia.
  - reflexivity.
Qed.

Lemma quotient_margin (A B c q : Z) :
  0 < B -> 0 <= A -> 2 * B < c -> q = A * c / B ->
  (A / B) * c <= q <= (A / B) * c + c - 3.
Proof.
  intros HB HA Hc ->.
  pose proof (Z.div_mod A B ltac:(lia)) as Hdm.
  pose proof (Z.mod_pos_bound A B HB) as Hr.
  set (n := A / B) in *. set (r := A mod B) in *.
  replace (A * c) with (n * c * B + r * c) by (rewrite Hdm at 1; ring).
  rewrite Z.div_add_l by lia.
  assert (H0 : 0 <= r * c / B) by (apply Z.div_pos; nia).
  assert (H1 : r * c / B <= c - 3).
  { assert (r * c / B < c - 2); [|lia].
    apply Z.div_lt_upper_bound; [lia|]. nia. }
  lia.
Qed.

Lemma round_then_trunc (s : bool) (mx ex : Z) (lx : location)
    (mrs : shr_record) (e1 : Z) (n : Z) :
  shr_fexp prec emax mx ex lx = (mrs, e1) ->
  2 ^ (prec - 1) <= round_nearest_even (shr_m mrs) (loc_of_shr_record mrs) <= 2 ^ prec ->
  -1074 <= e1 <= -1 ->
  n * 2 ^ (- e1) <= round_nearest_even (shr_m mrs) (loc_of_shr_record mrs)
    < (n + 1) * 2 ^ (- e1) ->
  to_Z (trunc (binary_round_aux prec emax s mx ex lx)) = Some (cond_Zopp s n).
Proof.
  intros Hshr Hm He Hn.
  destruct (round_nearest_even (shr_m mrs) (loc_of_shr_record mrs)) as [|m1|m1] eqn:Hrne;
    [change (2 ^ (prec - 1)) with 4503599627370496 in Hm; lia| |lia].
  destruct (round_aux_after_shift s mx ex lx mrs e1 m1 Hshr Hrne Hm ltac:(lia))
    as (mf & ef & -> & Hd & Hef & Hval).
  pose proof (digits_bounds mf) as [Hlo _]. rewrite Hd in Hlo.
  assert (Hk : ef - e1 <= 1).
  { destruct (Z_le_gt_dec (ef - e1) 1); [assumption|].
    assert (2 ^ 2 <= 2 ^ (ef - e1)) by (apply Z.pow_le_mono_r; lia).
    change (2 ^ 2) with 4 in *. change (2 ^ prec) with (2 * 2 ^ (prec - 1)) in Hm. nia. }
  rewrite trunc_finite by lia. do 2 f_equal.
  assert (HP : 0 < 2 ^ (- ef)) by (apply Z.pow_pos_nonneg; lia).
  assert (HK : 0 < 2 ^ (ef - e1)) by (apply Z.pow_pos_nonneg; lia).
  assert (Hpow : 2 ^ (- e1) = 2 ^ (- ef) * 2 ^ (ef - e1)).
  { rewrite <- Z.pow_add_r by lia. f_equal. lia. }
  rewrite Hpow, <- Hval in Hn.
  symmetry. apply Z.div_unique with (r := Zpos mf - n * 2 ^ (- ef)); nia.
Qed.

Lemma shr_fexp_no_shift (q : positive) (E : Z) (l : location) :
  digits q = prec -> -1074 <= E ->
  shr_fexp prec emax (Zpos q) E l = (shr_record_of_loc (Zpos q) l, E).
Proof.
  intros Hd HE. unfold shr_fexp.
  change (Zdigits2 (Z.pos q)) with (digits q). rewrite Hd.
  assert (Hf : fexp prec emax (prec + E) - E = 0) by (unfold fexp, emin, prec, emax; lia).
  now rewrite Hf.
Qed.

Lemma shr_fexp_one_shift (q : positive) (E : Z) (l : location) :
  digits q = prec + 1 -> -1074 <= E ->
  shr_fexp prec emax (Zpos q) E l = (shr_1 (shr_record_of_loc (Zpos q) l), E + 1).
Proof.
  intros Hd HE. unfold shr_fexp.
  change (Zdigits2 (Z.pos q)) with (digits q). rewrite Hd.
  assert (Hf : fexp prec emax (prec + 1 + E) - E = 1) by (unfold fexp, emin, prec, emax; lia).
  now rewrite Hf.
Qed.

Lemma shr_m_shr_1_of_loc (q : positive) (l : location) :
  shr_m (shr_1 (shr_record_of_loc (Zpos q) l)) = Zpos q / 2.
Proof. destruct l as [|[| |]]; apply shr_m_shr_1. Qed.

Lemma div_canonical (sa sb : bool) (A B : positive) :
  digits A < prec -> digits B <= prec ->
  to_Z (trunc (div (canonical sa A) (canonical sb B)))
  = Some (cond_Zopp (xorb sa sb) (Zpos A / Zpos B)).
Proof.
  intros HA HB. pose proof (digits_pos A) as HA1. pose proof (digits_pos B) as HB1.
  unfold div, canonical. cbn [SFdiv].
  set (mx := shl A (prec - digits A)). set (my := shl B (prec - digits B)).
  assert (Hdx : digits mx = prec) by (subst mx; rewrite digits_shl; lia).
  assert (Hdy : digits my = prec) by (subst my; rewrite digits_shl; lia).
  rewrite div_core_canonical by (assumption || unfold prec in *; lia).
  cbv iota beta.
  set (E := digits A - prec - (digits B - prec) - prec).
  set (c := 2 ^ (- E)).
  assert (Hc : 0 < c) by (apply Z.pow_pos_nonneg; subst E; lia).
  assert (Hq : Zpos mx * 2 ^ prec / Zpos my = Zpos A * c / Zpos B).
  { subst mx my c E. rewrite !shl_val by lia.
    replace (Z.pos A * 2 ^ (prec - digits A) * 2 ^ prec)
      with (Z.pos A * 2 ^ (- (digits A - prec - (digits B - prec) - prec))
            * 2 ^ (prec - digits B)).
    - apply Z.div_mul_cancel_r; [lia|]. apply Z.pow_nonzero; lia.
    - rewrite <- !Z.mul_assoc, <- !Z.pow_add_r by lia. do 2 f_equal. lia. }
  pose proof (digits_bounds mx) as [Hxlo Hxhi]. pose proof (digits_bounds my) as [Hylo Hyhi].
  rewrite Hdx in Hxlo, Hxhi. rewrite Hdy in Hylo, Hyhi.
  assert (Hqlo : 2 ^ (prec - 1) <= Zpos mx * 2 ^ prec / Zpos my).
  { apply Z.div_le_lower_bound; [lia|].
    change (2 ^ prec) with (2 * 2 ^ (prec - 1)) in *.
    assert (0 < 2 ^ (prec - 1)) by reflexivity. nia. }
  assert (Hqhi : Zpos mx * 2 ^ prec / Zpos my < 2 ^ (prec + 1)).
  { apply Z.div_lt_upper_bound; [lia|].
    change (2 ^ (prec + 1)) with (4 * 2 ^ (prec - 1)).
    change (2 ^ prec) with (2 * 2 ^ (prec - 1)) in *.
    assert (0 < 2 ^ (prec - 1)) by reflexivity. nia. }
  assert (HcB : 2 * Zpos B < c).
  { pose proof (lt_pow_digits B (digits B) (Z.le_refl _)) as HBv.
    assert (2 ^ (digits B + 1) <= c) by (subst c E; apply Z.pow_le_mono_r; lia).
    rewrite Z.pow_add_r in * by lia. change (2 ^ 1) with 2 in *. lia. }
  pose proof (quotient_margin (Zpos A) (Zpos B) c _ ltac:(lia) ltac:(lia) HcB Hq) as Hmargin.
  set (n := Zpos A / Zpos B) in *.
  set (loc := new_location (Z.pos my) ((Z.pos mx * 2 ^ prec) mod Z.pos my)).
  destruct (Z.pos mx * 2 ^ prec / Z.pos my) as [|q|q] eqn:Eq;
    [change (2 ^ (prec - 1)) with 4503599627370496 in Hqlo; lia| |lia].
  destruct (Z_lt_le_dec (Zpos q) (2 ^ prec)) as [Hlt|Hge].
  - assert (Hdq : digits q = prec) by (apply digits_unique; lia).
    pose proof (rne_bounds (Zpos q) loc) as Hr.
    apply (round_then_trunc _ _ _ _ (shr_record_of_loc (Zpos q) loc) E).
    + apply shr_fexp_no_shift; [assumption|subst E; unfold prec in *; lia].
    + rewrite shr_m_of_loc.
      replace (loc_of_shr_record (shr_record_of_loc (Z.pos q) loc)) with loc
        by (destruct loc as [|[| |]]; reflexivity).
      lia.
    + subst E. unfold prec in *. lia.
    + rewrite shr_m_of_loc.
      replace (loc_of_shr_record (shr_record_of_loc (Z.pos q) loc)) with loc
        by (destruct loc as [|[| |]]; reflexivity).
      fold c. lia.
  - assert (Hdq : digits q = prec + 1)
      by (apply digits_unique; replace (prec + 1 - 1) with prec by lia; lia).
    set (mrs := shr_1 (shr_record_of_loc (Zpos q) loc)).
    pose proof (rne_bounds (shr_m mrs) (loc_of_shr_record mrs)) as Hr.
    assert (Hm : shr_m mrs = Zpos q / 2) by apply shr_m_shr_1_of_loc.
    assert (Hc2 : c = 2 * 2 ^ (- (E + 1))).
    { subst c. replace (- E) with (1 + - (E + 1)) by lia.
      rewrite Z.pow_add_r by (subst E; unfold prec in *; lia). reflexivity. }
    assert (Hc' : 0 < 2 ^ (- (E + 1))) by (apply Z.pow_pos_nonneg; subst E; lia).
    pose proof (Z.div_mod (Zpos q) 2 ltac:(lia)) as Hdm.
    pose proof (Z.mod_pos_bound (Zpos q) 2 ltac:(lia)) as Hmod.
    apply (round_then_trunc _ _ _ _ mrs (E + 1)).
    + apply shr_fexp_one_shift; [assumption|subst E; unfold prec in *; lia].
    + change (2 ^ (prec + 1)) with (2 * 2 ^ prec) in Hqhi.
      change (2 ^ prec) with (2 * 2 ^ (prec - 1)) in *. lia.
    + subst E. unfold prec in *. lia.
    + nia.
Qed.

Lemma quot_signed (sa sb : bool) (A B : positive) :
  Z.quot (cond_Zopp sa (Zpos A)) (cond_Zopp sb (Zpos B))
  = cond_Zopp (xorb sa sb) (Zpos A / Zpos B).
Proof.
  destruct sa, sb; cbn [cond_Zopp xorb];
    rewrite ?Z.quot_opp_opp, ?Z.quot_opp_l, ?Z.quot_opp_r by lia;
    rewrite Z.quot_div_nonneg by lia; reflexivity.
Qed.

Lemma to_Z_div_of_Z (a b : Z) :
  Z.abs a < 2 ^ (prec - 1) -> Z.abs b < 2 ^ (prec - 1) -> b <> 0 ->
  to_Z (trunc (div (of_Z a) (of_Z b))) = Some (Z.quot a b).
Proof.
  intros Ha Hb Hnb.
  destruct (of_Z_canonical b Hnb Hb) as (sb & B & -> & HB & Eb). rewrite Eb.
  destruct (Z.eq_dec a 0) as [->|Hna].
  - reflexivity.
  - destruct (of_Z_canonical a Hna Ha) as (sa & A & -> & HA & Ea). rewrite Ea.
    rewrite div_canonical by lia. now rewrite quot_signed.
Qed.

Lemma wrap32_fixed (z : Z) : wrap32 z = z <-> is_int32 z.
Proof.
  unfold wrap32, is_int32. split.
  - intros H. pose proof (Z.mod_pos_bound (z + 2 ^ 31) (2 ^ 32) ltac:(lia)). lia.
  - intros H. rewrite Z.mod_small by lia. lia.
Qed.

Lemma int32_magnitude (z : Z) : is_int32 z -> Z.abs z < 2 ^ (prec - 1).
Proof. unfold is_int32, prec. lia. Qed.

(** ** C5: 32-bit arithmetic *)

(** C5, as stated, fails: [2147483647 + 1] evaluated by [i32.add] leaves the
    number 2147483648 on the stack, where wrap-around on 32 bits gives
    -2147483648. *)
Lemma C5_add_does_not_wrap :
  exists r,
    VM.steps 3 (VM.new_VM [i32_const (of_Z 2147483647); i32_const (of_Z 1); i32_add])
    = ({| VM.stack := {| items := [I32 (Num r)] |};
          VM.instructions := [i32_const (of_Z 2147483647); i32_const (of_Z 1); i32_add];
          VM.pc := 3 |},
       Return tt)
    /\ to_Z r = Some 2147483648
    /\ wrap32 (2147483647 + 1) = -2147483648
    /\ to_Z r <> Some (wrap32 (2147483647 + 1)).
Proof.
  eexists. split; [reflexivity|]. repeat split. intros H. discriminate H.
Qed.

(** C5, amended: for every pair of i32 operands, [i32.add] and [i32.sub]
    push the mathematical sum and difference, and [i32.mul] pushes the
    mathematical product whenever its magnitude is below 2^53, none of them
    reduced modulo 2^32 (the result is the wrapped 32-bit result exactly when
    the mathematical result is itself a signed 32-bit integer, see
    [wrap32_fixed]); [i32.div_s] with a non-zero divisor pushes the quotient
    truncated toward zero. *)
Theorem C5_arithmetic_is_exact_not_wrapped (vm : VM.t) (rest : list Value) (a b : Z) :
  is_int32 a -> is_int32 b ->
  items (VM.stack vm) = rest ++ [I32 (int a); I32 (int b)] ->
  (exists v, evalFn i32_add vm = (VM_with_items vm (rest ++ [v]), Return tt)
             /\ holds_integer v (a + b))
  /\ (exists v, evalFn i32_sub vm = (VM_with_items vm (rest ++ [v]), Return tt)
                /\ holds_integer v (a - b))
  /\ (Z.abs (a * b) < 2 ^ 53 ->
      exists v, evalFn i32_mul vm = (VM_with_items vm (rest ++ [v]), Return tt)
                /\ holds_integer v (a * b))
  /\ (b <> 0 ->
      exists v, evalFn i32_div_s vm = (VM_with_items vm (rest ++ [v]), Return tt)
                /\ holds_integer v (Z.quot a b)).
Proof.
  intros Ha Hb E.
  pose proof (int32_magnitude a Ha) as Ma. pose proof (int32_magnitude b Hb) as Mb.
  assert (Hin : forall i fn, In (i, fn) binary_operations ->
                  evalFn i vm = (VM_with_items vm (rest ++ [I32 (fn (int a) (int b))]), Return tt))
    by (intros i fn Hi; rewrite (binary_operations_eval i fn Hi); now apply VM_binop_spec).
  unfold is_int32 in Ha, Hb.
  repeat split.
  - eexists. split; [apply (Hin i32_add js_add); cbn; tauto|].
    eexists. split; [reflexivity|]. cbn [ToNumber int].
    rewrite add_of_Z by assumption. apply to_Z_of_Z. unfold prec. lia.
  - eexists. split; [apply (Hin i32_sub js_sub); cbn; tauto|].
    eexists. split; [reflexivity|]. cbn [ToNumber int].
    rewrite sub_of_Z by assumption. apply to_Z_of_Z. unfold prec. lia.
  - intros Hab. eexists. split; [apply (Hin i32_mul js_mul); cbn; tauto|].
    eexists. split; [reflexivity|]. cbn [ToNumber int].
    now apply to_Z_mul_of_Z.
  - intros Hnb. eexists. split; [apply (Hin i32_div_s js_div_trunc); cbn; tauto|].
    eexists. split; [reflexivity|]. cbn [ToNumber int].
    now apply to_Z_div_of_Z.
Qed.

Lemma C5_arithmetic_witness :
  exists v,
    evalFn i32_div_s (VM_with_items (VM.new_VM []) [I32 (int (-7)); I32 (int 2)])
    = (VM_with_items (VM.new_VM []) [v], Return tt)
    /\ holds_integer v (-3).
Proof.
  apply (C5_arithmetic_is_exact_not_wrapped
           (VM_with_items (VM.new_VM []) [I32 (int (-7)); I32 (int 2)]) [] (-7) 2).
  - unfold is_int32. lia.
  - unfold is_int32. lia.
  - reflexivity.
  - lia.
Defined.

(** * Further properties of the code *)

(** ** The operand stack *)

(** A value pushed on a stack is what [peek] and [pop] return next; [peek]
    leaves it there and [pop] restores the stack from before the push. *)
Theorem Stack_push_then_peek_and_pop (s : Stack) (v : Value) :
  bind (StackM.push v) (fun _ => StackM.peek) s
  = ({| items := items s ++ [v] |}, Return v)
  /\ bind (StackM.push v) (fun _ => StackM.pop) s = (s, Return v).
Proof.
  destruct s as [xs]. unfold bind. rewrite Stack_push_spec. cbn [items].
  now rewrite Stack_peek_snoc, Stack_pop_snoc.
Qed.

Lemma array_pop_cases {A} (xs : list A) :
  (xs = [] /\ array_pop xs = (None, []))
  \/ (exists init last, xs = init ++ [last] /\ array_pop xs = (Some last, init)).
Proof.
  destruct xs as [|x xs] using rev_ind; [left; split; reflexivity|].
  right. exists xs, x. split; [reflexivity|apply array_pop_snoc].
Qed.

(** [popI32] either removes and returns the [I32] on top of the stack, or,
    when the stack is empty or its top is [undefined], throws the error
    "Expected I32 on top of stack, got undefined" and leaves the stack as it
    was. *)
Theorem Stack_popI32_returns_top_or_throws (s : Stack) :
  (exists xs c, items s = xs ++ [I32 c]
                /\ StackM.popI32 s = ({| items := xs |}, Return (I32 c)))
  \/ (StackM.popI32 s
        = (s, Throw (Error "Expected I32 on top of stack, got undefined"))
      /\ forall xs c, items s <> xs ++ [I32 c]).
Proof.
  destruct s as [xs]. cbn [items].
  destruct (array_pop_cases xs) as [[-> _]|(init & last & -> & _)].
  - right. split; [reflexivity|]. intros xs c H. destruct xs; discriminate H.
  - destruct last as [|c].
    + right. split.
      * unfold StackM.popI32, StackM.popType, StackM.assertTopIsOfType,
          StackM.topIsOfType, bind.
        rewrite Stack_peek_snoc. cbn. rewrite Stack_peek_snoc. reflexivity.
      * intros xs c H. apply app_inj_tail in H as [_ H]. discriminate H.
    + left. exists init, c. split; [reflexivity|apply Stack_popI32_snoc].
Qed.

(** ** Steps of the VM *)

Lemma bind_assoc {S A B C} (m : M S A) (k : A -> M S B) (h : B -> M S C) (s : S) :
  bind (bind m k) h s = bind m (fun a => bind (k a) h) s.
Proof. unfold bind. destruct (m s) as [s' [a|e|]]; reflexivity. Qed.

Lemma bind_ext {S A B} (m : M S A) (k k' : A -> M S B) (s : S) :
  (forall a s', k a s' = k' a s') -> bind m k s = bind m k' s.
Proof. intros H. unfold bind. destruct (m s) as [s' [a|e|]]; [apply H|reflexivity|reflexivity]. Qed.

(** [steps(m + n)] is [steps(m)] followed by [steps(n)], also when a step
    throws on the way. *)
Theorem VM_steps_add (m n : nat) (vm : VM.t) :
  VM.steps (m + n) vm = bind (VM.steps m) (fun _ => VM.steps n) vm.
Proof.
  revert vm. induction m as [|m IH]; intros vm.
  - cbn. reflexivity.
  - cbn [Nat.add VM.steps]. rewrite bind_assoc. apply bind_ext. intros _ vm'. apply IH.
Qed.

(** With [pc] outside the program, [step] of a VM and of a call frame read
    [undefined] for the instruction and throw the TypeError of its [eval];
    nothing is changed, [pc] included. *)
Theorem step_outside_the_program_throws :
  (forall vm : VM.t,
      VM.pc vm < 0 \/ len (VM.instructions vm) <= VM.pc vm ->
      VM.step vm = (vm, Throw (TypeError_property_of_undefined "eval")))
  /\ (forall f : CallFrame.t,
      CallFrame.pc f < 0 \/ len (CallFrame.instructions f) <= CallFrame.pc f ->
      CallFrame.step f = (f, Throw (TypeError_property_of_undefined "eval"))).
Proof.
  split; intros x H.
  - unfold VM.step, bind, get. now rewrite (array_get_out_of_range _ _ H).
  - unfold CallFrame.step, bind, get. now rewrite (array_get_out_of_range _ _ H).
Qed.

Lemma step_outside_the_program_throws_witness :
  VM.step (fst (VM.steps 1 (VM.new_VM [nop])))
  = (fst (VM.steps 1 (VM.new_VM [nop])), Throw (TypeError_property_of_undefined "eval"))
  /\ CallFrame.step (CallFrame.set_pc (-1) (CallFrame.new_CallFrame [nop] [] []))
     = (CallFrame.set_pc (-1) (CallFrame.new_CallFrame [nop] [] []),
        Throw (TypeError_property_of_undefined "eval")).
Proof.
  split.
  - apply (proj1 step_outside_the_program_throws). right. cbn. lia.
  - apply (proj2 step_outside_the_program_throws). left. cbn. lia.
Defined.

(** ** Array slots *)

Lemma list_set_length {A} (xs : list A) (n : nat) (v : A) :
  List.length (list_set xs n v) = List.length xs.
Proof. revert n. induction xs as [|x xs IH]; intros [|n]; cbn; auto. Qed.

Lemma nth_error_list_set_same {A} (xs : list A) (n : nat) (v : A) :
  (n < List.length xs)%nat -> nth_error (list_set xs n v) n = Some v.
Proof.
  revert n. induction xs as [|x xs IH]; intros [|n] H; cbn in *; try lia; auto.
  apply IH. lia.
Qed.

Lemma nth_error_list_set_other {A} (xs : list A) (n m : nat) (v : A) :
  n <> m -> nth_error (list_set xs n v) m = nth_error xs m.
Proof.
  revert n m. induction xs as [|x xs IH]; intros [|n] [|m] H; cbn; auto; try lia.
Qed.

Lemma array_set_len {A} (xs : list A) (i : Z) (v : A) :
  len (array_set xs i v) = len xs.
Proof. unfold array_set, len. destruct (i <? 0); [reflexivity|]. now rewrite list_set_length. Qed.

Lemma array_get_set_same {A} (xs : list A) (i : Z) (v : A) :
  0 <= i < len xs -> array_get (array_set xs i v) i = Some v.
Proof.
  unfold array_get, array_set, len. intros [H0 H1].
  assert (E : (i <? 0) = false) by (apply Z.ltb_ge; lia). rewrite E.
  apply nth_error_list_set_same. lia.
Qed.

Lemma array_get_set_other {A} (xs : list A) (i j : Z) (v : A) :
  i <> j -> array_get (array_set xs i v) j = array_get xs j.
Proof.
  unfold array_get, array_set. intros H.
  destruct (j <? 0) eqn:Ej; [reflexivity|].
  destruct (i <? 0) eqn:Ei; [reflexivity|].
  apply Z.ltb_ge in Ei, Ej. apply nth_error_list_set_other. lia.
Qed.

Lemma assertLocalIndexInRange_in_range {V} `{Runtime V}
    (l : lens V (list Value)) (index : Z) (s : V) :
  0 <= index < len (view l s) ->
  assertLocalIndexInRange (Some l) index s = (s, Return tt).
Proof.
  intros [H0 H1]. unfold assertLocalIndexInRange.
  assert (E : (index <? 0) = false) by (apply Z.ltb_ge; lia). rewrite E.
  unfold bind, get.
  assert (E2 : (index >=? len (view l s)) = false) by (rewrite Z.geb_leb; apply Z.leb_gt; lia).
  now rewrite E2.
Qed.

Lemma assertGlobalIndexInRange_in_range {V} `{Runtime V}
    (l : lens V (list Value)) (index : Z) (s : V) :
  0 <= index < len (view l s) ->
  assertGlobalIndexInRange (Some l) index s = (s, Return tt).
Proof.
  intros [H0 H1]. unfold assertGlobalIndexInRange.
  assert (E : (index <? 0) = false) by (apply Z.ltb_ge; lia). rewrite E.
  unfold bind, get.
  assert (E2 : (index >=? len (view l s)) = false) by (rewrite Z.geb_leb; apply Z.leb_gt; lia).
  now rewrite E2.
Qed.

(** ** Locals on a call frame *)

(** [local.set] followed by [local.get] of the same index, within the locals:
    the value on top of the stack is stored in the local and is back on the
    stack, so only the locals change; the slot then reads as the value and
    every other slot as before. *)
Theorem local_set_then_get (f : CallFrame.t) (bs : list BlockFrame) (b : BlockFrame)
    (rest : list Value) (v : Value) (index : Z) :
  CallFrame.blocks f = bs ++ [b] ->
  items (super b) = rest ++ [v] ->
  0 <= index < len (CallFrame.locals f) ->
  bind (evalFn (local_set index)) (fun _ => evalFn (local_get index)) f
  = (CallFrame.over_locals (fun xs => array_set xs index v) f, Return tt)
  /\ array_get (array_set (CallFrame.locals f) index v) index = Some v
  /\ forall j, j <> index ->
       array_get (array_set (CallFrame.locals f) index v) j
       = array_get (CallFrame.locals f) j.
Proof.
  intros Hb Hi Hr. split; [|split; [now apply array_get_set_same|intros j Hj; now apply array_get_set_other]].
  destruct f as [blocks prog ls p]. cbn in Hb, Hr. subst blocks.
  destruct b as [[its] ty tg]. cbn in Hi. subst its.
  unfold bind at 1. cbn [evalFn vm_locals vm_pop vm_push CallFrame.runtime].
  unfold bind at 1. rewrite assertLocalIndexInRange_in_range by exact Hr.
  unfold bind at 1.
  erewrite CallFrame_pop_snoc with (bs := bs) (xs := rest) (v := v); [|reflexivity|reflexivity].
  unfold write_slot, modify. cbn [over view].
  unfold CallFrame.over_locals, CallFrame.set_blocks, BlockFrame_with_items.
  cbn [CallFrame.blocks CallFrame.instructions CallFrame.locals CallFrame.pc
       type breakTargetPc].
  unfold bind at 1. rewrite assertLocalIndexInRange_in_range
    by (cbn [view CallFrame.locals]; now rewrite array_set_len).
  unfold bind at 1, read_slot, bind at 1, get. cbn [view CallFrame.locals].
  rewrite array_get_set_same by exact Hr. unfold ret. cbv beta iota.
  change (vm_push v) with (CallFrame.push v).
  erewrite CallFrame_push_spec with (bs := bs); [|reflexivity].
  reflexivity.
Qed.

Lemma local_set_then_get_witness :
  bind (evalFn (local_set 1)) (fun _ => evalFn (local_get 1))
    {| CallFrame.blocks :=
         [{| super := {| items := [I32 (int 7); I32 (int 42)] |}; type := [];
             breakTargetPc := 1 |}];
       CallFrame.instructions := [local_set 1; local_get 1];
       CallFrame.locals := [I32 (int 0); I32 (int 0)];
       CallFrame.pc := 0 |}
  = ({| CallFrame.blocks :=
          [{| super := {| items := [I32 (int 7); I32 (int 42)] |}; type := [];
              breakTargetPc := 1 |}];
        CallFrame.instructions := [local_set 1; local_get 1];
        CallFrame.locals := [I32 (int 0); I32 (int 42)];
        CallFrame.pc := 0 |},
     Return tt).
Proof.
  apply (local_set_then_get
           {| CallFrame.blocks :=
                [{| super := {| items := [I32 (int 7); I32 (int 42)] |}; type := [];
                    breakTargetPc := 1 |}];
              CallFrame.instructions := [local_set 1; local_get 1];
              CallFrame.locals := [I32 (int 0); I32 (int 0)];
              CallFrame.pc := 0 |}
           [] {| super := {| items := [I32 (int 7); I32 (int 42)] |}; type := [];
                 breakTargetPc := 1 |}
           [I32 (int 7)] (I32 (int 42)) 1).
  - reflexivity.
  - reflexivity.
  - cbn. lia.
Defined.

(** On a call frame with a current block, [local.tee] followed by [drop]
    does what [local.set] does: the same state and the same outcome, the
    errors for an index out of range included. *)
Theorem local_tee_then_drop_is_local_set (f : CallFrame.t) (bs : list BlockFrame) (b : BlockFrame)
    (index : Z) :
  CallFrame.blocks f = bs ++ [b] ->
  bind (evalFn (local_tee index)) (fun _ => evalFn drop) f = evalFn (local_set index) f.
Proof.
  intros Hb.
  destruct f as [blocks prog ls p]. cbn in Hb. subst blocks.
  destruct b as [[its] ty tg].
  cbn [evalFn vm_locals vm_pop vm_peek CallFrame.runtime].
  destruct (Z_lt_le_dec index 0) as [Hneg|H0]; [|destruct (Z_lt_le_dec index (len ls)) as [Hin|Hout]].
  - unfold bind. rewrite assertLocalIndexInRange_out_of_range by (left; exact Hneg). reflexivity.
  - unfold bind. rewrite assertLocalIndexInRange_in_range by (cbn; lia).
    unfold CallFrame.peek, CallFrame.pop, CallFrame.on_currentBlock, on_last.
    cbn [CallFrame.blocks]. rewrite array_pop_snoc. unfold inherited. cbn [super].
    destruct (array_pop_cases its) as [[-> _]|(init & last & -> & _)].
    + cbn. rewrite array_pop_snoc. reflexivity.
    + rewrite Stack_peek_snoc, Stack_pop_snoc.
      cbn [write_slot modify vm_locals CallFrame.runtime over CallFrame.over_locals
           CallFrame.set_blocks CallFrame.blocks CallFrame.instructions CallFrame.locals
           CallFrame.pc ret].
      rewrite array_pop_snoc. cbn [super]. rewrite Stack_pop_snoc. reflexivity.
  - unfold bind. rewrite assertLocalIndexInRange_out_of_range by (right; cbn; exact Hout). reflexivity.
Qed.

Lemma local_tee_then_drop_is_local_set_witness :
  bind (evalFn (local_tee 0)) (fun _ => evalFn drop)
    {| CallFrame.blocks :=
         [{| super := {| items := [I32 (int 42)] |}; type := []; breakTargetPc := 1 |}];
       CallFrame.instructions := [local_tee 0; drop];
       CallFrame.locals := [I32 (int 0)];
       CallFrame.pc := 0 |}
  = evalFn (local_set 0)
      {| CallFrame.blocks :=
           [{| super := {| items := [I32 (int 42)] |}; type := []; breakTargetPc := 1 |}];
         CallFrame.instructions := [local_tee 0; drop];
         CallFrame.locals := [I32 (int 0)];
         CallFrame.pc := 0 |}.
Proof.
  apply (local_tee_then_drop_is_local_set _ []
           {| super := {| items := [I32 (int 42)] |}; type := []; breakTargetPc := 1 |} 0).
  reflexivity.
Defined.

(** ** The scans, from both ends *)

Lemma scan_sound (closes opens : string -> bool) (prog : list Instruction) :
  forall (fuel : nat) (remainingBlocks pc p : Z),
    CallFrame.scan closes opens prog fuel remainingBlocks pc = Return p ->
    (remainingBlocks <= 0 /\ p = pc)
    \/ (0 < remainingBlocks /\ pc < p
        /\ exists i, array_get prog p = Some i /\ closes (name i) = true).
Proof.
  induction fuel as [|fuel IH]; intros remainingBlocks pc p H; [discriminate H|].
  cbn [CallFrame.scan] in H.
  destruct (remainingBlocks >? 0) eqn:Hr.
  - apply Z.gtb_lt in Hr. right.
    destruct (array_get prog (pc + 1)) as [i|] eqn:Ei; [|discriminate H].
    destruct (closes (name i)) eqn:Hc; [|destruct (opens (name i))].
    + apply IH in H as [[H0 ->]|(H0 & Hlt & Hex)].
      * repeat split; [lia|lia|]. now exists i.
      * repeat split; [lia|lia|exact Hex].
    + apply IH in H as [[H0 ->]|(H0 & Hlt & Hex)]; [lia|].
      repeat split; [lia|lia|exact Hex].
    + apply IH in H as [[H0 ->]|(H0 & Hlt & Hex)]; [lia|].
      repeat split; [lia|lia|exact Hex].
  - left. injection H as <-. split; [|reflexivity].
    destruct (Z_le_gt_dec remainingBlocks 0); [assumption|].
    assert ((remainingBlocks >? 0) = true) by (apply Z.gtb_lt; lia). congruence.
Qed.

Lemma name_end (i : Instruction) : String.eqb (name i) "end" = true -> i = end_.
Proof. destruct i; cbn; intros H; try discriminate H; reflexivity. Qed.

Lemma name_else (i : Instruction) : String.eqb (name i) "else" = true -> i = else_.
Proof. destruct i; cbn; intros H; try discriminate H; reflexivity. Qed.

Lemma findMatching_sound (f : CallFrame.t) (p : Z) :
  (snd (CallFrame.findMatchingEndPc f) = Return p ->
     CallFrame.pc f < p /\ array_get (CallFrame.instructions f) p = Some end_)
  /\ (snd (CallFrame.findMatchingElsePc f) = Return p ->
        CallFrame.pc f < p /\ array_get (CallFrame.instructions f) p = Some else_).
Proof.
  unfold CallFrame.findMatchingEndPc, CallFrame.findMatchingElsePc. cbn [snd].
  split; intros H; apply scan_sound in H as [[H0 _]|(_ & Hlt & i & Hi & Hc)];
    try lia; split; try assumption.
  - now apply name_end in Hc as ->.
  - now apply name_else in Hc as ->.
Qed.

Lemma array_get_middle {A} (pre : list A) (x : A) (post : list A) :
  array_get (pre ++ x :: post) (len pre) = Some x.
Proof.
  unfold array_get, len.
  assert (E : (Z.of_nat (List.length pre) <? 0) = false) by (apply Z.ltb_ge; lia).
  rewrite E, Nat2Z.id. now rewrite nth_error_app2, Nat.sub_diag by lia.
Qed.

Lemma len_app {A} (xs ys : list A) : len (xs ++ ys) = len xs + len ys.
Proof. unfold len. rewrite length_app. lia. Qed.

Lemma len_cons {A} (x : A) (xs : list A) : len (x :: xs) = 1 + len xs.
Proof. unfold len. cbn [List.length]. lia. Qed.

Lemma len_nonneg {A} (xs : list A) : 0 <= len xs.
Proof. unfold len. lia. Qed.

Lemma scan_flat (closes opens : string -> bool) (seg : list Instruction) :
  forall (pre : list Instruction) (c : Instruction) (post : list Instruction) (fuel : nat),
    Forall (fun i => closes (name i) = false /\ opens (name i) = false) seg ->
    closes (name c) = true ->
    (List.length seg + 2 <= fuel)%nat ->
    CallFrame.scan closes opens (pre ++ seg ++ c :: post) fuel 1 (len pre - 1)
    = Return (len pre + len seg).
Proof.
  induction seg as [|i seg IH]; intros pre c post fuel Hseg Hc Hfuel.
  - destruct fuel as [|[|fuel]]; cbn [List.length] in Hfuel; try lia.
    cbn [CallFrame.scan app]. replace (len pre - 1 + 1) with (len pre) by lia.
    rewrite array_get_middle, Hc. cbn [CallFrame.scan Z.sub Z.add Z.opp Z.pos_sub Z.gtb Z.compare].
    f_equal. unfold len. cbn [List.length]. lia.
  - destruct fuel as [|fuel]; cbn [List.length] in Hfuel; try lia.
    inversion Hseg as [|? ? [Hi1 Hi2] Hrest]; subst.
    cbn [CallFrame.scan]. change (1 >? 0) with true. cbv iota.
    replace (len pre - 1 + 1) with (len pre) by lia.
    change ((i :: seg) ++ c :: post) with (i :: (seg ++ c :: post)).
    rewrite array_get_middle, Hi1, Hi2.
    replace (pre ++ i :: seg ++ c :: post) with ((pre ++ [i]) ++ seg ++ c :: post)
      by (rewrite <- app_assoc; reflexivity).
    replace (len pre) with (len (pre ++ [i]) - 1) at 1
      by (rewrite len_app; unfold len; cbn [List.length]; lia).
    rewrite IH by (assumption || lia).
    f_equal. rewrite len_app, !len_cons. unfold len. cbn [List.length]. lia.
Qed.

(** ** Branches *)

Lemma pop_more_spec (more : list BlockFrame) :
  forall (f : CallFrame.t) (bs : list BlockFrame) (b : BlockFrame),
    CallFrame.blocks f = bs ++ more ->
    CallFrame.pop_more (List.length more) (Some b) f
    = (CallFrame.set_blocks bs f, Return (Some (hd b more))).
Proof.
  induction more as [|m more IH] using rev_ind; intros f bs b Hb.
  - cbn. unfold ret. rewrite app_nil_r in Hb. destruct f; cbn in *; now subst.
  - rewrite length_app, Nat.add_1_r. cbn [CallFrame.pop_more].
    unfold bind, CallFrame.popFrame. rewrite Hb, app_assoc, array_pop_snoc.
    rewrite (IH _ bs m) by reflexivity.
    f_equal. f_equal. destruct more; reflexivity.
Qed.

(** [br(labelidx)] on a call frame with more than [labelidx] block frames
    removes the [labelidx + 1] innermost ones and sets [pc] to the break
    target of the last one removed. *)
Theorem br_pops_frames_up_to_label (f : CallFrame.t) (bs : list BlockFrame) (b : BlockFrame)
    (more : list BlockFrame) (labelidx : Z) :
  CallFrame.blocks f = bs ++ b :: more ->
  List.length more = Z.to_nat labelidx ->
  evalFn (br labelidx) f
  = (CallFrame.set_pc (breakTargetPc b) (CallFrame.set_blocks bs f), Return tt).
Proof.
  intros Hb Hn. cbn [evalFn vm_breakToLabel CallFrame.runtime].
  unfold CallFrame.breakToLabel, bind at 1. rewrite <- Hn. clear Hn.
  destruct (array_pop_cases more) as [[-> _]|(more' & m & -> & _)].
  - unfold CallFrame.popFrame. rewrite Hb, array_pop_snoc. reflexivity.
  - unfold CallFrame.popFrame. rewrite Hb, app_comm_cons, app_assoc, array_pop_snoc.
    unfold bind. rewrite length_app, Nat.add_1_r.
    change (S (List.length more')) with (List.length (b :: more')).
    rewrite (pop_more_spec (b :: more') _ bs m) by reflexivity.
    reflexivity.
Qed.

Lemma br_pops_frames_up_to_label_witness :
  evalFn (br 1)
    {| CallFrame.blocks := [new_BlockFrame [] 9; new_BlockFrame [] 7; new_BlockFrame [] 5];
       CallFrame.instructions := [];
       CallFrame.locals := [];
       CallFrame.pc := 3 |}
  = ({| CallFrame.blocks := [new_BlockFrame [] 9];
        CallFrame.instructions := [];
        CallFrame.locals := [];
        CallFrame.pc := 7 |},
     Return tt).
Proof.
  apply (br_pops_frames_up_to_label
           {| CallFrame.blocks :=
                [new_BlockFrame [] 9; new_BlockFrame [] 7; new_BlockFrame [] 5];
              CallFrame.instructions := [];
              CallFrame.locals := [];
              CallFrame.pc := 3 |}
           [new_BlockFrame [] 9] (new_BlockFrame [] 7) [new_BlockFrame [] 5] 1);
    reflexivity.
Defined.




(** ** The end of [run] *)

Lemma run_returns_finished (fuel : nat) :
  forall f g : CallFrame.t,
    CallFrame.run fuel f = (g, Return tt) -> CallFrame.finished g = true.
Proof.
  induction fuel as [|fuel IH]; intros f g H; [discriminate H|].
  cbn [CallFrame.run] in H. unfold bind at 1, get in H.
  destruct (CallFrame.finished f) eqn:Hf; cbn [negb] in H.
  - injection H as <-. exact Hf.
  - unfold bind in H. destruct (CallFrame.step f) as [f' [[]|e|]]; try discriminate H.
    now apply IH in H.
Qed.

(** When [run] returns, the frame is finished: [pc] is the length of the
    program. *)
Theorem run_ends_finished (fuel : nat) (f : CallFrame.t) :
  snd (CallFrame.run fuel f) = Return tt ->
  CallFrame.finished (fst (CallFrame.run fuel f)) = true
  /\ CallFrame.pc (fst (CallFrame.run fuel f))
     = len (CallFrame.instructions (fst (CallFrame.run fuel f))).
Proof.
  intros H. destruct (CallFrame.run fuel f) as [g r] eqn:E. cbn [fst snd] in *. subst r.
  pose proof (run_returns_finished fuel f g E) as Hf. split; [exact Hf|].
  unfold CallFrame.finished in Hf. now apply Z.eqb_eq in Hf.
Qed.

Lemma run_ends_finished_witness :
  CallFrame.finished
    (fst (CallFrame.run 4
            (CallFrame.new_CallFrame [i32_const (of_Z 1); i32_const (of_Z 2); i32_add] [] [])))
  = true
  /\ CallFrame.pc
       (fst (CallFrame.run 4
               (CallFrame.new_CallFrame [i32_const (of_Z 1); i32_const (of_Z 2); i32_add]
                                        [] [])))
     = len (CallFrame.instructions
              (fst (CallFrame.run 4
                      (CallFrame.new_CallFrame
                         [i32_const (of_Z 1); i32_const (of_Z 2); i32_add] [] [])))).
Proof.
  apply (run_ends_finished 4
           (CallFrame.new_CallFrame [i32_const (of_Z 1); i32_const (of_Z 2); i32_add] [] [])).
  reflexivity.
Defined.

(** ** Comparisons of integers held in binary64 *)

Lemma digits_lt_compare (A B : positive) :
  digits A < digits B -> Zpos A < Zpos B.
Proof.
  intros H. pose proof (digits_bounds A) as [_ HA]. pose proof (digits_bounds B) as [HB _].
  pose proof (digits_pos A).
  assert (2 ^ digits A <= 2 ^ (digits B - 1)) by (apply Z.pow_le_mono_r; lia). lia.
Qed.

Lemma compare_canonical_same_sign (A B : positive) :
  digits A <= prec -> digits B <= prec ->
  SFcompare (canonical false A) (canonical false B) = Some (Zpos A ?= Zpos B)
  /\ SFcompare (canonical true A) (canonical true B) = Some (CompOpp (Zpos A ?= Zpos B)).
Proof.
  intros HA HB. unfold canonical. cbn [SFcompare].
  destruct (digits A - prec ?= digits B - prec) eqn:He.
  - apply Z.compare_eq in He. assert (Hd : digits A = digits B) by lia.
    change (Pos.compare_cont Eq) with Pos.compare.
    rewrite Pos2Z.inj_compare, !shl_val, Hd by lia.
    rewrite <- Zmult_compare_compat_r
      by (apply Z.lt_gt, Z.pow_pos_nonneg; lia).
    split; reflexivity.
  - pose proof (proj1 (Z.compare_lt_iff _ _) He) as He'.
    assert (Hlt : Zpos A < Zpos B) by (apply digits_lt_compare; lia).
    rewrite (proj2 (Z.compare_lt_iff _ _) Hlt). split; reflexivity.
  - pose proof (proj1 (Z.compare_gt_iff _ _) He) as He'.
    assert (Hlt : Zpos B < Zpos A) by (apply digits_lt_compare; lia).
    rewrite (proj2 (Z.compare_gt_iff _ _) Hlt). split; reflexivity.
Qed.

Lemma compare_of_Z (a b : Z) :
  Z.abs a < 2 ^ (prec - 1) -> Z.abs b < 2 ^ (prec - 1) ->
  SFcompare (of_Z a) (of_Z b) = Some (a ?= b).
Proof.
  intros Ha Hb.
  destruct (Z.eq_dec a 0) as [->|Hna]; destruct (Z.eq_dec b 0) as [->|Hnb].
  - reflexivity.
  - destruct (of_Z_canonical b Hnb Hb) as (s & v & -> & _ & E). rewrite E.
    destruct s; reflexivity.
  - destruct (of_Z_canonical a Hna Ha) as (s & v & -> & _ & E). rewrite E.
    destruct s; reflexivity.
  - destruct (of_Z_canonical a Hna Ha) as (sa & A & -> & HA & Ea).
    destruct (of_Z_canonical b Hnb Hb) as (sb & B & -> & HB & Eb).
    rewrite Ea, Eb.
    destruct (compare_canonical_same_sign A B ltac:(lia) ltac:(lia)) as [Hpp Hnn].
    destruct sa, sb; cbn [cond_Zopp].
    + rewrite Hnn, Z.compare_opp. now rewrite (Z.compare_antisym (Zpos A) (Zpos B)).
    + reflexivity.
    + reflexivity.
    + exact Hpp.
Qed.

Lemma relations_of_Z (a b : Z) :
  Z.abs a < 2 ^ (prec - 1) -> Z.abs b < 2 ^ (prec - 1) ->
  Number.eqb (of_Z a) (of_Z b) = (a =? b)
  /\ Number.ltb (of_Z a) (of_Z b) = (a <? b)
  /\ Number.leb (of_Z a) (of_Z b) = (a <=? b).
Proof.
  intros Ha Hb. unfold Number.eqb, Number.ltb, Number.leb, SFeqb, SFltb, SFleb.
  rewrite compare_of_Z by assumption.
  rewrite Z.eqb_compare. unfold Z.ltb, Z.leb.
  destruct (a ?= b); repeat split.
Qed.

(** The six comparisons on 32-bit integers: with [a] second from the top and
    [b] on top of the stack, each pops both and pushes 1 when the integers
    compare as its name says, [a] on the left, and 0 otherwise. *)
Theorem relops_compare_int32 (vm : VM.t) (rest : list Value) (a b : Z) :
  is_int32 a -> is_int32 b ->
  items (VM.stack vm) = rest ++ [I32 (int a); I32 (int b)] ->
  evalFn i32_eq vm
  = (VM_with_items vm (rest ++ [I32 (int (if a =? b then 1 else 0))]), Return tt)
  /\ evalFn i32_ne vm
     = (VM_with_items vm (rest ++ [I32 (int (if negb (a =? b) then 1 else 0))]), Return tt)
  /\ evalFn i32_lt_s vm
     = (VM_with_items vm (rest ++ [I32 (int (if a <? b then 1 else 0))]), Return tt)
  /\ evalFn i32_gt_s vm
     = (VM_with_items vm (rest ++ [I32 (int (if b <? a then 1 else 0))]), Return tt)
  /\ evalFn i32_le_s vm
     = (VM_with_items vm (rest ++ [I32 (int (if a <=? b then 1 else 0))]), Return tt)
  /\ evalFn i32_ge_s vm
     = (VM_with_items vm (rest ++ [I32 (int (if b <=? a then 1 else 0))]), Return tt).
Proof.
  intros Ha Hb E.
  pose proof (int32_magnitude a Ha) as Ma. pose proof (int32_magnitude b Hb) as Mb.
  destruct (relations_of_Z a b Ma Mb) as (Heq & Hlt & Hle).
  destruct (relations_of_Z b a Mb Ma) as (_ & Hgt & Hge).
  assert (Hin : forall i fn, In (i, fn) binary_operations ->
                  evalFn i vm = (VM_with_items vm (rest ++ [I32 (fn (int a) (int b))]), Return tt))
    by (intros i fn Hi; rewrite (binary_operations_eval i fn Hi); now apply VM_binop_spec).
  assert (Hb01 : forall r : bool, js_bool r = int (if r then 1 else 0))
    by (intros []; reflexivity).
  repeat split.
  - rewrite (Hin i32_eq (fun c1 c2 => js_bool (strict_eq c1 c2))) by (cbn; tauto).
    change (strict_eq (int a) (int b)) with (eqb (of_Z a) (of_Z b)).
    now rewrite Heq, Hb01.
  - rewrite (Hin i32_ne (fun c1 c2 => js_bool (negb (strict_eq c1 c2)))) by (cbn; tauto).
    change (strict_eq (int a) (int b)) with (eqb (of_Z a) (of_Z b)).
    now rewrite Heq, Hb01.
  - rewrite (Hin i32_lt_s (fun c1 c2 => js_bool (Number.ltb (ToNumber c1) (ToNumber c2))))
      by (cbn; tauto).
    change (ltb (ToNumber (int a)) (ToNumber (int b))) with (ltb (of_Z a) (of_Z b)).
    now rewrite Hlt, Hb01.
  - rewrite (Hin i32_gt_s (fun c1 c2 => js_bool (Number.ltb (ToNumber c2) (ToNumber c1))))
      by (cbn; tauto).
    change (ltb (ToNumber (int b)) (ToNumber (int a))) with (ltb (of_Z b) (of_Z a)).
    now rewrite Hgt, Hb01.
  - rewrite (Hin i32_le_s (fun c1 c2 => js_bool (Number.leb (ToNumber c1) (ToNumber c2))))
      by (cbn; tauto).
    change (leb (ToNumber (int a)) (ToNumber (int b))) with (leb (of_Z a) (of_Z b)).
    now rewrite Hle, Hb01.
  - rewrite (Hin i32_ge_s (fun c1 c2 => js_bool (Number.leb (ToNumber c2) (ToNumber c1))))
      by (cbn; tauto).
    change (leb (ToNumber (int b)) (ToNumber (int a))) with (leb (of_Z b) (of_Z a)).
    now rewrite Hge, Hb01.
Qed.

Lemma relops_compare_int32_witness :
  evalFn i32_lt_s (VM_with_items (VM.new_VM []) [I32 (int (-3)); I32 (int 5)])
  = (VM_with_items (VM.new_VM []) [I32 (int 1)], Return tt)
  /\ evalFn i32_ge_s (VM_with_items (VM.new_VM []) [I32 (int (-3)); I32 (int 5)])
     = (VM_with_items (VM.new_VM []) [I32 (int 0)], Return tt).
Proof.
  destruct (relops_compare_int32
              (VM_with_items (VM.new_VM []) [I32 (int (-3)); I32 (int 5)]) [] (-3) 5)
    as (_ & _ & Hlt & _ & _ & Hge).
  - unfold is_int32. lia.
  - unfold is_int32. lia.
  - reflexivity.
  - split; [exact Hlt|exact Hge].
Defined.

(** ** What straight-line instructions leave alone *)

Lemma preserves_bind {S A B} (P : S -> Prop) (m : M S A) (k : A -> M S B) :
  preserves P m -> (forall a, preserves P (k a)) -> preserves P (bind m k).
Proof.
  intros Hm Hk s Hs. unfold bind. specialize (Hm s Hs).
  destruct (m s) as [s' [a|e|]]; cbn [fst] in *; [now apply Hk|assumption|assumption].
Qed.

Lemma preserves_unchanged {S A} (P : S -> Prop) (m : M S A) :
  (forall s, fst (m s) = s) -> preserves P m.
Proof. intros H s Hs. now rewrite H. Qed.

Lemma assertLocalIndexInRange_unchanged {V} `{Runtime V}
    (l : option (lens V (list Value))) (index : Z) (s : V) :
  fst (assertLocalIndexInRange l index s) = s.
Proof.
  unfold assertLocalIndexInRange. destruct (index <? 0); [reflexivity|].
  destruct l as [l|]; [|reflexivity].
  unfold bind, get. destruct (index >=? len (view l s)); reflexivity.
Qed.

Lemma assertGlobalIndexInRange_unchanged {V} `{Runtime V}
    (l : option (lens V (list Value))) (index : Z) (s : V) :
  fst (assertGlobalIndexInRange l index s) = s.
Proof.
  unfold assertGlobalIndexInRange. destruct (index <? 0); [reflexivity|].
  destruct l as [l|]; [|reflexivity].
  unfold bind, get. destruct (index >=? len (view l s)); reflexivity.
Qed.

Lemma read_slot_unchanged {V} `{Runtime V}
    (l : option (lens V (list Value))) (index : Z) (s : V) :
  fst (read_slot l index s) = s.
Proof.
  unfold read_slot. destruct l as [l|]; [|reflexivity].
  unfold bind, get. destruct (array_get (view l s) index); reflexivity.
Qed.

Lemma value_of_unchanged {V} `{Runtime V} (c : Value) (s : V) :
  fst (value_of c s) = s.
Proof. destruct c; reflexivity. Qed.

Lemma on_currentBlock_inside {A} (bs : list BlockFrame) (tgt : Z)
    (prog : list Instruction) (p : Z) (prop : string) (m : M Stack A) :
  preserves (inside bs tgt prog p) (CallFrame.on_currentBlock prop m).
Proof.
  intros g (Hi & Hp & top & Hb & Ht).
  unfold CallFrame.on_currentBlock, on_last. rewrite Hb, array_pop_snoc.
  unfold inherited. destruct (m (super top)) as [s' r]. cbn [fst].
  repeat split; [assumption|assumption|]. eexists. split; [reflexivity|exact Ht].
Qed.

Lemma write_local_inside (bs : list BlockFrame) (tgt : Z) (prog : list Instruction)
    (p : Z) (index : Z) (value : Value) :
  preserves (inside bs tgt prog p)
    (write_slot (@vm_locals CallFrame.t _) index value).
Proof.
  intros g (Hi & Hp & top & Hb & Ht). repeat split; try assumption. now exists top.
Qed.

Lemma straight_line_inside (bs : list BlockFrame) (tgt : Z) (prog : list Instruction)
    (p : Z) (i : Instruction) :
  straight_line i = true ->
  preserves (inside bs tgt prog p) (@evalFn CallFrame.t _ i).
Proof.
  intros Hi.
  destruct i; try discriminate Hi; cbn [evalFn]; unfold relop, binop;
    cbn [vm_push vm_pop vm_peek vm_popI32 CallFrame.runtime];
    unfold CallFrame.push, CallFrame.pop, CallFrame.peek, CallFrame.popI32;
    repeat first
      [ apply on_currentBlock_inside
      | apply write_local_inside
      | apply preserves_unchanged; intros ?;
        first [ apply assertLocalIndexInRange_unchanged
              | apply read_slot_unchanged | apply value_of_unchanged
              | reflexivity ]
      | apply preserves_bind; [|intros ?] ].
Qed.

(** ** Blocks, loops and conditionals *)

Lemma CallFrame_steps_add (m n : nat) (f : CallFrame.t) :
  CallFrame.steps (m + n) f = bind (CallFrame.steps m) (fun _ => CallFrame.steps n) f.
Proof.
  revert f. induction m as [|m IH]; intros f.
  - cbn. reflexivity.
  - cbn [Nat.add CallFrame.steps]. rewrite bind_assoc. apply bind_ext. intros _ f'. apply IH.
Qed.

Lemma step_straight_line (bs : list BlockFrame) (tgt : Z) (prog : list Instruction)
    (p : Z) (i : Instruction) (g : CallFrame.t) :
  inside bs tgt prog p g -> array_get prog p = Some i -> straight_line i = true ->
  match CallFrame.step g with
  | (g', Return _) => inside bs tgt prog (p + 1) g'
  | (g', _) => inside bs tgt prog p g'
  end.
Proof.
  intros Hin Hi Hs.
  pose proof (straight_line_inside bs tgt prog p i Hs g Hin) as Hg.
  destruct Hin as (Hprog & Hpc & _).
  rewrite (CallFrame_step_at g i) by (now rewrite Hprog, Hpc).
  unfold bind. destruct (evalFn i g) as [g' [[]|e|]]; cbn [fst] in Hg; try exact Hg.
  destruct Hg as (Hprog' & Hpc' & top & Hb & Ht).
  unfold modify. repeat split; cbn; [assumption|lia|now exists top].
Qed.

Lemma steps_straight_line (bs : list BlockFrame) (tgt : Z) (seg : list Instruction) :
  forall (pre post : list Instruction) (g : CallFrame.t),
    inside bs tgt (pre ++ seg ++ post) (len pre) g ->
    forallb straight_line seg = true ->
    match CallFrame.steps (List.length seg) g with
    | (g', Return _) => inside bs tgt (pre ++ seg ++ post) (len pre + len seg) g'
    | (g', _) => exists p, inside bs tgt (pre ++ seg ++ post) p g'
    end.
Proof.
  induction seg as [|i seg IH]; intros pre post g Hin Hs.
  - cbn. now rewrite Z.add_0_r.
  - cbn [forallb] in Hs. apply andb_prop in Hs as [Hi Hs].
    cbn [List.length CallFrame.steps]. unfold bind.
    pose proof (step_straight_line bs tgt _ _ i g Hin (array_get_middle pre i (seg ++ post)) Hi)
      as Hstep.
    destruct (CallFrame.step g) as [g1 [[]|e|]]; [|now exists (len pre)|now exists (len pre)].
    specialize (IH (pre ++ [i]) post g1).
    rewrite <- app_assoc, len_app in IH. cbn [app] in IH.
    change (len [i]) with 1 in IH.
    specialize (IH Hstep Hs).
    replace (len pre + len (i :: seg)) with (len pre + 1 + len seg)
      by (rewrite len_cons; lia).
    exact IH.
Qed.

Lemma array_get_after {A} (pre seg : list A) (x : A) (post : list A) :
  array_get (pre ++ seg ++ x :: post) (len pre + len seg) = Some x.
Proof. rewrite app_assoc, <- len_app. apply array_get_middle. Qed.

(** A straight-line body followed by [end]: the block frame is popped and
    execution goes on after the [end]. *)
Lemma body_then_end (bs : list BlockFrame) (tgt : Z) (pre body post : list Instruction)
    (g : CallFrame.t) :
  inside bs tgt (pre ++ body ++ end_ :: post) (len pre) g ->
  forallb straight_line body = true ->
  match CallFrame.steps (List.length body + 1) g with
  | (g', Return _) =>
      CallFrame.blocks g' = bs /\ CallFrame.pc g' = len pre + len body + 1
      /\ CallFrame.instructions g' = pre ++ body ++ end_ :: post
  | (g', _) => CallFrame.instructions g' = pre ++ body ++ end_ :: post
  end.
Proof.
  intros Hin Hs. rewrite CallFrame_steps_add. unfold bind.
  pose proof (steps_straight_line bs tgt body pre (end_ :: post) g Hin Hs) as H.
  destruct (CallFrame.steps (List.length body) g) as [g1 [[]|e|]];
    [|now destruct H as (p & ? & _)|now destruct H as (p & ? & _)].
  destruct H as (Hprog & Hpc & top & Hb & _).
  cbn [CallFrame.steps]. unfold bind at 1.
  rewrite (CallFrame_step_at g1 end_) by (rewrite Hprog, Hpc; apply array_get_after).
  unfold bind at 1. cbn [evalFn]. unfold blocks_member.
  cbn [vm_blocks CallFrame.runtime bs_popFrame].
  unfold bind at 1, CallFrame.popFrame. rewrite Hb, array_pop_snoc.
  cbn. repeat split; [lia|assumption].
Qed.

(** A straight-line body followed by [else]: the block frame is popped and
    execution goes on after its break target. *)
Lemma body_then_else (bs : list BlockFrame) (tgt : Z) (pre body post : list Instruction)
    (g : CallFrame.t) :
  inside bs tgt (pre ++ body ++ else_ :: post) (len pre) g ->
  forallb straight_line body = true ->
  match CallFrame.steps (List.length body + 1) g with
  | (g', Return _) =>
      CallFrame.blocks g' = bs /\ CallFrame.pc g' = tgt + 1
      /\ CallFrame.instructions g' = pre ++ body ++ else_ :: post
  | (g', _) => CallFrame.instructions g' = pre ++ body ++ else_ :: post
  end.
Proof.
  intros Hin Hs. rewrite CallFrame_steps_add. unfold bind.
  pose proof (steps_straight_line bs tgt body pre (else_ :: post) g Hin Hs) as H.
  destruct (CallFrame.steps (List.length body) g) as [g1 [[]|e|]];
    [|now destruct H as (p & ? & _)|now destruct H as (p & ? & _)].
  destruct H as (Hprog & Hpc & top & Hb & Ht).
  cbn [CallFrame.steps]. unfold bind at 1.
  rewrite (CallFrame_step_at g1 else_) by (rewrite Hprog, Hpc; apply array_get_after).
  unfold bind at 1. cbn [evalFn]. unfold blocks_member.
  cbn [vm_blocks CallFrame.runtime bs_popFrame].
  unfold bind at 1, CallFrame.popFrame. rewrite Hb, array_pop_snoc.
  cbn. repeat split; [lia|assumption].
Qed.

Lemma not_structural_end_scan (seg : list Instruction) :
  forallb (fun i => negb (structural i)) seg = true ->
  Forall (fun i => String.eqb (name i) "end" = false
                   /\ (String.eqb (name i) "block" || String.eqb (name i) "loop"
                       || String.eqb (name i) "if") = false) seg.
Proof.
  intros H. apply Forall_forall. intros i Hi.
  apply (proj1 (forallb_forall _ _) H) in Hi.
  destruct i; try discriminate Hi; split; reflexivity.
Qed.

Lemma not_structural_else_scan (seg : list Instruction) :
  forallb (fun i => negb (structural i)) seg = true ->
  Forall (fun i => String.eqb (name i) "else" = false
                   /\ String.eqb (name i) "if" = false) seg.
Proof.
  intros H. apply Forall_forall. intros i Hi.
  apply (proj1 (forallb_forall _ _) H) in Hi.
  destruct i; try discriminate Hi; split; reflexivity.
Qed.

Lemma straight_line_not_structural (seg : list Instruction) :
  forallb straight_line seg = true ->
  forallb (fun i => negb (structural i)) seg = true.
Proof.
  intros H. apply forallb_forall. intros i Hi.
  apply (proj1 (forallb_forall _ _) H) in Hi. destruct i; try discriminate Hi; reflexivity.
Qed.

(** The scan of [findMatchingEndPc] from the instruction before a segment
    free of block structure that an [end] follows. *)
Lemma findMatchingEndPc_flat (f : CallFrame.t) (pre : list Instruction) (o : Instruction)
    (seg post : list Instruction) :
  CallFrame.instructions f = pre ++ o :: seg ++ end_ :: post ->
  CallFrame.pc f = len pre ->
  Forall (fun i => String.eqb (name i) "end" = false
                   /\ (String.eqb (name i) "block" || String.eqb (name i) "loop"
                       || String.eqb (name i) "if") = false) seg ->
  CallFrame.findMatchingEndPc f = (f, Return (len pre + len seg + 1)).
Proof.
  intros Hprog Hpc Hseg. unfold CallFrame.findMatchingEndPc. f_equal.
  rewrite Hprog, Hpc.
  replace (pre ++ o :: seg ++ end_ :: post) with ((pre ++ [o]) ++ seg ++ end_ :: post)
    by (rewrite <- app_assoc; reflexivity).
  replace (len pre) with (len (pre ++ [o]) - 1)
    by (rewrite len_app; change (len [o]) with 1; lia).
  rewrite scan_flat; [|exact Hseg|reflexivity|].
  - f_equal. rewrite len_app. change (len [o]) with 1. lia.
  - unfold CallFrame.scan_fuel. rewrite !length_app. cbn [List.length]. lia.
Qed.

Lemma evalFn_block_flat (f : CallFrame.t) (pre body post : list Instruction) :
  CallFrame.instructions f = pre ++ block :: body ++ end_ :: post ->
  CallFrame.pc f = len pre ->
  forallb (fun i => negb (structural i)) body = true ->
  evalFn block f
  = (CallFrame.set_blocks
       (CallFrame.blocks f ++ [new_BlockFrame [] (len pre + len body + 1)]) f,
     Return tt).
Proof.
  intros Hprog Hpc Hbody.
  cbn [evalFn]. unfold member, blocks_member.
  cbn [vm_findMatchingEndPc vm_blocks CallFrame.runtime bs_pushFrame].
  unfold bind at 1.
  now rewrite (findMatchingEndPc_flat f pre block body post Hprog Hpc
                 (not_structural_end_scan body Hbody)).
Qed.

(** A [block] whose body, up to its [end], holds no [block], [loop], [if],
    [else] or [end]: the step pushes an empty block frame whose break target
    is the position of that [end], and moves on to the body. *)
Theorem block_step_finds_its_end (f : CallFrame.t) (pre body post : list Instruction) :
  CallFrame.instructions f = pre ++ block :: body ++ end_ :: post ->
  CallFrame.pc f = len pre ->
  forallb (fun i => negb (structural i)) body = true ->
  CallFrame.step f
  = (CallFrame.set_pc (len pre + 1)
       (CallFrame.set_blocks
          (CallFrame.blocks f ++ [new_BlockFrame [] (len pre + len body + 1)]) f),
     Return tt).
Proof.
  intros Hprog Hpc Hbody.
  rewrite (CallFrame_step_at f block) by (rewrite Hprog, Hpc; apply array_get_middle).
  unfold bind. rewrite (evalFn_block_flat f pre body post Hprog Hpc Hbody).
  unfold modify. cbn. now rewrite Hpc.
Qed.

Lemma block_step_finds_its_end_witness :
  CallFrame.step
    (CallFrame.set_pc 1
       (CallFrame.new_CallFrame [nop; block; i32_const (of_Z 10); br 0; end_; nop] [] []))
  = ({| CallFrame.blocks := [new_BlockFrame [] 5; new_BlockFrame [] 4];
        CallFrame.instructions := [nop; block; i32_const (of_Z 10); br 0; end_; nop];
        CallFrame.locals := [];
        CallFrame.pc := 2 |},
     Return tt).
Proof.
  apply (block_step_finds_its_end
           (CallFrame.set_pc 1
              (CallFrame.new_CallFrame
                 [nop; block; i32_const (of_Z 10); br 0; end_; nop] [] []))
           [nop] [i32_const (of_Z 10); br 0] [nop]); reflexivity.
Defined.

(** A [block] or [loop] with a straight-line body, stepped through from the
    opening instruction to past its [end]: if no step throws, the block frames
    are again those from before the block, so that whatever the body left on
    the stack of its block frame is gone, and [pc] is just past the [end]. *)
Theorem block_discards_its_stack (f : CallFrame.t) (opener : Instruction)
    (pre body post : list Instruction) :
  opener = block \/ opener = loop ->
  CallFrame.instructions f = pre ++ opener :: body ++ end_ :: post ->
  CallFrame.pc f = len pre ->
  forallb straight_line body = true ->
  CallFrame.instructions (fst (CallFrame.steps (List.length body + 2) f))
  = CallFrame.instructions f
  /\ (snd (CallFrame.steps (List.length body + 2) f) = Return tt ->
      CallFrame.blocks (fst (CallFrame.steps (List.length body + 2) f))
      = CallFrame.blocks f
      /\ CallFrame.pc (fst (CallFrame.steps (List.length body + 2) f))
         = len pre + len body + 2).
Proof.
  intros Ho Hprog Hpc Hbody.
  destruct (CallFrame.steps (List.length body + 2) f) as [g r] eqn:Hsteps.
  cbn [fst snd].
  replace (List.length body + 2)%nat with (1 + (List.length body + 1))%nat in Hsteps by lia.
  rewrite CallFrame_steps_add in Hsteps. cbn [CallFrame.steps] in Hsteps.
  unfold bind at 1 2 in Hsteps.
  assert (Hstep : exists tgt,
             CallFrame.step f
             = (CallFrame.set_pc (len pre + 1)
                  (CallFrame.set_blocks
                     (CallFrame.blocks f ++ [new_BlockFrame [] tgt]) f), Return tt)).
  { destruct Ho as [-> | ->].
    - eexists. rewrite (CallFrame_step_at f block)
        by (rewrite Hprog, Hpc; apply array_get_middle).
      unfold bind.
      rewrite (evalFn_block_flat f pre body post Hprog Hpc
                 (straight_line_not_structural _ Hbody)).
      unfold modify. cbn. rewrite Hpc. reflexivity.
    - eexists. rewrite (CallFrame_step_loop f)
        by (rewrite Hprog, Hpc; apply array_get_middle).
      rewrite Hpc. reflexivity. }
  destruct Hstep as (tgt & Hstep). rewrite Hstep in Hsteps. cbn [ret] in Hsteps.
  unfold ret in Hsteps.
  pose proof (body_then_end (CallFrame.blocks f) tgt (pre ++ [opener]) body post
                (CallFrame.set_pc (len pre + 1)
                   (CallFrame.set_blocks
                      (CallFrame.blocks f ++ [new_BlockFrame [] tgt]) f))) as H.
  rewrite <- app_assoc in H. cbn [app] in H.
  rewrite len_app in H. change (len [opener]) with 1 in H.
  specialize (H ltac:(repeat split; [exact Hprog|eexists; split; reflexivity]) Hbody).
  rewrite Hsteps in H. rewrite Hprog.
  destruct r as [[]|e|]; [|split; [exact H|discriminate]|split; [exact H|discriminate]].
  destruct H as (Hb & Hp & Hi). split; [exact Hi|]. intros _. split; [exact Hb|lia].
Qed.

Lemma block_discards_its_stack_witness :
  CallFrame.steps 5
    (CallFrame.new_CallFrame
       [block; i32_const (of_Z 2); i32_const (of_Z 3); i32_add; end_; nop] [] [])
  = ({| CallFrame.blocks := [new_BlockFrame [] 5];
        CallFrame.instructions :=
          [block; i32_const (of_Z 2); i32_const (of_Z 3); i32_add; end_; nop];
        CallFrame.locals := [];
        CallFrame.pc := 5 |},
     Return tt)
  /\ CallFrame.blocks
       (fst (CallFrame.steps 5
               (CallFrame.new_CallFrame
                  [block; i32_const (of_Z 2); i32_const (of_Z 3); i32_add; end_; nop]
                  [] [])))
     = [new_BlockFrame [] 5].
Proof.
  split; [reflexivity|].
  apply (block_discards_its_stack
           (CallFrame.new_CallFrame
              [block; i32_const (of_Z 2); i32_const (of_Z 3); i32_add; end_; nop] [] [])
           block [] [i32_const (of_Z 2); i32_const (of_Z 3); i32_add] [nop]
           (or_introl eq_refl) eq_refl eq_refl eq_refl).
  reflexivity.
Defined.

Lemma strict_eq_int_zero (z : Z) :
  is_int32 z -> strict_eq (int z) (Num (of_Z 0)) = (z =? 0).
Proof.
  intros Hz. cbn [strict_eq int].
  apply (relations_of_Z z 0 (int32_magnitude z Hz)). unfold prec. cbn. lia.
Qed.

Lemma evalFn_if_flat (f : CallFrame.t) (pre thenBody elseBody post : list Instruction)
    (bs : list BlockFrame) (b : BlockFrame) (rest : list Value) (z : Z) :
  CallFrame.instructions f = pre ++ if_ :: thenBody ++ else_ :: elseBody ++ end_ :: post ->
  CallFrame.pc f = len pre ->
  CallFrame.blocks f = bs ++ [b] ->
  items (super b) = rest ++ [I32 (int z)] ->
  is_int32 z ->
  forallb (fun i => negb (structural i)) thenBody = true ->
  forallb (fun i => negb (structural i)) elseBody = true ->
  evalFn if_ f
  = (CallFrame.set_pc (if z =? 0 then len pre + len thenBody + 1 else len pre)
       (CallFrame.set_blocks
          (bs ++ [BlockFrame_with_items b rest;
                  new_BlockFrame [] (len pre + len thenBody + len elseBody + 2)]) f),
     Return tt).
Proof.
  intros Hprog Hpc Hb Hi Hz HT HE.
  cbn [evalFn]. unfold bind at 1.
  cbn [vm_popI32 CallFrame.runtime].
  rewrite (CallFrame_popI32_snoc f bs b rest (int z) Hb Hi).
  unfold bind at 1. cbn [value_of]. unfold ret at 1.
  rewrite (strict_eq_int_zero z Hz).
  set (f1 := CallFrame.set_blocks (bs ++ [BlockFrame_with_items b rest]) f).
  assert (Hprog1 : CallFrame.instructions f1
                   = pre ++ if_ :: thenBody ++ else_ :: elseBody ++ end_ :: post)
    by exact Hprog.
  assert (Hpc1 : CallFrame.pc f1 = len pre) by exact Hpc.
  unfold member, blocks_member.
  cbn [vm_findMatchingEndPc vm_findMatchingElsePc vm_blocks vm_set_pc
       CallFrame.runtime bs_pushFrame].
  destruct (z =? 0); cbn [negb].
  - (* the else branch *)
    unfold bind at 1.
    assert (Helse : CallFrame.findMatchingElsePc f1 = (f1, Return (len pre + len thenBody + 1))).
    { unfold CallFrame.findMatchingElsePc. f_equal. rewrite Hprog1, Hpc1.
      replace (pre ++ if_ :: thenBody ++ else_ :: elseBody ++ end_ :: post)
        with ((pre ++ [if_]) ++ thenBody ++ else_ :: elseBody ++ end_ :: post)
        by (rewrite <- app_assoc; reflexivity).
      replace (len pre) with (len (pre ++ [if_]) - 1)
        by (rewrite len_app; change (len [if_]) with 1; lia).
      rewrite scan_flat; [|now apply not_structural_else_scan|reflexivity|].
      - f_equal. rewrite len_app. change (len [if_]) with 1. lia.
      - unfold CallFrame.scan_fuel. rewrite !length_app. cbn [List.length].
        rewrite !length_app. cbn [List.length]. lia. }
    rewrite Helse. unfold bind at 1, modify at 1. unfold bind at 1.
    rewrite (findMatchingEndPc_flat _ (pre ++ if_ :: thenBody) else_ elseBody post).
    + unfold CallFrame.pushFrame, modify, f1. cbn.
      rewrite <- app_assoc. cbn [app]. rewrite len_app, len_cons.
      replace (len pre + (1 + len thenBody) + len elseBody + 1)
        with (len pre + len thenBody + len elseBody + 2) by lia.
      reflexivity.
    + cbn. rewrite Hprog, <- app_assoc. reflexivity.
    + cbn. rewrite len_app, len_cons. lia.
    + now apply not_structural_end_scan.
  - (* the then branch *)
    unfold bind at 1.
    rewrite (findMatchingEndPc_flat f1 pre if_ (thenBody ++ else_ :: elseBody) post).
    + unfold CallFrame.pushFrame, modify, f1. cbn.
      rewrite <- app_assoc. cbn [app]. rewrite len_app, len_cons.
      replace (len pre + (len thenBody + (1 + len elseBody)) + 1)
        with (len pre + len thenBody + len elseBody + 2) by lia.
      unfold CallFrame.set_pc, CallFrame.set_blocks.
      cbn [CallFrame.blocks CallFrame.instructions CallFrame.locals CallFrame.pc].
      now rewrite Hpc.
    + rewrite Hprog1, <- app_assoc. reflexivity.
    + exact Hpc1.
    + apply Forall_app. split; [now apply not_structural_end_scan|].
      constructor; [split; reflexivity|now apply not_structural_end_scan].
Qed.

(** An [if] with an [else] whose two branches hold no [block], [loop], [if],
    [else] or [end], stepped with the 32-bit integer [z] on top of the stack:
    the condition is popped, an empty block frame whose break target is the
    position of the [end] is pushed, and execution goes on at the first
    instruction of the then branch when [z] is not zero, of the else branch
    when it is. *)
Theorem if_step_selects_branch (f : CallFrame.t)
    (pre thenBody elseBody post : list Instruction)
    (bs : list BlockFrame) (b : BlockFrame) (rest : list Value) (z : Z) :
  CallFrame.instructions f = pre ++ if_ :: thenBody ++ else_ :: elseBody ++ end_ :: post ->
  CallFrame.pc f = len pre ->
  CallFrame.blocks f = bs ++ [b] ->
  items (super b) = rest ++ [I32 (int z)] ->
  is_int32 z ->
  forallb (fun i => negb (structural i)) thenBody = true ->
  forallb (fun i => negb (structural i)) elseBody = true ->
  CallFrame.step f
  = (CallFrame.set_pc (if z =? 0 then len pre + len thenBody + 2 else len pre + 1)
       (CallFrame.set_blocks
          (bs ++ [BlockFrame_with_items b rest;
                  new_BlockFrame [] (len pre + len thenBody + len elseBody + 2)]) f),
     Return tt).
Proof.
  intros Hprog Hpc Hb Hi Hz HT HE.
  rewrite (CallFrame_step_at f if_) by (rewrite Hprog, Hpc; apply array_get_middle).
  unfold bind.
  rewrite (evalFn_if_flat f pre thenBody elseBody post bs b rest z Hprog Hpc Hb Hi Hz HT HE).
  unfold modify, CallFrame.set_pc, CallFrame.set_blocks.
  cbn [CallFrame.blocks CallFrame.instructions CallFrame.locals CallFrame.pc].
  destruct (z =? 0); [|reflexivity].
  now replace (len pre + len thenBody + 1 + 1) with (len pre + len thenBody + 2) by lia.
Qed.

Lemma if_step_selects_branch_witness :
  CallFrame.step
    (fst (CallFrame.step (CallFrame.new_CallFrame (if_else_program 0) [] [])))
  = ({| CallFrame.blocks := [new_BlockFrame [] 7; new_BlockFrame [] 7];
        CallFrame.instructions := if_else_program 0;
        CallFrame.locals := [];
        CallFrame.pc := 5 |},
     Return tt).
Proof.
  apply (if_step_selects_branch
           (fst (CallFrame.step (CallFrame.new_CallFrame (if_else_program 0) [] [])))
           [i32_const (of_Z 0)] [i32_const (of_Z 10); drop] [i32_const (of_Z 20); drop] []
           [] {| super := {| items := [I32 (int 0)] |}; type := []; breakTargetPc := 7 |}
           [] 0);
    try reflexivity.
  unfold is_int32. lia.
Defined.

Lemma if_step_at (f : CallFrame.t) (pre thenBody elseBody post : list Instruction)
    (bs : list BlockFrame) (b : BlockFrame) (rest : list Value) (z : Z) :
  CallFrame.instructions f = pre ++ if_ :: thenBody ++ else_ :: elseBody ++ end_ :: post ->
  CallFrame.pc f = len pre ->
  CallFrame.blocks f = bs ++ [b] ->
  items (super b) = rest ++ [I32 (int z)] ->
  is_int32 z ->
  forallb straight_line thenBody = true ->
  forallb straight_line elseBody = true ->
  CallFrame.step f
  = (CallFrame.set_pc (if z =? 0 then len pre + len thenBody + 1 + 1 else len pre + 1)
       (CallFrame.set_blocks
          (bs ++ [BlockFrame_with_items b rest;
                  new_BlockFrame [] (len pre + len thenBody + len elseBody + 2)]) f),
     Return tt).
Proof.
  intros Hprog Hpc Hb Hi Hz HT HE.
  rewrite (CallFrame_step_at f if_) by (rewrite Hprog, Hpc; apply array_get_middle).
  unfold bind.
  rewrite (evalFn_if_flat f pre thenBody elseBody post bs b rest z Hprog Hpc Hb Hi Hz
             (straight_line_not_structural _ HT) (straight_line_not_structural _ HE)).
  unfold modify, CallFrame.set_pc, CallFrame.set_blocks.
  cbn [CallFrame.blocks CallFrame.instructions CallFrame.locals CallFrame.pc].
  destruct (z =? 0); reflexivity.
Qed.

(** An [if] with an [else] and straight-line branches, stepped through with
    the 32-bit integer [z] on top of the stack: one step for the [if], one for
    each instruction of the branch taken, one for the [else] or [end] that
    closes it.  If no step throws, the block frames are those from before the
    [if] without the condition, so that whatever the branch left on the stack
    of its block frame is gone, and [pc] is just past the [end]. *)
Theorem if_else_runs_one_branch (f : CallFrame.t)
    (pre thenBody elseBody post : list Instruction)
    (bs : list BlockFrame) (b : BlockFrame) (rest : list Value) (z : Z) :
  CallFrame.instructions f = pre ++ if_ :: thenBody ++ else_ :: elseBody ++ end_ :: post ->
  CallFrame.pc f = len pre ->
  CallFrame.blocks f = bs ++ [b] ->
  items (super b) = rest ++ [I32 (int z)] ->
  is_int32 z ->
  forallb straight_line thenBody = true ->
  forallb straight_line elseBody = true ->
  CallFrame.instructions
    (fst (CallFrame.steps (List.length (if z =? 0 then elseBody else thenBody) + 2) f))
  = CallFrame.instructions f
  /\ (snd (CallFrame.steps (List.length (if z =? 0 then elseBody else thenBody) + 2) f)
      = Return tt ->
      CallFrame.blocks
        (fst (CallFrame.steps (List.length (if z =? 0 then elseBody else thenBody) + 2) f))
      = bs ++ [BlockFrame_with_items b rest]
      /\ CallFrame.pc
           (fst (CallFrame.steps (List.length (if z =? 0 then elseBody else thenBody) + 2) f))
         = len pre + len thenBody + len elseBody + 3).
Proof.
  intros Hprog Hpc Hb Hi Hz HT HE.
  destruct (CallFrame.steps (List.length (if z =? 0 then elseBody else thenBody) + 2) f)
    as [g r] eqn:Hsteps.
  cbn [fst snd].
  set (n := List.length (if z =? 0 then elseBody else thenBody)) in Hsteps.
  replace (n + 2)%nat with (1 + (n + 1))%nat in Hsteps by lia.
  rewrite CallFrame_steps_add in Hsteps. cbn [CallFrame.steps] in Hsteps.
  unfold bind at 1 2 in Hsteps.
  rewrite (if_step_at f pre thenBody elseBody post bs b rest z Hprog Hpc Hb Hi Hz HT HE)
    in Hsteps.
  unfold ret in Hsteps. subst n. rewrite Hprog.
  set (tgt := len pre + len thenBody + len elseBody + 2) in Hsteps.
  destruct (z =? 0).
  - pose proof (body_then_end (bs ++ [BlockFrame_with_items b rest]) tgt
                  (pre ++ if_ :: thenBody ++ [else_]) elseBody post
                  (CallFrame.set_pc (len pre + len thenBody + 1 + 1)
                     (CallFrame.set_blocks
                        (bs ++ [BlockFrame_with_items b rest; new_BlockFrame [] tgt]) f)))
      as H.
    assert (Ep : (pre ++ if_ :: thenBody ++ [else_]) ++ elseBody ++ end_ :: post
                 = pre ++ if_ :: thenBody ++ else_ :: elseBody ++ end_ :: post).
    { rewrite <- app_assoc. cbn [app]. rewrite <- app_assoc. reflexivity. }
    assert (El : len (pre ++ if_ :: thenBody ++ [else_]) = len pre + len thenBody + 1 + 1).
    { rewrite len_app, len_cons, len_app. change (len [else_]) with 1. lia. }
    rewrite Ep, El in H.
    specialize (H ltac:(repeat split; [exact Hprog|eexists; split;
                          [cbn; rewrite <- app_assoc; reflexivity|reflexivity]]) HE).
    rewrite Hsteps in H.
    destruct r as [[]|e|]; [|split; [exact H|discriminate]|split; [exact H|discriminate]].
    destruct H as (Hb' & Hp & Hi'). split; [exact Hi'|]. intros _. split; [exact Hb'|lia].
  - pose proof (body_then_else (bs ++ [BlockFrame_with_items b rest]) tgt
                  (pre ++ [if_]) thenBody (elseBody ++ end_ :: post)
                  (CallFrame.set_pc (len pre + 1)
                     (CallFrame.set_blocks
                        (bs ++ [BlockFrame_with_items b rest; new_BlockFrame [] tgt]) f)))
      as H.
    rewrite <- app_assoc in H. cbn [app] in H.
    rewrite len_app in H. change (len [if_]) with 1 in H.
    specialize (H ltac:(repeat split; [exact Hprog|eexists; split;
                          [cbn; rewrite <- app_assoc; reflexivity|reflexivity]]) HT).
    rewrite Hsteps in H.
    destruct r as [[]|e|]; [|split; [exact H|discriminate]|split; [exact H|discriminate]].
    destruct H as (Hb' & Hp & Hi'). split; [exact Hi'|]. intros _. split; [exact Hb'|].
    unfold tgt in Hp. lia.
Qed.

Lemma if_else_runs_one_branch_witness :
  CallFrame.steps 4 (fst (CallFrame.step (CallFrame.new_CallFrame (if_else_program 1) [] [])))
  = ({| CallFrame.blocks := [new_BlockFrame [] 7];
        CallFrame.instructions := if_else_program 1;
        CallFrame.locals := [];
        CallFrame.pc := 8 |},
     Return tt)
  /\ CallFrame.blocks
       (fst (CallFrame.steps 4
               (fst (CallFrame.step (CallFrame.new_CallFrame (if_else_program 1) [] [])))))
     = [new_BlockFrame [] 7].
Proof.
  split; [reflexivity|].
  apply (if_else_runs_one_branch
           (fst (CallFrame.step (CallFrame.new_CallFrame (if_else_program 1) [] [])))
           [i32_const (of_Z 1)] [i32_const (of_Z 10); drop] [i32_const (of_Z 20); drop] []
           [] {| super := {| items := [I32 (int 1)] |}; type := []; breakTargetPc := 7 |}
           [] 1);
    try reflexivity.
  unfold is_int32. lia.
Defined.

(** ** Functions and globals of an instance *)

Lemma array_get_app_other {A} (xs : list A) (x : A) (k : Z) :
  k <> len xs -> array_get (xs ++ [x]) k = array_get xs k.
Proof.
  intros Hk. unfold array_get, len in *. destruct (k <? 0) eqn:E; [reflexivity|].
  apply Z.ltb_ge in E.
  destruct (Z_lt_le_dec k (Z.of_nat (List.length xs))) as [Hlt|Hge].
  - apply nth_error_app1. lia.
  - assert (Hn : (List.length (xs ++ [x]) <= Z.to_nat k)%nat)
      by (rewrite length_app; cbn [List.length]; lia).
    apply nth_error_None in Hn. rewrite Hn. symmetry. apply nth_error_None. lia.
Qed.

(** [addFunction] returns the index at which the function can be looked up
    afterwards; the functions at all other indices, the call stack and the
    globals are as before. *)
Theorem addFunction_lookup (fn : Func) (inst : Instance.t) :
  exists inst',
    Instance.addFunction fn inst = (inst', Return (len (Instance.functions inst)))
    /\ array_get (Instance.functions inst') (len (Instance.functions inst)) = Some fn
    /\ (forall k, k <> len (Instance.functions inst) ->
          array_get (Instance.functions inst') k = array_get (Instance.functions inst) k)
    /\ Instance.callStack inst' = Instance.callStack inst
    /\ Instance.globals inst' = Instance.globals inst.
Proof.
  eexists. split; [reflexivity|]. cbn [Instance.functions Instance.callStack Instance.globals].
  split; [|split; [|split; reflexivity]].
  - rewrite <- (app_nil_r (Instance.functions inst ++ [fn])), <- app_assoc.
    apply array_get_middle.
  - intros k Hk. now apply array_get_app_other.
Qed.

(** Calling the index that [addFunction] returned, for a function without
    arguments: a frame for that function is put on top of the call stack, at
    [pc] 0, with one fresh value per local and a root block whose break
    target is the last instruction. *)
Theorem call_of_added_function (fn : Func) (inst : Instance.t) :
  args fn = [] ->
  bind (Instance.addFunction fn) Instance.callFunction inst
  = ({| Instance.callStack :=
          Instance.callStack inst
          ++ [{| CallFrame.blocks :=
                   [new_BlockFrame [[]; returns fn] (len (instructions fn) - 1)];
                 CallFrame.instructions := instructions fn;
                 CallFrame.locals := map new (locals fn);
                 CallFrame.pc := 0 |}];
        Instance.functions := Instance.functions inst ++ [fn];
        Instance.globals := Instance.globals inst;
        Instance.pc := Instance.pc inst |},
     Return tt).
Proof.
  intros Hargs. unfold bind at 1, Instance.addFunction.
  erewrite callFunction_without_arguments with (fn := fn); [reflexivity| |exact Hargs].
  cbn [Instance.functions].
  rewrite <- (app_nil_r (Instance.functions inst ++ [fn])), <- app_assoc.
  apply array_get_middle.
Qed.

Lemma call_of_added_function_witness :
  instanceToData
    (fst (bind (Instance.addFunction fn1) Instance.callFunction Instance.new_Instance))
  = Some [[[]]].
Proof.
  rewrite (call_of_added_function fn1 Instance.new_Instance eq_refl). reflexivity.
Defined.

Lemma Instance_pop_snoc (inst : Instance.t) (frames : list CallFrame.t) (f : CallFrame.t)
    (bs : list BlockFrame) (b : BlockFrame) (xs : list Value) (v : Value) :
  Instance.callStack inst = frames ++ [f] ->
  CallFrame.blocks f = bs ++ [b] ->
  items (super b) = xs ++ [v] ->
  Instance.pop inst
  = (Instance.set_callStack
       (frames ++ [CallFrame.set_blocks (bs ++ [BlockFrame_with_items b xs]) f]) inst,
     Return v).
Proof.
  intros Hc Hb Hi. unfold Instance.pop, Instance.on_currentFrame, on_last.
  rewrite Hc, array_pop_snoc. now rewrite (CallFrame_pop_snoc f bs b xs v Hb Hi).
Qed.

Lemma Instance_push_spec (inst : Instance.t) (frames : list CallFrame.t) (f : CallFrame.t)
    (bs : list BlockFrame) (b : BlockFrame) (v : Value) :
  Instance.callStack inst = frames ++ [f] ->
  CallFrame.blocks f = bs ++ [b] ->
  Instance.push v inst
  = (Instance.set_callStack
       (frames ++ [CallFrame.set_blocks
                     (bs ++ [BlockFrame_with_items b (items (super b) ++ [v])]) f]) inst,
     Return tt).
Proof.
  intros Hc Hb. unfold Instance.push, Instance.on_currentFrame, on_last.
  rewrite Hc, array_pop_snoc. now rewrite (CallFrame_push_spec f bs b v Hb).
Qed.

(** [global.set] followed by [global.get] of the same index, within the
    globals, on an instance whose current frame has a value on its stack: the
    value is stored in the global and is back on the stack, so only the
    globals change; the slot then reads as the value and every other slot as
    before. *)
Theorem global_set_then_get (inst : Instance.t) (frames : list CallFrame.t)
    (f : CallFrame.t) (bs : list BlockFrame) (b : BlockFrame)
    (rest : list Value) (v : Value) (index : Z) :
  Instance.callStack inst = frames ++ [f] ->
  CallFrame.blocks f = bs ++ [b] ->
  items (super b) = rest ++ [v] ->
  0 <= index < len (Instance.globals inst) ->
  bind (evalFn (global_set index)) (fun _ => evalFn (global_get index)) inst
  = (Instance.over_globals (fun xs => array_set xs index v) inst, Return tt)
  /\ array_get (array_set (Instance.globals inst) index v) index = Some v
  /\ forall j, j <> index ->
       array_get (array_set (Instance.globals inst) index v) j
       = array_get (Instance.globals inst) j.
Proof.
  intros Hc Hb Hi Hr.
  split; [|split; [now apply array_get_set_same|intros j Hj; now apply array_get_set_other]].
  destruct inst as [cs fns gs ipc]. cbn in Hc, Hr. subst cs.
  destruct f as [blocks prog ls p]. cbn in Hb. subst blocks.
  destruct b as [[its] ty tg]. cbn in Hi. subst its.
  unfold bind at 1. cbn [evalFn vm_globals vm_pop vm_push Instance.runtime].
  unfold bind at 1. rewrite assertGlobalIndexInRange_in_range by exact Hr.
  unfold bind at 1.
  erewrite Instance_pop_snoc with (frames := frames) (bs := bs) (xs := rest) (v := v);
    [|reflexivity|reflexivity|reflexivity].
  unfold write_slot, modify. cbn [over view].
  unfold Instance.over_globals, Instance.set_callStack, CallFrame.set_blocks,
    BlockFrame_with_items.
  cbn [Instance.callStack Instance.functions Instance.globals Instance.pc
       CallFrame.blocks CallFrame.instructions CallFrame.locals CallFrame.pc
       type breakTargetPc].
  unfold bind at 1. rewrite assertLocalIndexInRange_in_range
    by (cbn [view Instance.globals]; now rewrite array_set_len).
  unfold bind at 1, read_slot, bind at 1, get. cbn [view Instance.globals].
  rewrite array_get_set_same by exact Hr. unfold ret. cbv beta iota.
  change (vm_push v) with (Instance.push v).
  erewrite Instance_push_spec with (frames := frames) (bs := bs);
    [|reflexivity|reflexivity].
  reflexivity.
Qed.

Lemma global_set_then_get_witness :
  bind (evalFn (global_set 0)) (fun _ => evalFn (global_get 0))
    {| Instance.callStack :=
         [{| CallFrame.blocks :=
               [{| super := {| items := [I32 (int 42)] |}; type := [];
                   breakTargetPc := 1 |}];
             CallFrame.instructions := [global_set 0; global_get 0];
             CallFrame.locals := [];
             CallFrame.pc := 0 |}];
       Instance.functions := [];
       Instance.globals := [I32 (int 100)];
       Instance.pc := None |}
  = ({| Instance.callStack :=
          [{| CallFrame.blocks :=
                [{| super := {| items := [I32 (int 42)] |}; type := [];
                    breakTargetPc := 1 |}];
              CallFrame.instructions := [global_set 0; global_get 0];
              CallFrame.locals := [];
              CallFrame.pc := 0 |}];
        Instance.functions := [];
        Instance.globals := [I32 (int 42)];
        Instance.pc := None |},
     Return tt).
Proof.
  apply (global_set_then_get
           {| Instance.callStack :=
                [{| CallFrame.blocks :=
                      [{| super := {| items := [I32 (int 42)] |}; type := [];
                          breakTargetPc := 1 |}];
                    CallFrame.instructions := [global_set 0; global_get 0];
                    CallFrame.locals := [];
                    CallFrame.pc := 0 |}];
              Instance.functions := [];
              Instance.globals := [I32 (int 100)];
              Instance.pc := None |}
           []
           {| CallFrame.blocks :=
                [{| super := {| items := [I32 (int 42)] |}; type := [];
                    breakTargetPc := 1 |}];
              CallFrame.instructions := [global_set 0; global_get 0];
              CallFrame.locals := [];
              CallFrame.pc := 0 |}
           [] {| super := {| items := [I32 (int 42)] |}; type := []; breakTargetPc := 1 |}
           [] (I32 (int 42)) 0).
  - reflexivity.
  - reflexivity.
  - reflexivity.
  - cbn. lia.
Defined.

(** ** The step of an instance and the frame on top *)

Lemma on_top_frame_bind {A B} (frames : list CallFrame.t)
    (mI : M Instance.t A) (mF : M CallFrame.t A)
    (kI : A -> M Instance.t B) (kF : A -> M CallFrame.t B) :
  on_top_frame frames mI mF -> (forall a, on_top_frame frames (kI a) (kF a)) ->
  on_top_frame frames (bind mI kI) (bind mF kF).
Proof.
  intros Hm Hk inst f Hc. unfold bind. rewrite (Hm inst f Hc).
  destruct (mF f) as [f1 [a|e|]]; [|reflexivity|reflexivity].
  rewrite (Hk a (Instance.set_callStack (frames ++ [f1]) inst) f1 eq_refl).
  destruct (kF a f1) as [f2 r]. reflexivity.
Qed.

Lemma on_top_frame_method {A} (frames : list CallFrame.t) (prop : string)
    (m : M CallFrame.t A) :
  on_top_frame frames (Instance.on_currentFrame prop m) m.
Proof.
  intros inst f Hc. unfold Instance.on_currentFrame, on_last.
  now rewrite Hc, array_pop_snoc.
Qed.

Lemma on_top_frame_value_of (frames : list CallFrame.t) (c : Value) :
  on_top_frame frames (value_of c) (value_of c).
Proof.
  intros inst f Hc. destruct inst as [cs fns gs p]. cbn in Hc. subst cs.
  destruct c; reflexivity.
Qed.

Lemma on_top_frame_ret {A} (frames : list CallFrame.t) (a : A) :
  on_top_frame frames (ret a) (ret a).
Proof.
  intros inst f Hc. destruct inst as [cs fns gs p]. cbn in Hc. subst cs. reflexivity.
Qed.

Lemma stack_only_on_top_frame (frames : list CallFrame.t) (i : Instruction) :
  stack_only i = true ->
  on_top_frame frames (@evalFn Instance.t _ i) (@evalFn CallFrame.t _ i).
Proof.
  intros Hi.
  destruct i; try discriminate Hi; cbn [evalFn]; unfold relop, binop;
    cbn [vm_push vm_pop vm_peek vm_popI32 CallFrame.runtime Instance.runtime];
    unfold Instance.push, Instance.pop, Instance.popI32;
    repeat first
      [ apply on_top_frame_method
      | apply on_top_frame_value_of
      | apply on_top_frame_ret
      | apply on_top_frame_bind; [|intros ?] ].
Qed.

Lemma stack_only_straight_line (i : Instruction) :
  stack_only i = true -> straight_line i = true.
Proof. destruct i; intros H; try discriminate H; reflexivity. Qed.

Lemma advance_last (frames : list CallFrame.t) (f : CallFrame.t) :
  Instance.advance (List.length frames) (frames ++ [f])
  = frames ++ [CallFrame.set_pc (CallFrame.pc f + 1) f].
Proof. induction frames as [|g frames IH]; cbn; [reflexivity|now rewrite IH]. Qed.

Lemma array_at_last_snoc {A} (xs : list A) (x : A) : array_at_last (xs ++ [x]) = Some x.
Proof. unfold array_at_last. now rewrite array_pop_snoc. Qed.

(** [step] of an instance on a stack-only instruction ([nop], [i32.const],
    [drop], the arithmetic and the comparisons), when the same step of the
    frame on top of the call stack returns [f']: the instance ends with [f']
    in place of that frame if [f'] is not finished, and without the frame if
    it is.  The frames below are as before in both cases: nothing of the
    stack of a finished frame reaches its caller. *)
Theorem Instance_step_runs_the_top_frame (inst : Instance.t) (frames : list CallFrame.t)
    (f f' : CallFrame.t) (bs : list BlockFrame) (top : BlockFrame)
    (i : Instruction) (fuel : nat) :
  Instance.callStack inst = frames ++ [f] ->
  CallFrame.blocks f = bs ++ [top] ->
  array_get (CallFrame.instructions f) (CallFrame.pc f) = Some i ->
  stack_only i = true ->
  CallFrame.step f = (f', Return tt) ->
  Instance.step (S fuel) inst
  = (Instance.set_callStack
       (if CallFrame.finished f' then frames else frames ++ [f']) inst,
     Return tt).
Proof.
  intros Hc Hb Hi Hs Hstep.
  rewrite (CallFrame_step_at f i Hi) in Hstep. unfold bind in Hstep.
  pose proof (straight_line_inside bs (breakTargetPc top) (CallFrame.instructions f)
                (CallFrame.pc f) i (stack_only_straight_line i Hs) f
                ltac:(repeat split; now exists top)) as Hin.
  pose proof (stack_only_on_top_frame frames i Hs inst f Hc) as Heval.
  destruct (evalFn i f) as [f1 [[]|e|]]; [|discriminate Hstep|discriminate Hstep].
  unfold modify in Hstep. injection Hstep as <-.
  cbn [fst] in Hin. destruct Hin as (_ & _ & top1 & Hb1 & _).
  unfold Instance.step. unfold bind at 1, get.
  unfold Instance.currentFrame. rewrite Hc, array_at_last_snoc.
  rewrite Hi. cbn [eval]. unfold bind at 1. rewrite Heval.
  unfold bind at 1, modify at 1.
  cbn [Instance.set_callStack Instance.callStack].
  rewrite length_app. cbn [List.length].
  replace (Nat.pred (List.length frames + 1)) with (List.length frames) by lia.
  rewrite advance_last.
  unfold bind at 1. cbv beta iota.
  cbn [Instance.set_callStack Instance.callStack]. rewrite array_at_last_snoc.
  destruct (CallFrame.finished _) eqn:Hfin; [|reflexivity].
  unfold bind at 1, Instance.callStack_pop.
  cbn [Instance.set_callStack Instance.callStack].
  rewrite array_pop_snoc. unfold bind at 1. cbv beta iota.
  cbn [Instance.set_callStack Instance.callStack].
  destruct (len frames >? 0); [|reflexivity].
  cbn [Instance.transfer]. unfold CallFrame.currentBlock.
  cbn [CallFrame.set_pc CallFrame.blocks]. rewrite Hb1, array_at_last_snoc.
  reflexivity.
Qed.

Lemma Instance_step_runs_the_top_frame_witness :
  Instance.step 1
    {| Instance.callStack :=
         [CallFrame.new_CallFrame [nop; nop] [] [];
          CallFrame.new_CallFrame [i32_const (of_Z 5)] [] []];
       Instance.functions := []; Instance.globals := []; Instance.pc := None |}
  = ({| Instance.callStack := [CallFrame.new_CallFrame [nop; nop] [] []];
        Instance.functions := []; Instance.globals := []; Instance.pc := None |},
     Return tt).
Proof.
  apply (Instance_step_runs_the_top_frame
           {| Instance.callStack :=
                [CallFrame.new_CallFrame [nop; nop] [] [];
                 CallFrame.new_CallFrame [i32_const (of_Z 5)] [] []];
              Instance.functions := []; Instance.globals := []; Instance.pc := None |}
           [CallFrame.new_CallFrame [nop; nop] [] []]
           (CallFrame.new_CallFrame [i32_const (of_Z 5)] [] [])
           (fst (CallFrame.step (CallFrame.new_CallFrame [i32_const (of_Z 5)] [] [])))
           [] (new_BlockFrame [] 0) (i32_const (of_Z 5)) 0);
    reflexivity.
Defined.

(** ** The run of a straight-line program *)

Lemma terminates_bind {S A B} (m : M S A) (k : A -> M S B) :
  terminates m -> (forall a, terminates (k a)) -> terminates (bind m k).
Proof.
  intros Hm Hk s. unfold bind. specialize (Hm s).
  destruct (m s) as [s' [a|e|]]; cbn [snd] in *; [apply Hk|discriminate|contradiction].
Qed.

Lemma terminates_Stack_pop : terminates StackM.pop.
Proof. intros s. unfold StackM.pop. destruct (array_pop (items s)) as [[v|] init]; discriminate. Qed.

Lemma terminates_Stack_peek : terminates StackM.peek.
Proof. intros s. unfold StackM.peek. destruct (array_at_last (items s)); discriminate. Qed.

Lemma terminates_Stack_popI32 : terminates StackM.popI32.
Proof.
  unfold StackM.popI32, StackM.popType, StackM.assertTopIsOfType, StackM.topIsOfType.
  repeat first
    [ apply terminates_Stack_pop | apply terminates_Stack_peek
    | apply terminates_bind; [|intros ?]
    | match goal with |- terminates (if ?c then _ else _) => destruct c end
    | (intros ?; discriminate) ].
Qed.

Lemma terminates_on_currentBlock {A} (prop : string) (m : M Stack A) :
  terminates m -> terminates (CallFrame.on_currentBlock prop m).
Proof.
  intros Hm g. unfold CallFrame.on_currentBlock, on_last.
  destruct (array_pop (CallFrame.blocks g)) as [[b|] init]; [|discriminate].
  unfold inherited. specialize (Hm (super b)). destruct (m (super b)) as [s' r]. exact Hm.
Qed.

Lemma terminates_assertLocalIndexInRange {V} `{Runtime V}
    (l : option (lens V (list Value))) (index : Z) :
  terminates (assertLocalIndexInRange l index).
Proof.
  intros s. unfold assertLocalIndexInRange. destruct (index <? 0); [discriminate|].
  destruct l as [l|]; [|discriminate].
  unfold bind, get. destruct (index >=? len (view l s)); discriminate.
Qed.

Lemma terminates_read_slot {V} `{Runtime V}
    (l : option (lens V (list Value))) (index : Z) :
  terminates (read_slot l index).
Proof.
  intros s. unfold read_slot. destruct l as [l|]; [|discriminate].
  unfold bind, get. destruct (array_get (view l s) index); discriminate.
Qed.

Lemma terminates_write_slot {V} `{Runtime V}
    (l : option (lens V (list Value))) (index : Z) (v : Value) :
  terminates (write_slot l index v).
Proof. intros s. unfold write_slot. destruct l; discriminate. Qed.

Lemma terminates_value_of {V} `{Runtime V} (c : Value) :
  terminates (@value_of V c).
Proof. intros s. destruct c; discriminate. Qed.

Lemma terminates_straight_line (i : Instruction) :
  straight_line i = true -> terminates (@evalFn CallFrame.t _ i).
Proof.
  intros Hi.
  destruct i; try discriminate Hi; cbn [evalFn]; unfold relop, binop;
    cbn [vm_push vm_pop vm_peek vm_popI32 CallFrame.runtime];
    unfold CallFrame.push, CallFrame.pop, CallFrame.peek, CallFrame.popI32;
    repeat first
      [ apply terminates_on_currentBlock
      | apply terminates_Stack_pop | apply terminates_Stack_peek
      | apply terminates_Stack_popI32
      | apply terminates_assertLocalIndexInRange
      | apply terminates_read_slot | apply terminates_write_slot
      | apply terminates_value_of
      | apply terminates_bind; [|intros ?]
      | (intros ?; discriminate) ].
Qed.

Lemma run_straight_line (bs : list BlockFrame) (tgt : Z) (seg : list Instruction) :
  forall (pre : list Instruction) (g : CallFrame.t) (fuel : nat),
    inside bs tgt (pre ++ seg) (len pre) g ->
    forallb straight_line seg = true ->
    (List.length seg < fuel)%nat ->
    CallFrame.run fuel g = CallFrame.steps (List.length seg) g
    /\ snd (CallFrame.steps (List.length seg) g) <> OutOfFuel.
Proof.
  induction seg as [|i seg IH]; intros pre g fuel Hin Hs Hfuel;
    (destruct fuel as [|fuel]; [cbn [List.length] in Hfuel; lia|]);
    cbn [CallFrame.run]; unfold bind at 1, get; unfold CallFrame.finished;
    pose proof Hin as (Hprog & Hpc & _); rewrite Hprog, Hpc, len_app.
  - change (len (@nil Instruction)) with 0. rewrite Z.add_0_r, Z.eqb_refl.
    split; [reflexivity|discriminate].
  - assert (E : (len pre =? len pre + len (i :: seg)) = false)
      by (apply Z.eqb_neq; rewrite len_cons; pose proof (len_nonneg seg); lia).
    rewrite E. cbn [negb List.length CallFrame.steps forallb] in *.
    apply andb_prop in Hs as [Hi Hs].
    unfold bind.
    pose proof (step_straight_line bs tgt _ _ i g Hin (array_get_middle pre i seg) Hi)
      as Hstep.
    assert (Ht : snd (CallFrame.step g) <> OutOfFuel).
    { rewrite (CallFrame_step_at g i) by (rewrite Hprog, Hpc; apply array_get_middle).
      apply terminates_bind; [now apply terminates_straight_line|].
      intros ? ?; discriminate. }
    destruct (CallFrame.step g) as [g1 [[]|e|]];
      [|split; [reflexivity|discriminate]|now contradiction Ht].
    apply (IH (pre ++ [i]) g1 fuel).
    + rewrite <- app_assoc, len_app. exact Hstep.
    + exact Hs.
    + lia.
Qed.

(** [run] on a frame at [pc] 0 whose program is straight-line (no block
    structure, branch, call or global access): the loop takes one step per
    instruction and stops, by returning or at the first step that throws.
    One more iteration than the program has instructions is enough. *)
Theorem run_of_straight_line_program (f : CallFrame.t) (bs : list BlockFrame)
    (top : BlockFrame) (fuel : nat) :
  CallFrame.pc f = 0 ->
  CallFrame.blocks f = bs ++ [top] ->
  forallb straight_line (CallFrame.instructions f) = true ->
  (List.length (CallFrame.instructions f) < fuel)%nat ->
  CallFrame.run fuel f = CallFrame.steps (List.length (CallFrame.instructions f)) f
  /\ snd (CallFrame.run fuel f) <> OutOfFuel.
Proof.
  intros Hpc Hb Hs Hfuel.
  destruct (run_straight_line bs (breakTargetPc top) (CallFrame.instructions f) [] f fuel)
    as [E Ht]; try assumption.
  - repeat split; [assumption|now exists top].
  - split; [exact E|now rewrite E].
Qed.

Lemma run_of_straight_line_program_witness :
  CallFrame.run 4
    (CallFrame.new_CallFrame [i32_const (of_Z 1); i32_const (of_Z 2); i32_add] [] [])
  = CallFrame.steps 3
      (CallFrame.new_CallFrame [i32_const (of_Z 1); i32_const (of_Z 2); i32_add] [] [])
  /\ snd (CallFrame.run 4
            (CallFrame.new_CallFrame [i32_const (of_Z 1); i32_const (of_Z 2); i32_add]
                                     [] []))
     <> OutOfFuel.
Proof.
  apply (run_of_straight_line_program
           (CallFrame.new_CallFrame [i32_const (of_Z 1); i32_const (of_Z 2); i32_add] [] [])
           [] (new_BlockFrame [] 2) 4).
  - reflexivity.
  - reflexivity.
  - reflexivity.
  - cbn. lia.
Defined.

(** ** What execution keeps *)

Lemma pop_more_same_program (prog : list Instruction) (n : Z) (k : nat) :
  forall blockFrame, preserves (same_program prog n) (CallFrame.pop_more k blockFrame).
Proof.
  induction k as [|k IH]; intros blockFrame; cbn [CallFrame.pop_more].
  - apply preserves_unchanged. reflexivity.
  - apply preserves_bind; [|intros ?; apply IH].
    intros g Hg. unfold CallFrame.popFrame.
    destruct (array_pop (CallFrame.blocks g)). exact Hg.
Qed.

Lemma on_currentBlock_same_program {A} (prog : list Instruction) (n : Z)
    (prop : string) (m : M Stack A) :
  preserves (same_program prog n) (CallFrame.on_currentBlock prop m).
Proof.
  intros g Hg. unfold CallFrame.on_currentBlock, on_last.
  destruct (array_pop (CallFrame.blocks g)) as [[b|] init]; [|exact Hg].
  destruct (inherited m b). exact Hg.
Qed.

Lemma write_local_same_program (prog : list Instruction) (n : Z) (index : Z) (v : Value) :
  preserves (same_program prog n) (write_slot (@vm_locals CallFrame.t _) index v).
Proof.
  intros g [Hi Hl]. split; [exact Hi|].
  cbn. now rewrite array_set_len.
Qed.

Lemma evalFn_same_program (prog : list Instruction) (n : Z) (i : Instruction) :
  preserves (same_program prog n) (@evalFn CallFrame.t _ i).
Proof.
  destruct i; cbn [evalFn]; unfold relop, binop, blocks_member, member;
    cbn [vm_push vm_pop vm_peek vm_popI32 vm_blocks vm_findMatchingEndPc
         vm_findMatchingElsePc vm_breakToLabel vm_callFunction vm_set_pc
         vm_globals CallFrame.runtime bs_pushFrame bs_popFrame bs_pc];
    unfold CallFrame.push, CallFrame.pop, CallFrame.peek, CallFrame.popI32,
      CallFrame.breakToLabel;
    repeat first
      [ apply on_currentBlock_same_program
      | apply write_local_same_program
      | apply pop_more_same_program
      | (intros g Hg; unfold CallFrame.popFrame;
         destruct (array_pop (CallFrame.blocks g)); exact Hg)
      | (intros g Hg; exact Hg)
      | apply preserves_unchanged; intros ?;
        first [ apply assertLocalIndexInRange_unchanged
              | apply assertGlobalIndexInRange_unchanged
              | apply read_slot_unchanged | apply value_of_unchanged
              | reflexivity ]
      | apply preserves_bind; [|intros ?]
      | match goal with |- preserves _ (if ?c then _ else _) => destruct c end
      | match goal with |- preserves _ (match ?x with _ => _ end) => destruct x end ].
Qed.

Lemma CallFrame_step_same_program (prog : list Instruction) (n : Z) :
  preserves (same_program prog n) CallFrame.step.
Proof.
  unfold CallFrame.step. apply preserves_bind; [apply preserves_unchanged; reflexivity|].
  intros f. apply preserves_bind; [|intros ? g Hg; exact Hg].
  destruct (array_get (CallFrame.instructions f) (CallFrame.pc f)); cbn [eval];
    [apply evalFn_same_program|apply preserves_unchanged; reflexivity].
Qed.

(** Whatever the instructions and however execution ends, [steps] and [run]
    of a call frame leave its program as it was and its locals as many as
    they were. *)
Theorem CallFrame_keeps_its_program (f : CallFrame.t) (n fuel : nat) :
  (CallFrame.instructions (fst (CallFrame.steps n f)) = CallFrame.instructions f
   /\ len (CallFrame.locals (fst (CallFrame.steps n f))) = len (CallFrame.locals f))
  /\ (CallFrame.instructions (fst (CallFrame.run fuel f)) = CallFrame.instructions f
      /\ len (CallFrame.locals (fst (CallFrame.run fuel f))) = len (CallFrame.locals f)).
Proof.
  change (same_program (CallFrame.instructions f) (len (CallFrame.locals f))
            (fst (CallFrame.steps n f))
          /\ same_program (CallFrame.instructions f) (len (CallFrame.locals f))
               (fst (CallFrame.run fuel f))).
  assert (H0 : same_program (CallFrame.instructions f) (len (CallFrame.locals f)) f)
    by (split; reflexivity).
  revert H0. generalize (CallFrame.instructions f) (len (CallFrame.locals f)).
  intros prog k H0. split.
  - revert f H0. induction n as [|n IH]; intros f H0; [exact H0|].
    cbn [CallFrame.steps]. revert f H0.
    apply preserves_bind; [apply CallFrame_step_same_program|intros _ g Hg; now apply IH].
  - revert f H0. induction fuel as [|fuel IH]; intros f H0; [exact H0|].
    cbn [CallFrame.run]. revert f H0.
    apply preserves_bind; [apply preserves_unchanged; reflexivity|].
    intros f. destruct (negb (CallFrame.finished f)); [|intros g Hg; exact Hg].
    apply preserves_bind; [apply CallFrame_step_same_program|intros _ g Hg; now apply IH].
Qed.

Lemma on_currentFrame_same_functions {A} (fns : list Func) (n : Z)
    (prop : string) (m : M CallFrame.t A) :
  preserves (same_functions fns n) (Instance.on_currentFrame prop m).
Proof.
  intros i Hi. unfold Instance.on_currentFrame, on_last.
  destruct (array_pop (Instance.callStack i)) as [[f|] init]; [|exact Hi].
  destruct (m f). exact Hi.
Qed.

Lemma write_global_same_functions (fns : list Func) (n : Z) (index : Z) (v : Value) :
  preserves (same_functions fns n) (write_slot (@vm_globals Instance.t _) index v).
Proof.
  intros i [Hf Hg]. split; [exact Hf|]. cbn. now rewrite array_set_len.
Qed.

Lemma pass_arguments_same_functions (fns : list Func) (n : Z) (k : nat) :
  forall calledFrame,
    preserves (same_functions fns n) (Instance.pass_arguments k calledFrame).
Proof.
  induction k as [|k IH]; intros calledFrame; cbn [Instance.pass_arguments].
  - apply preserves_unchanged. reflexivity.
  - apply preserves_bind; [apply on_currentFrame_same_functions|intros v].
    destruct (CallFrame.push v calledFrame) as [c [[]|e|]];
      [apply IH|apply preserves_unchanged; reflexivity|apply preserves_unchanged; reflexivity].
Qed.

Lemma callFunction_same_functions (fns : list Func) (n : Z) (index : Z) :
  preserves (same_functions fns n) (Instance.callFunction index).
Proof.
  unfold Instance.callFunction.
  apply preserves_bind; [apply preserves_unchanged; reflexivity|intros i].
  destruct (array_get (Instance.functions i) index);
    [|apply preserves_unchanged; reflexivity].
  apply preserves_bind; [apply pass_arguments_same_functions|].
  intros ? j Hj. exact Hj.
Qed.

Lemma transfer_same_functions (fns : list Func) (n : Z) (fuel : nat) :
  forall frame, preserves (same_functions fns n) (Instance.transfer fuel frame).
Proof.
  induction fuel as [|fuel IH]; intros frame; cbn [Instance.transfer].
  - apply preserves_unchanged. reflexivity.
  - destruct (CallFrame.currentBlock frame); [|apply preserves_unchanged; reflexivity].
    destruct (js_gt _ _); [|apply preserves_unchanged; reflexivity].
    destruct (CallFrame.pop frame) as [frame' [v|e|]];
      [|apply preserves_unchanged; reflexivity|apply preserves_unchanged; reflexivity].
    apply preserves_bind; [apply on_currentFrame_same_functions|intros _; apply IH].
Qed.

Lemma evalFn_same_functions (fns : list Func) (n : Z) (i : Instruction) :
  preserves (same_functions fns n) (@evalFn Instance.t _ i).
Proof.
  destruct i; cbn [evalFn]; unfold relop, binop, blocks_member, member;
    cbn [vm_push vm_pop vm_peek vm_popI32 vm_blocks vm_findMatchingEndPc
         vm_findMatchingElsePc vm_breakToLabel vm_callFunction vm_set_pc
         vm_locals Instance.runtime];
    unfold Instance.push, Instance.pop, Instance.peek, Instance.popI32,
      Instance.breakToLabel, Instance.findMatchingEndPc, Instance.findMatchingElsePc;
    repeat first
      [ apply on_currentFrame_same_functions
      | apply write_global_same_functions
      | apply callFunction_same_functions
      | (intros g Hg; exact Hg)
      | apply preserves_unchanged; intros ?;
        first [ apply assertLocalIndexInRange_unchanged
              | apply assertGlobalIndexInRange_unchanged
              | apply read_slot_unchanged | apply value_of_unchanged
              | reflexivity ]
      | apply preserves_bind; [|intros ?]
      | match goal with |- preserves _ (if ?c then _ else _) => destruct c end
      | match goal with |- preserves _ (match ?x with _ => _ end) => destruct x end ].
Qed.

Lemma Instance_step_same_functions (fns : list Func) (n : Z) (fuel : nat) :
  preserves (same_functions fns n) (Instance.step fuel).
Proof.
  unfold Instance.step.
  apply preserves_bind; [apply preserves_unchanged; reflexivity|intros i].
  destruct (Instance.currentFrame i) as [f|]; [|apply preserves_unchanged; reflexivity].
  apply preserves_bind.
  { destruct (array_get (CallFrame.instructions f) (CallFrame.pc f)); cbn [eval];
      [apply evalFn_same_functions|apply preserves_unchanged; reflexivity]. }
  intros _. apply preserves_bind; [intros j Hj; exact Hj|intros _].
  apply preserves_bind; [apply preserves_unchanged; reflexivity|intros j].
  destruct (Instance.currentFrame j) as [g|]; [|apply preserves_unchanged; reflexivity].
  destruct (CallFrame.finished g); [|apply preserves_unchanged; reflexivity].
  apply preserves_bind.
  { intros k Hk. unfold Instance.callStack_pop.
    destruct (array_pop (Instance.callStack k)). exact Hk. }
  intros frame. apply preserves_bind; [apply preserves_unchanged; reflexivity|intros k].
  destruct (len (Instance.callStack k) >? 0); [|apply preserves_unchanged; reflexivity].
  destruct frame; [apply transfer_same_functions|apply preserves_unchanged; reflexivity].
Qed.

(** Whatever the instructions and however execution ends, the steps of an
    instance leave its functions as they were and its globals as many as they
    were. *)
Theorem Instance_keeps_its_functions (inst : Instance.t) (fuel n : nat) :
  Instance.functions (fst (Instance.steps fuel n inst)) = Instance.functions inst
  /\ len (Instance.globals (fst (Instance.steps fuel n inst)))
     = len (Instance.globals inst).
Proof.
  change (same_functions (Instance.functions inst) (len (Instance.globals inst))
            (fst (Instance.steps fuel n inst))).
  assert (H0 : same_functions (Instance.functions inst) (len (Instance.globals inst)) inst)
    by (split; reflexivity).
  revert H0. generalize (Instance.functions inst) (len (Instance.globals inst)).
  intros fns k. revert inst. induction n as [|n IH]; intros inst H0; [exact H0|].
  cbn [Instance.steps]. revert inst H0.
  apply preserves_bind; [apply Instance_step_same_functions|intros _ g Hg; now apply IH].
Qed.

(** ** The run on a bare stack *)

Example test_i32_const_pushes_an_I32_to_the_stack :
  items (fst (@evalFn Stack Stack_runtime (i32_const (of_Z 42)) {| items := [] |}))
  = [i32 (int 42)].
Proof. reflexivity. Qed.

Example test_drop_pops_from_the_stack :
  items (fst (@run Stack Stack_runtime [i32_const (of_Z 42); drop] {| items := [] |})) = [].
Proof. reflexivity. Qed.

Example test_i32_add_pops_two_I32s_and_pushes_their_sum :
  items (fst (@run Stack Stack_runtime
                [i32_const (of_Z 42); i32_const (of_Z 23); i32_add] {| items := [] |}))
  = [i32 (int 65)].
Proof. reflexivity. Qed.

Lemma on_VM_stack_bind {A B} (mV : M VM.t A) (mS : M Stack A)
    (kV : A -> M VM.t B) (kS : A -> M Stack B) :
  on_VM_stack mV mS -> (forall a, on_VM_stack (kV a) (kS a)) ->
  on_VM_stack (bind mV kV) (bind mS kS).
Proof.
  intros Hm Hk vm. unfold bind. rewrite (Hm vm). unfold VM.on_stack.
  destruct (mS (VM.stack vm)) as [s1 [a|e|]]; [|reflexivity|reflexivity].
  rewrite (Hk a). unfold VM.on_stack. cbn [VM.stack VM.instructions VM.pc].
  destruct (kS a s1) as [s2 r]. reflexivity.
Qed.

Lemma on_VM_stack_pure {A} (r : outcome A) :
  on_VM_stack (fun vm => (vm, r)) (fun s => (s, r)).
Proof. intros [s prog p]. reflexivity. Qed.

Lemma on_VM_stack_method {A} (m : M Stack A) : on_VM_stack (VM.on_stack m) m.
Proof. intros vm. reflexivity. Qed.

Lemma on_VM_stack_throw_bind {A B} (e : exn)
    (kV : A -> M VM.t B) (kS : A -> M Stack B) :
  on_VM_stack (bind (throw e) kV) (bind (throw e) kS).
Proof. intros [s prog p]. reflexivity. Qed.

Lemma evalFn_on_VM_stack (i : Instruction) :
  on_VM_stack (@evalFn VM.t _ i) (@evalFn Stack Stack_runtime i).
Proof.
  destruct i; cbn [evalFn]; unfold relop, binop, blocks_member, member,
      assertLocalIndexInRange, assertGlobalIndexInRange, read_slot, write_slot;
    cbn [vm_push vm_pop vm_peek vm_popI32 vm_blocks vm_findMatchingEndPc
         vm_findMatchingElsePc vm_breakToLabel vm_callFunction
         vm_locals vm_globals VM.runtime Stack_runtime];
    unfold VM.push, VM.pop, VM.peek, VM.popI32;
    repeat first
      [ apply on_VM_stack_method
      | apply on_VM_stack_throw_bind
      | apply (on_VM_stack_pure (Return tt))
      | match goal with
        | |- on_VM_stack (throw ?e) _ => apply (on_VM_stack_pure (Throw e))
        | |- on_VM_stack (ret ?a) _ => apply (on_VM_stack_pure (Return a))
        | |- on_VM_stack (value_of ?c) _ => destruct c; cbn [value_of]
        | |- on_VM_stack (if ?c then _ else _) _ => destruct c
        end
      | apply on_VM_stack_bind; [|intros ?] ].
Qed.

Lemma run_app {V} `{Runtime V} (xs ys : list Instruction) (s : V) :
  run (xs ++ ys) s = bind (run xs) (fun _ => run ys) s.
Proof.
  revert s. induction xs as [|x xs IH]; intros s; [reflexivity|].
  cbn [app run]. rewrite bind_assoc. apply bind_ext. intros _ s'. apply IH.
Qed.

Lemma VM_steps_run (seg : list Instruction) :
  forall (pre : list Instruction) (vm : VM.t),
    VM.instructions vm = pre ++ seg -> VM.pc vm = len pre ->
    VM.stack (fst (VM.steps (List.length seg) vm))
    = fst (@run Stack Stack_runtime seg (VM.stack vm))
    /\ snd (VM.steps (List.length seg) vm)
       = snd (@run Stack Stack_runtime seg (VM.stack vm)).
Proof.
  induction seg as [|i seg IH]; intros pre vm Hprog Hpc; [split; reflexivity|].
  cbn [List.length VM.steps run].
  assert (Hstep : VM.step vm
                  = bind (VM.on_stack (@evalFn Stack Stack_runtime i))
                         (fun _ => modify (fun vm => VM.set_pc (VM.pc vm + 1) vm)) vm).
  { unfold VM.step, bind at 1, get. rewrite Hprog, Hpc, array_get_middle. cbn [eval].
    unfold bind. now rewrite (evalFn_on_VM_stack i vm). }
  unfold bind. rewrite Hstep. unfold bind, VM.on_stack.
  destruct (@evalFn Stack Stack_runtime i (VM.stack vm)) as [s1 [[]|e|]];
    [|split; reflexivity|split; reflexivity].
  unfold modify.
  apply (IH (pre ++ [i])).
  - cbn. rewrite Hprog, <- app_assoc. reflexivity.
  - cbn. rewrite Hpc, len_app. reflexivity.
Qed.

(** Stepping a new VM through its whole program and [run] of the same
    instructions on a new, bare stack agree: they leave the same items on the
    stack, and both return or both throw the same error. *)
Theorem VM_steps_agree_with_run (prog : list Instruction) :
  VM.stack (fst (VM.steps (List.length prog) (VM.new_VM prog)))
  = fst (@run Stack Stack_runtime prog {| items := [] |})
  /\ snd (VM.steps (List.length prog) (VM.new_VM prog))
     = snd (@run Stack Stack_runtime prog {| items := [] |}).
Proof. apply (VM_steps_run prog [] (VM.new_VM prog)); reflexivity. Qed.

(** ** What an instance cannot execute *)

Lemma always_throws_bind {S A B} (m : M S A) (k : A -> M S B) :
  terminates m -> (forall a, always_throws (k a)) -> always_throws (bind m k).
Proof.
  intros Hm Hk s. unfold bind. specialize (Hm s).
  destruct (m s) as [s' [a|e|]]; cbn [snd] in *; [apply Hk|now exists e|contradiction].
Qed.

Lemma always_throws_first {S A B} (m : M S A) (k : A -> M S B) :
  always_throws m -> always_throws (bind m k).
Proof.
  intros Hm s. unfold bind. destruct (Hm s) as [e He].
  destruct (m s) as [s' [a|e'|]]; cbn [snd] in *; [discriminate|now exists e'|discriminate].
Qed.

Lemma always_throws_throw {S A} (e : exn) : always_throws (@throw S A e).
Proof. intros s. now exists e. Qed.

Lemma terminates_on_currentFrame {A} (prop : string) (m : M CallFrame.t A) :
  terminates m -> terminates (Instance.on_currentFrame prop m).
Proof.
  intros Hm i. unfold Instance.on_currentFrame, on_last.
  destruct (array_pop (Instance.callStack i)) as [[f|] init]; [|discriminate].
  specialize (Hm f). destruct (m f) as [f' r]. exact Hm.
Qed.

Lemma terminates_findMatchingEndPc : terminates CallFrame.findMatchingEndPc.
Proof. intros f. apply findMatching_total. Qed.

Lemma terminates_findMatchingElsePc : terminates CallFrame.findMatchingElsePc.
Proof. intros f. apply findMatching_total. Qed.

Lemma always_throws_assertLocalIndexInRange_None {V} `{Runtime V} (index : Z) :
  always_throws (assertLocalIndexInRange (V := V) None index).
Proof.
  intros s. unfold assertLocalIndexInRange. destruct (index <? 0); eexists; reflexivity.
Qed.

Lemma needs_frame_members_throws (i : Instruction) :
  needs_frame_members i = true -> always_throws (@evalFn Instance.t _ i).
Proof.
  intros Hi.
  destruct i; try discriminate Hi; cbn [evalFn]; unfold blocks_member, member;
    cbn [vm_popI32 vm_blocks vm_findMatchingEndPc vm_findMatchingElsePc
         vm_set_pc vm_locals Instance.runtime];
    unfold Instance.popI32, Instance.findMatchingEndPc, Instance.findMatchingElsePc;
    repeat first
      [ apply always_throws_throw
      | apply always_throws_first; apply always_throws_assertLocalIndexInRange_None
      | match goal with
        | |- always_throws (if ?c then _ else _) => destruct c
        | |- terminates (modify _) => intros ?; discriminate
        end
      | apply always_throws_bind; [|intros ?]
      | apply terminates_on_currentFrame
      | apply terminates_on_currentBlock
      | apply terminates_Stack_popI32
      | apply terminates_findMatchingEndPc
      | apply terminates_findMatchingElsePc
      | apply terminates_value_of ].
Qed.

(** [block], [loop], [if], [else], [end] and the three instructions on
    locals cannot be executed by an instance: the instance is the receiver
    of [eval], and it has no [pushFrame], [popFrame] or [locals], so each of
    them throws, and so does the [step] that meets one. *)
Theorem Instance_cannot_run_blocks_or_locals (inst : Instance.t) (f : CallFrame.t)
    (i : Instruction) (fuel : nat) :
  Instance.currentFrame inst = Some f ->
  array_get (CallFrame.instructions f) (CallFrame.pc f) = Some i ->
  needs_frame_members i = true ->
  exists e, snd (evalFn i inst) = Throw e /\ snd (Instance.step fuel inst) = Throw e.
Proof.
  intros Hf Hi Hn. destruct (needs_frame_members_throws i Hn inst) as [e He].
  exists e. split; [exact He|].
  unfold Instance.step, bind at 1, get. rewrite Hf, Hi. cbn [eval].
  unfold bind at 1. destruct (evalFn i inst) as [inst' [[]|e'|]]; cbn [snd] in *;
    [discriminate|exact He|discriminate].
Qed.

Lemma Instance_cannot_run_blocks_or_locals_witness :
  exists e,
    snd (evalFn loop
           {| Instance.callStack := [CallFrame.new_CallFrame [loop; end_] [] []];
              Instance.functions := []; Instance.globals := []; Instance.pc := None |})
    = Throw e
    /\ snd (Instance.step 1
              {| Instance.callStack := [CallFrame.new_CallFrame [loop; end_] [] []];
                 Instance.functions := []; Instance.globals := []; Instance.pc := None |})
       = Throw e.
Proof.
  apply (Instance_cannot_run_blocks_or_locals
           {| Instance.callStack := [CallFrame.new_CallFrame [loop; end_] [] []];
              Instance.functions := []; Instance.globals := []; Instance.pc := None |}
           (CallFrame.new_CallFrame [loop; end_] [] []) loop 1);
    reflexivity.
Defined.

(** ** The scans, characterised *)

Lemma scan_throws (closes opens : string -> bool) (prog : list Instruction) :
  forall (fuel : nat) (remainingBlocks pc : Z) (e : exn),
    CallFrame.scan closes opens prog fuel remainingBlocks pc = Throw e ->
    e = TypeError_property_of_undefined "name".
Proof.
  induction fuel as [|fuel IH]; intros remainingBlocks pc e H; [discriminate H|].
  cbn [CallFrame.scan] in H.
  destruct (remainingBlocks >? 0); [|discriminate H].
  destruct (array_get prog (pc + 1)) as [i|]; [|now injection H as <-].
  destruct (closes (name i)); [|destruct (opens (name i))]; now apply IH in H.
Qed.

(** The scans for the matching [end] and the matching [else] change nothing
    and always come to an end: each either returns a position after [pc] that
    holds an [end] (an [else]), or throws the TypeError for [name] of
    [undefined], having read outside the program. *)
Theorem findMatching_returns_match_or_throws (f : CallFrame.t) :
  ((exists p, CallFrame.findMatchingEndPc f = (f, Return p)
              /\ CallFrame.pc f < p
              /\ array_get (CallFrame.instructions f) p = Some end_)
   \/ CallFrame.findMatchingEndPc f = (f, Throw (TypeError_property_of_undefined "name")))
  /\ ((exists p, CallFrame.findMatchingElsePc f = (f, Return p)
                 /\ CallFrame.pc f < p
                 /\ array_get (CallFrame.instructions f) p = Some else_)
      \/ CallFrame.findMatchingElsePc f
         = (f, Throw (TypeError_property_of_undefined "name"))).
Proof.
  pose proof (findMatching_total f) as [T1 T2].
  pose proof (findMatching_sound f) as S.
  unfold CallFrame.findMatchingEndPc, CallFrame.findMatchingElsePc in *. cbn [snd] in *.
  split.
  - destruct (CallFrame.scan _ _ _ _ _ _) as [p|e|] eqn:E in T1 |- *.
    + left. exists p. split; [reflexivity|]. apply (S p). exact E.
    + right. now rewrite (scan_throws _ _ _ _ _ _ _ E).
    + contradiction.
  - destruct (CallFrame.scan (fun n => String.eqb n "else") _ _ _ _ _) as [p|e|] eqn:E
      in T2 |- *.
    + left. exists p. split; [reflexivity|]. apply (S p). exact E.
    + right. now rewrite (scan_throws _ _ _ _ _ _ _ E).
    + contradiction.
Qed.

(** ** Indices out of range, on concrete receivers *)



